(** * Subscription extraction from e-mail text

    A shallow embedding of [src/services/subscriptionService.ts]
    ([parseSubscriptionsFromEmails] and its helpers) together with the
    small part of the JavaScript runtime the file relies on: strings of
    UTF-16 code units, [String.prototype.includes], backtracking regular
    expressions, [parseFloat], [Date] and date-fns' [addDays]. *)

From Stdlib Require Import List NArith ZArith QArith Bool Lia String Ascii.
Import ListNotations.
Close Scope Q_scope.

Set Implicit Arguments.

(** ** JavaScript strings *)

(** A JavaScript string is a sequence of UTF-16 code units. *)
Definition jschar := N.
Definition jsstr := list jschar.

(** The code units of an ASCII literal of the source. *)
Definition js (s : string) : jsstr := map N_of_ascii (list_ascii_of_string s).

(** The non-ASCII currency signs the source mentions. *)
Definition c_dollar : jschar := 36%N.     (* $ *)
Definition c_pound  : jschar := 163%N.    (* U+00A3 *)
Definition c_naira  : jschar := 8358%N.   (* U+20A6 *)
Definition c_euro   : jschar := 8364%N.   (* U+20AC *)

Fixpoint str_eqb (a b : jsstr) : bool :=
  match a, b with
  | [], [] => true
  | x :: a', y :: b' => (x =? y)%N && str_eqb a' b'
  | _, _ => false
  end.

Fixpoint startsWith (p s : jsstr) : bool :=
  match p, s with
  | [], _ => true
  | x :: p', y :: s' => (x =? y)%N && startsWith p' s'
  | _ :: _, [] => false
  end.

(** [s.includes(p)]: [p] occurs in [s] as a contiguous run of code units. *)
Fixpoint includes (s p : jsstr) : bool :=
  startsWith p s ||
  match s with
  | [] => false
  | _ :: s' => includes s' p
  end.

Definition isAscii (c : jschar) : bool := (c <? 128)%N.
Definition isUpperAscii (c : jschar) : bool := (65 <=? c)%N && (c <=? 90)%N.
Definition isLowerAscii (c : jschar) : bool := (97 <=? c)%N && (c <=? 122)%N.
Definition asciiLower (c : jschar) : jschar := if isUpperAscii c then (c + 32)%N else c.
Definition asciiUpper (c : jschar) : jschar := if isLowerAscii c then (c - 32)%N else c.

(** WhiteSpace and LineTerminator of ECMAScript: the class [\s] and the
    characters [trim] strips. *)
Definition isWhiteSpace (c : jschar) : bool :=
  ((9 <=? c) && (c <=? 13) || (c =? 32) || (c =? 160) || (c =? 5760)
   || (8192 <=? c) && (c <=? 8202) || (c =? 8232) || (c =? 8233)
   || (c =? 8239) || (c =? 8287) || (c =? 12288) || (c =? 65279))%N.

Definition isDigit (c : jschar) : bool := (48 <=? c)%N && (c <=? 57)%N.
Definition isLetter (c : jschar) : bool := isUpperAscii c || isLowerAscii c.

(** The word characters of [\b]: [A-Za-z0-9_]. *)
Definition isWordChar (c : jschar) : bool :=
  isUpperAscii c || isLowerAscii c || isDigit c || (c =? 95)%N.

Fixpoint dropWhile (f : jschar -> bool) (s : jsstr) : jsstr :=
  match s with
  | [] => []
  | c :: s' => if f c then dropWhile f s' else s
  end.

(** [s.trim()]. *)
Definition trim (s : jsstr) : jsstr :=
  rev (dropWhile isWhiteSpace (rev (dropWhile isWhiteSpace s))).

(** [s.split("\n")[0]]: the text before the first line feed. *)
Fixpoint firstLine (s : jsstr) : jsstr :=
  match s with
  | [] => []
  | c :: s' => if (c =? 10)%N then [] else c :: firstLine s'
  end.

(** [s.replace(",", ".")]: only the first comma is replaced. *)
Fixpoint replaceFirstComma (s : jsstr) : jsstr :=
  match s with
  | [] => []
  | c :: s' => if (c =? 44)%N then 46%N :: s' else c :: replaceFirstComma s'
  end.

(** ** Numbers

    [parseFloat] on an unsigned decimal literal without exponent, the only
    shape the capture group of the money pattern can have (see
    [moneyRegex_groups] below).  The number is kept as the exact decimal
    [n # 10^k] the digits denote (the double the engine returns is the one
    nearest to it); [None] stands for [NaN]. *)

Definition digitVal (c : jschar) : Z := (Z.of_N c - 48)%Z.

Fixpoint digitsValue (acc : Z) (s : jsstr) : Z :=
  match s with
  | [] => acc
  | c :: s' => digitsValue (10 * acc + digitVal c)%Z s'
  end.

Fixpoint takeWhile (f : jschar -> bool) (s : jsstr) : jsstr :=
  match s with
  | [] => []
  | c :: s' => if f c then c :: takeWhile f s' else []
  end.

Fixpoint pow10 (k : nat) : positive :=
  match k with
  | O => 1%positive
  | S k' => (10 * pow10 k')%positive
  end.

Definition parseFloat (s : jsstr) : option Q :=
  let s := dropWhile isWhiteSpace s in
  let ip := takeWhile isDigit s in
  let tl := dropWhile isDigit s in
  match ip, tl with
  | [], _ => None
  | _, dot :: fr =>
      if (dot =? 46)%N then
        let fp := takeWhile isDigit fr in
        Some (Qmake (digitsValue 0 (ip ++ fp)) (pow10 (List.length fp)))
      else Some (Qmake (digitsValue 0 ip) 1)
  | _, [] => Some (Qmake (digitsValue 0 ip) 1)
  end.

(** ** Dates

    A [Date] object holds a time value in milliseconds since the epoch, or
    [NaN] (an "Invalid Date").  Every [Date] object is truthy. *)
Inductive JSDate :=
| TimeValue (t : Z)
| InvalidDate.

Definition msPerDay : Z := 86400000%Z.

Definition isLeapYear (y : Z) : bool :=
  ((y mod 4 =? 0) && negb (y mod 100 =? 0) || (y mod 400 =? 0))%Z.

Definition daysInMonth (y m : Z) : Z :=
  if (m =? 2)%Z then (if isLeapYear y then 29%Z else 28%Z)
  else if ((m =? 4) || (m =? 6) || (m =? 9) || (m =? 11))%Z then 30%Z else 31%Z.

(** Day number of the civil date [y]-[m]-[d] counted from 1970-01-01
    (ECMAScript's MakeDay). *)
Definition daysFromCivil (y m d : Z) : Z :=
  (let y' := if m <=? 2 then y - 1 else y in
   let era := y' / 400 in
   let yoe := y' - era * 400 in
   let mp := (m + 9) mod 12 in
   let doy := (153 * mp + 2) / 5 + d - 1 in
   let doe := yoe * 365 + yoe / 4 - yoe / 100 + doy in
   era * 146097 + doe - 719468)%Z.

(** Midnight UTC of a civil date. *)
Definition utcDate (y m d : Z) : JSDate := TimeValue (msPerDay * daysFromCivil y m d)%Z.

(** The date-only form [YYYY-MM-DD] of the ECMAScript date-time string
    format: its three numeric fields. *)
Definition isoDateOnly (s : jsstr) : option (Z * Z * Z) :=
  match s with
  | [y1; y2; y3; y4; h1; m1; m2; h2; d1; d2] =>
      if forallb isDigit [y1; y2; y3; y4; m1; m2; d1; d2]
         && (h1 =? 45)%N && (h2 =? 45)%N
      then Some (digitsValue 0 [y1; y2; y3; y4], digitsValue 0 [m1; m2], digitsValue 0 [d1; d2])
      else None
  | _ => None
  end.

(** ECMAScript's Day(t), TimeWithinDay(t), MakeDate(day, time) and
    TimeClip(t). *)
Definition dayOf (t : Z) : Z := (t / msPerDay)%Z.
Definition timeWithinDay (t : Z) : Z := (t mod msPerDay)%Z.
Definition makeDate (dy tm : Z) : Z := (dy * msPerDay + tm)%Z.

Definition maxTime : Z := 8640000000000000%Z.

Definition timeClip (t : Z) : JSDate :=
  if (Z.abs t <=? maxTime)%Z then TimeValue t else InvalidDate.

(** ** The host engine

    [String.prototype.toLowerCase] follows the Unicode case tables,
    [new Date(string)] is implementation-defined outside the ECMAScript
    date-time format, and the local time zone is that of the process:
    [localTZA t true] is the offset of local time from UTC, in
    milliseconds, at the time value [t], and [localTZA t false] the offset
    at the local time [t] (ECMAScript's LocalTZA(t, isUTC)).  The
    development is parametric in all three and uses only what every
    engine guarantees: ASCII text is lower-cased letter by letter, a legal
    [YYYY-MM-DD] is midnight UTC of that day, and an illegal month or day
    number in that format gives an invalid date.  Nothing is assumed of
    the zone. *)
Class Host := {
  toLowerCase : jsstr -> jsstr;
  newDate : jsstr -> JSDate;
  localTZA : Z -> bool -> Z;
  toLowerCase_ascii :
    forall s, forallb isAscii s = true -> toLowerCase s = map asciiLower s;
  newDate_iso_legal :
    forall s y m d, isoDateOnly s = Some (y, m, d) ->
      (1 <= m <= 12)%Z -> (1 <= d <= daysInMonth y m)%Z ->
      newDate s = utcDate y m d;
  newDate_iso_illegal :
    forall s y m d, isoDateOnly s = Some (y, m, d) ->
      (m < 1 \/ 12 < m \/ d < 1 \/ 31 < d)%Z ->
      newDate s = InvalidDate
}.

(** ** Days on the local calendar *)

(** ECMAScript's LocalTime(t) and UTC(t). *)
Definition localTime `{Host} (t : Z) : Z := (t + localTZA t true)%Z.
Definition utcTime `{Host} (t : Z) : Z := (t - localTZA t false)%Z.

(** date-fns' [addDays(date, n)]: a copy of the date, returned as it is
    when [n] is 0 and else changed by [setDate(getDate() + n)].  [setDate]
    works on the local calendar: with [lt] the local time of the date, it
    builds MakeDay(YearFromTime(lt), MonthFromTime(lt), DateFromTime(lt) +
    n), which is the day number of [lt] moved by [n] (MakeDay counts days
    on from the first of the month, see [daysFromCivil_shift]), keeps the
    time within the local day, and converts that local time back to UTC.
    An invalid date stays invalid. *)
Definition addDays `{Host} (d : JSDate) (n : Z) : JSDate :=
  match d with
  | TimeValue t =>
      if (n =? 0)%Z then d
      else
        let lt := localTime t in
        timeClip (utcTime (makeDate (dayOf lt + n) (timeWithinDay lt)))
  | InvalidDate => InvalidDate
  end.

(** ** Regular expressions

    The patterns of the source use literals, character classes, [\d], [\s],
    [\b], alternation, [?], capturing groups and counted repetition of a
    single character class.  They are kept as syntax trees and run by a
    backtracking matcher with the priority order of ECMAScript: the left
    alternative first, greedy quantifiers, leftmost start position. *)

Inductive cclass :=
| CUnit (c : jschar)            (* one literal code unit *)
| CRange (lo hi : jschar)       (* [lo-hi] *)
| CDigit                        (* \d *)
| CSpace                        (* \s *)
| CUnion (a b : cclass).

Fixpoint cmem (p : cclass) (c : jschar) : bool :=
  match p with
  | CUnit a => (c =? a)%N
  | CRange lo hi => (lo <=? c)%N && (c <=? hi)%N
  | CDigit => isDigit c
  | CSpace => isWhiteSpace c
  | CUnion a b => cmem a c || cmem b c
  end.

(** Matching one code unit against a class.  Under the [i] flag two code
    units match when their canonical forms agree; a code unit above 127
    never canonicalizes to an ASCII one and the patterns below mention
    letters of ASCII only, so folding ASCII case decides every comparison. *)
Definition cmatch (ic : bool) (p : cclass) (c : jschar) : bool :=
  cmem p c || (ic && (cmem p (asciiUpper c) || cmem p (asciiLower c))).

Inductive regex :=
| Eps
| Chr (p : cclass)
| Seq (a b : regex)
| Alt (a b : regex)
| Opt (a : regex)                              (* a? *)
| Rep (p : cclass) (lo : nat) (hi : option nat) (* p{lo,hi}; [None] is unbounded *)
| Group (n : nat) (a : regex)                  (* n-th capturing group *)
| WordB.                                       (* \b *)

Declare Scope regex_scope.
Delimit Scope regex_scope with re.
Bind Scope regex_scope with regex.
Infix ">>" := Seq (at level 60, right associativity) : regex_scope.
Infix "<|>" := Alt (at level 65, right associativity) : regex_scope.

(** A literal of the pattern, code unit by code unit. *)
Fixpoint litUnits (s : jsstr) : regex :=
  match s with
  | [] => Eps
  | c :: s' => Seq (Chr (CUnit c)) (litUnits s')
  end.
Definition lit (s : string) : regex := litUnits (js s).

(** [a|b|...]. *)
Fixpoint alts (a : regex) (l : list regex) : regex :=
  match l with
  | [] => a
  | b :: l' => Alt a (alts b l')
  end.

(** The position of the matcher: the code unit just before it, the input
    still ahead, and the captures made so far. *)
Record mstate := MState {
  prev : option jschar;
  rest : jsstr;
  caps : list (nat * jsstr)
}.

Definition isWordOpt (c : option jschar) : bool :=
  match c with
  | Some c => isWordChar c
  | None => false
  end.

Definition atWordBoundary (st : mstate) : bool :=
  xorb (isWordOpt (prev st)) (isWordOpt (hd_error (rest st))).

(** The code units consumed between [s0] and its suffix [s1]. *)
Definition consumed (s0 s1 : jsstr) : jsstr :=
  firstn (List.length s0 - List.length s1) s0.

Definition setCap (n : nat) (w : jsstr) (st : mstate) : mstate :=
  MState (prev st) (rest st) ((n, w) :: caps st).

Section Matcher.

(** The [i] flag of the pattern. *)
Variable ic : bool.

(** Greedy [p{lo,hi}]: as many code units as allowed, handing back one
    at a time while the continuation fails. *)
Fixpoint repClass (p : cclass) (lo : nat) (hi : option nat)
         (pv : option jschar) (s : jsstr) (cs : list (nat * jsstr))
         (k : mstate -> option mstate) : option mstate :=
  let stop := match lo with
              | O => k (MState pv s cs)
              | S _ => None
              end in
  match s with
  | c :: s' =>
      if cmatch ic p c && negb (match hi with Some O => true | _ => false end)
      then
        match repClass p (Nat.pred lo) (option_map Nat.pred hi) (Some c) s' cs k with
        | Some r => Some r
        | None => stop
        end
      else stop
  | [] => stop
  end.

Fixpoint rmatch (r : regex) (st : mstate) (k : mstate -> option mstate)
  : option mstate :=
  match r with
  | Eps => k st
  | Chr p =>
      match rest st with
      | c :: s' => if cmatch ic p c then k (MState (Some c) s' (caps st)) else None
      | [] => None
      end
  | Seq a b => rmatch a st (fun st' => rmatch b st' k)
  | Alt a b =>
      match rmatch a st k with
      | Some r => Some r
      | None => rmatch b st k
      end
  | Opt a =>
      match rmatch a st k with
      | Some r => Some r
      | None => k st
      end
  | Rep p lo hi => repClass p lo hi (prev st) (rest st) (caps st) k
  | Group n a =>
      rmatch a st (fun st' => k (setCap n (consumed (rest st) (rest st')) st'))
  | WordB => if atWordBoundary st then k st else None
  end.

(** The result of [RegExp.prototype.exec]: start index, matched text
    and captures. *)
Record rmatchResult := MatchResult {
  m_index : nat;
  m_text : jsstr;
  m_caps : list (nat * jsstr)
}.

(** Leftmost match: the pattern is tried at every start position, from
    the first on. *)
Fixpoint search (r : regex) (pv : option jschar) (s : jsstr) (i : nat)
  : option rmatchResult :=
  match rmatch r (MState pv s []) Some with
  | Some st => Some (MatchResult i (consumed s (rest st)) (caps st))
  | None =>
      match s with
      | [] => None
      | c :: s' => search r (Some c) s' (S i)
      end
  end.

End Matcher.

(** A pattern with its flag. *)
Record RegExp := mkRegExp { re_pattern : regex; re_ignoreCase : bool }.

(** [s.match(re)] for a pattern without the [g] flag. *)
Definition smatch (s : jsstr) (re : RegExp) : option rmatchResult :=
  search (re_ignoreCase re) (re_pattern re) None s 0.

(** [m[n]] for a capturing group that took part in the match. *)
Fixpoint lookupCap (n : nat) (cs : list (nat * jsstr)) : option jsstr :=
  match cs with
  | [] => None
  | (i, w) :: cs' => if Nat.eqb i n then Some w else lookupCap n cs'
  end.
Definition group (n : nat) (m : rmatchResult) : option jsstr := lookupCap n (m_caps m).

(** ** Errors

    The only exception the code can raise is the [TypeError] of a method
    call on [undefined]. *)
Inductive JSError := TypeError.

Inductive result (A : Type) :=
| Ok (a : A)
| Throw (e : JSError).
Arguments Ok {A} a.
Arguments Throw {A} e.

Definition bind {A B} (x : result A) (f : A -> result B) : result B :=
  match x with
  | Ok a => f a
  | Throw e => Throw e
  end.

Notation "x <- c1 ;; c2" := (bind c1 (fun x => c2))
  (at level 61, c1 at next level, right associativity).

(** [try { body } catch {}] followed by [rest]: [body] returns from the
    function when it completes, an exception falls through to [rest]. *)
Definition tryOrElse {A} (body : result A) (rest : A) : A :=
  match body with
  | Ok a => a
  | Throw _ => rest
  end.

(** [m[n].method(...)]: a [TypeError] when the group is [undefined]. *)
Definition capture (n : nat) (m : rmatchResult) : result jsstr :=
  match group n m with
  | Some w => Ok w
  | None => Throw TypeError
  end.

(** [new Date(x)] for [x] a string or [undefined]; it never throws. *)
Definition newDateOf `{Host} (x : option jsstr) : JSDate :=
  match x with
  | Some s => newDate s
  | None => InvalidDate
  end.

(** [x || d] for [x] a string, [null] or [undefined]: the empty string is
    falsy as well. *)
Definition strOr (x : option jsstr) (d : jsstr) : jsstr :=
  match x with
  | Some (c :: s) => c :: s
  | _ => d
  end.

(** ** The data of [subscriptionService.ts] *)

(** A header, a message part and a message as the Gmail client types them:
    the name and the value of a header are optional strings, the header
    list of a payload is optional, and so are the snippet and the payload
    of a message. *)
Record Header := mkHeader {
  h_name : option jsstr;
  h_value : option jsstr
}.

Record Payload := mkPayload {
  headers : option (list Header)
}.

Record EmailMsg := mkEmailMsg {
  id : jsstr;
  snippet : option jsstr;
  payload : option Payload
}.

Inductive JSNumber :=
| Num (q : Q)
| NaN.

Record RawData := mkRawData {
  messageId : jsstr;
  rawSnippet : option jsstr
}.

(** [ParsedSub]; an optional field that is [undefined] and a date that is
    [null] are both [None]. *)
Record ParsedSub := mkParsedSub {
  provider : jsstr;
  product : option jsstr;
  amount : option JSNumber;
  currency : option jsstr;
  startDate : option JSDate;
  nextBilling : option JSDate;
  rawData : RawData
}.

Definition knownProviders : list jsstr :=
  map js ["openai"; "perplexity"; "claude"; "spotify"; "youtube";
          "netflix"; "stripe"; "apple"; "amazon"]%string.

Definition subscriptionKeywords : list jsstr :=
  map js ["subscription"; "renewal"; "renewed"; "payment"; "invoice";
          "charged"; "billed"; "receipt"; "plan"; "auto-renew";
          "membership"]%string.

(** ** The patterns *)

Definition ch (a : ascii) : jschar := N_of_ascii a.
Definition one (c : jschar) : regex := Chr (CUnit c).

Definition digits09 : cclass := CRange (ch "0") (ch "9").

(** [/(?:USD|\$|EUR|€|NGN|₦)?\s?([0-9]+(?:[.,][0-9]{1,2})?)\s?(?:USD|EUR|NGN|₦)?/i] *)
Definition moneyRegex : RegExp :=
  mkRegExp
    (Opt (alts (lit "USD") [lit "$"; lit "EUR"; one c_euro; lit "NGN"; one c_naira])
     >> Opt (Chr CSpace)
     >> Group 1 (Rep digits09 1 None
                 >> Opt (Chr (CUnion (CUnit (ch ".")) (CUnit (ch ","))) >> Rep digits09 1 (Some 2)))
     >> Opt (Chr CSpace)
     >> Opt (alts (lit "USD") [lit "EUR"; lit "NGN"; one c_naira]))%re
    true.

Definition dateSep : cclass := CUnion (CUnit (ch "-")) (CUnit (ch "/")).

(** [/\b(20\d{2}[-\/]\d{1,2}[-\/]\d{1,2})\b/] *)
Definition isoRegex : RegExp :=
  mkRegExp
    (WordB
     >> Group 1 (lit "20" >> Rep CDigit 2 (Some 2) >> Chr dateSep
                 >> Rep CDigit 1 (Some 2) >> Chr dateSep >> Rep CDigit 1 (Some 2))
     >> WordB)%re
    false.

(** [/\b(?:Jan|Feb|Mar|Apr|May|Jun|Jul|Aug|Sep|Sept|Oct|Nov|Dec)[a-z]*\s+\d{1,2},\s*\d{4}\b/i] *)
Definition longDateRegex : RegExp :=
  mkRegExp
    (WordB
     >> alts (lit "Jan") [lit "Feb"; lit "Mar"; lit "Apr"; lit "May"; lit "Jun";
                          lit "Jul"; lit "Aug"; lit "Sep"; lit "Sept"; lit "Oct";
                          lit "Nov"; lit "Dec"]
     >> Rep (CRange (ch "a") (ch "z")) 0 None
     >> Rep CSpace 1 None
     >> Rep CDigit 1 (Some 2)
     >> lit ","
     >> Rep CSpace 0 None
     >> Rep CDigit 4 (Some 4)
     >> WordB)%re
    true.

(** [/\$|₦|€|£|\d{1,5}\s?(usd|ngn|eur|gbp)/i] *)
Definition currencyRegex : RegExp :=
  mkRegExp
    (alts (lit "$") [one c_naira; one c_euro; one c_pound;
                     (Rep CDigit 1 (Some 5) >> Opt (Chr CSpace)
                      >> Group 1 (alts (lit "usd") [lit "ngn"; lit "eur"; lit "gbp"]))%re])
    true.

Definition productChars : cclass :=
  CUnion (CRange (ch "A") (ch "Z"))
    (CUnion (CRange (ch "a") (ch "z"))
       (CUnion (CRange (ch "0") (ch "9"))
          (CUnion (CUnit (ch " ")) (CUnit (ch "-"))))).

(** [/(plan|subscription|membership|premium|pro|plus|monthly|annual)[\s:]*([A-Za-z0-9 -]+)/i] *)
Definition productRegex : RegExp :=
  mkRegExp
    (Group 1 (alts (lit "plan") [lit "subscription"; lit "membership"; lit "premium";
                                 lit "pro"; lit "plus"; lit "monthly"; lit "annual"])
     >> Rep (CUnion CSpace (CUnit (ch ":"))) 0 None
     >> Group 2 (Rep productChars 1 None))%re
    true.

(** ** The functions *)

Section Service.

Context `{Host}.

(** [headers.find((h) => h.name.toLowerCase() === "from")]: a header
    without a name raises as soon as the scan reaches it. *)
Fixpoint findFrom (hs : list Header) : result (option Header) :=
  match hs with
  | [] => Ok None
  | h :: hs' =>
      match h_name h with
      | None => Throw TypeError
      | Some n =>
          if str_eqb (toLowerCase n) (js "from") then Ok (Some h) else findFrom hs'
      end
  end.

(** [found?.value?.toLowerCase() || ""] *)
Definition fromValue (found : option Header) : jsstr :=
  strOr (option_map toLowerCase (match found with
                                 | Some h => h_value h
                                 | None => None
                                 end)) [].

Definition guessProviderFromHeaders (payload : option Payload)
  : result (option jsstr) :=
  match payload with
  | None => Ok None
  | Some pl =>
      let headers := match headers pl with Some hs => hs | None => [] end in
      found <- findFrom headers ;;
      let from := fromValue found in
      Ok (find (fun p => includes from p) knownProviders)
  end.

(** The result of [extractAmount]; an absent field is [None]. *)
Record AmountInfo := mkAmountInfo {
  a_amount : option JSNumber;
  a_currency : option jsstr
}.

Definition extractAmount (snippet : jsstr) : result AmountInfo :=
  match smatch snippet moneyRegex with
  | None => Ok (mkAmountInfo None None)
  | Some m =>
      g <- capture 1 m ;;
      let raw := replaceFirstComma g in
      let num := match parseFloat raw with Some q => Num q | None => NaN end in
      let currency :=
        if includes snippet [c_dollar] then js "USD"
        else if includes snippet [c_euro] then js "EUR"
        else if includes snippet [c_naira] then js "NGN"
        else js "USD" in
      Ok (mkAmountInfo (Some num) (Some currency))
  end.

(** The result of [extractDates]; [null] is [None]. *)
Record DateInfo := mkDateInfo {
  d_start : option JSDate;
  d_next : option JSDate
}.

Definition datesFrom (x : option jsstr) : result DateInfo :=
  let d := newDateOf x in
  Ok (mkDateInfo (Some d) (Some (addDays d 30))).

Definition extractDates (snippet : jsstr) : DateInfo :=
  let afterIso :=
    match smatch snippet longDateRegex with
    | Some longDate =>
        tryOrElse (datesFrom (Some (m_text longDate))) (mkDateInfo None None)
    | None => mkDateInfo None None
    end in
  match smatch snippet isoRegex with
  | Some iso => tryOrElse (datesFrom (group 1 iso)) afterIso
  | None => afterIso
  end.

(** [prodMatch[2].trim().split("\n")[0]] under [m.snippet?.match(...)]. *)
Definition extractProduct (snippet : option jsstr) : result (option jsstr) :=
  match snippet with
  | None => Ok None
  | Some s =>
      match smatch s productRegex with
      | None => Ok None
      | Some prodMatch =>
          g <- capture 2 prodMatch ;;
          Ok (Some (firstLine (trim g)))
      end
  end.

(** The three tests a message has to pass, on its lower-cased text. *)
Definition hasBrand (brandKeywords : list jsstr) (sn : jsstr) : bool :=
  existsb (fun b => includes sn b) brandKeywords.
Definition hasPayment (sn : jsstr) : bool :=
  existsb (fun k => includes sn k) subscriptionKeywords.
Definition hasCurrencyToken (sn : jsstr) : bool :=
  match smatch sn currencyRegex with
  | Some _ => true
  | None => false
  end.

(** One turn of the loop over [msgs]: [None] where the source
    [continue]s, the record pushed on [results] otherwise. *)
Definition processMessage (brandKeywords : list jsstr) (m : EmailMsg)
  : result (option ParsedSub) :=
  let text := strOr (snippet m) [] in
  let sn := toLowerCase text in
  providerFromHeader <- guessProviderFromHeaders (payload m) ;;
  if negb (hasBrand brandKeywords sn) || negb (hasPayment sn) then Ok None
  else if negb (hasCurrencyToken sn) then Ok None
  else
    let provider :=
      strOr providerFromHeader
        (strOr (find (fun p => includes sn p) knownProviders) (js "unknown")) in
    amt <- extractAmount text ;;
    let dates := extractDates text in
    product <- extractProduct (snippet m) ;;
    Ok (Some (mkParsedSub
                provider
                product
                (a_amount amt)
                (a_currency amt)
                (d_start dates)
                (match d_next dates with
                 | Some next => Some next
                 | None => match d_start dates with
                           | Some start => Some (addDays start 30)
                           | None => None
                           end
                 end)
                (mkRawData (id m) (snippet m)))).

(** The first loop: [results] after all of [msgs]. *)
Fixpoint collectResults (brandKeywords : list jsstr) (msgs : list EmailMsg)
  : result (list ParsedSub) :=
  match msgs with
  | [] => Ok []
  | m :: msgs' =>
      r <- processMessage brandKeywords m ;;
      rs <- collectResults brandKeywords msgs' ;;
      Ok (match r with
          | Some c => c :: rs
          | None => rs
          end)
  end.

(** [`${r.provider}::${r.product ?? "unknown"}`] *)
Definition subKey (r : ParsedSub) : jsstr :=
  provider r ++ js "::" ++ match product r with
                           | Some p => p
                           | None => js "unknown"
                           end.

(** A [Map<string, ParsedSub>]: its entries in insertion order. *)
Definition JSMap := list (jsstr * ParsedSub).

Definition map_has (g : JSMap) (k : jsstr) : bool :=
  existsb (fun e => str_eqb (fst e) k) g.

Fixpoint map_set (g : JSMap) (k : jsstr) (v : ParsedSub) : JSMap :=
  match g with
  | [] => [(k, v)]
  | (k', v') :: g' =>
      if str_eqb k' k then (k', v) :: g' else (k', v') :: map_set g' k v
  end.

Definition map_values (g : JSMap) : list ParsedSub := map snd g.

(** The second loop. *)
Definition dedupStep (grouped : JSMap) (r : ParsedSub) : JSMap :=
  let key := subKey r in
  if map_has grouped key then grouped else map_set grouped key r.

Definition groupResults (results : list ParsedSub) : JSMap :=
  fold_left dedupStep results [].

(** [subs] is the content of [data/subs.json], the list of brand names. *)
Definition parseSubscriptionsFromEmails (subs : list jsstr) (msgs : list EmailMsg)
  : result (list ParsedSub) :=
  let brandKeywords := map toLowerCase subs in
  results <- collectResults brandKeywords msgs ;;
  Ok (map_values (groupResults results)).

End Service.

(** ** What a pattern matches

    A declarative reading of the patterns, against which the matcher is
    checked: [Matches ic r pv w rs] says that [r] can match the word [w]
    at a position preceded by the code unit [pv] and followed by [rs]. *)

Fixpoint lastOr (pv : option jschar) (w : jsstr) : option jschar :=
  match w with
  | [] => pv
  | c :: w' => lastOr (Some c) w'
  end.

Inductive Matches (ic : bool) : regex -> option jschar -> jsstr -> jsstr -> Prop :=
| M_Eps pv rs : Matches ic Eps pv [] rs
| M_Chr p c pv rs : cmatch ic p c = true -> Matches ic (Chr p) pv [c] rs
| M_Seq a b pv w1 w2 rs :
    Matches ic a pv w1 (w2 ++ rs) -> Matches ic b (lastOr pv w1) w2 rs ->
    Matches ic (Seq a b) pv (w1 ++ w2) rs
| M_AltL a b pv w rs : Matches ic a pv w rs -> Matches ic (Alt a b) pv w rs
| M_AltR a b pv w rs : Matches ic b pv w rs -> Matches ic (Alt a b) pv w rs
| M_OptSome a pv w rs : Matches ic a pv w rs -> Matches ic (Opt a) pv w rs
| M_OptNone a pv rs : Matches ic (Opt a) pv [] rs
| M_Rep p lo hi pv w rs :
    forallb (cmatch ic p) w = true -> lo <= List.length w ->
    (forall h, hi = Some h -> List.length w <= h) ->
    Matches ic (Rep p lo hi) pv w rs
| M_Group n a pv w rs : Matches ic a pv w rs -> Matches ic (Group n a) pv w rs
| M_WordB pv rs :
    xorb (isWordOpt pv) (isWordOpt (hd_error rs)) = true -> Matches ic WordB pv [] rs.

(** The group [n] is set by every match of the pattern. *)
Fixpoint binds (n : nat) (r : regex) : bool :=
  match r with
  | Seq a b => binds n a || binds n b
  | Alt a b => binds n a && binds n b
  | Group i a => Nat.eqb i n || binds n a
  | _ => false
  end.

(** Every group of the pattern captures only words with the property [P]
    of its number. *)
Fixpoint groupsSat (ic : bool) (P : nat -> jsstr -> Prop) (r : regex) : Prop :=
  match r with
  | Seq a b | Alt a b => groupsSat ic P a /\ groupsSat ic P b
  | Opt a => groupsSat ic P a
  | Group i a => (forall pv w rs, Matches ic a pv w rs -> P i w) /\ groupsSat ic P a
  | _ => True
  end.

Definition capsSat (P : nat -> jsstr -> Prop) (cs : list (nat * jsstr)) : Prop :=
  Forall (fun e => P (fst e) (snd e)) cs.

(** [p] occurs in [s]. *)
Definition occursIn (p s : jsstr) : Prop := exists pre suf, s = pre ++ p ++ suf.

(** [re] matches somewhere in [s]. *)
Definition matchesSomewhere (re : RegExp) (s : jsstr) : Prop :=
  exists pre w rs,
    s = pre ++ w ++ rs /\ Matches (re_ignoreCase re) (re_pattern re) (lastOr None pre) w rs.

(** The shape of an amount as the money pattern captures it: digits, and
    possibly a dot or a comma with one or two more digits. *)
Definition isAmountText (g ip fp : jsstr) : Prop :=
  ip <> [] /\ forallb isDigit ip = true /\ forallb isDigit fp = true /\
  ((g = ip /\ fp = []) \/
   (exists sep, (sep = ch "." \/ sep = ch ",") /\ g = ip ++ sep :: fp /\
                1 <= List.length fp <= 2)).

(** The decimal number it denotes. *)
Definition decimalValue (ip fp : jsstr) : Q :=
  Qmake (digitsValue 0 (ip ++ fp)) (pow10 (List.length fp)).

(** ** The wording of the specification *)

Definition currencySymbols : list jschar := [c_dollar; c_euro; c_pound; c_naira].
Definition currencyCodes : list jsstr := map js ["usd"; "ngn"; "eur"; "gbp"]%string.

Definition sameIgnoringCase (a b : jsstr) : Prop := map asciiLower a = map asciiLower b.

(** A currency-like token: a currency symbol, or a digit followed, with at
    most one white space between, by a three-letter code in any case. *)
Definition currencyLikeToken (t : jsstr) : Prop :=
  (exists c, In c currencySymbols /\ t = [c]) \/
  (exists d ws code code',
      isDigit d = true /\
      (ws = [] \/ exists c, ws = [c] /\ isWhiteSpace c = true) /\
      In code currencyCodes /\ sameIgnoringCase code' code /\
      t = d :: ws ++ code').

Section Wording.

Context `{Host}.

(** The text of a message, [m.snippet || ""], and its lower-cased form
    the filter looks at. *)
Definition rawText (m : EmailMsg) : jsstr := strOr (snippet m) [].
Definition loweredText (m : EmailMsg) : jsstr := toLowerCase (rawText m).

(** The Candidate Filter. *)
Definition passesFilter (subs : list jsstr) (m : EmailMsg) : Prop :=
  (exists b, In b subs /\ occursIn (toLowerCase b) (loweredText m)) /\
  (exists k, In k subscriptionKeywords /\ occursIn k (loweredText m)) /\
  (exists t, currencyLikeToken t /\ occursIn t (loweredText m)).

Definition headersOf (m : EmailMsg) : list Header :=
  match payload m with
  | Some pl => match headers pl with Some hs => hs | None => [] end
  | None => []
  end.

(** Structural well-formedness: every header carries a name. *)
Definition headersNamed (m : EmailMsg) : Prop :=
  Forall (fun h => h_name h <> None) (headersOf m).

Definition isFromHeader (h : Header) : Prop :=
  exists n, h_name h = Some n /\ toLowerCase n = js "from".

(** [t] is the lower-cased value of the first header named [from]; the
    empty string when there is no such header or it has no value. *)
Definition senderText (m : EmailMsg) (t : jsstr) : Prop :=
  (exists l1 h l2,
      headersOf m = l1 ++ h :: l2 /\ isFromHeader h /\
      (forall x, In x l1 -> ~ isFromHeader x) /\
      t = match h_value h with Some v => toLowerCase v | None => [] end)
  \/ ((forall x, In x (headersOf m) -> ~ isFromHeader x) /\ t = []).

(** [p] is the first member of the provider enumeration, in enumeration
    order, that occurs in [t]. *)
Definition firstProviderIn (t p : jsstr) : Prop :=
  exists l1 l2,
    knownProviders = l1 ++ p :: l2 /\ occursIn p t /\
    forall q, In q l1 -> ~ occursIn q t.

Definition noProviderIn (t : jsstr) : Prop :=
  forall q, In q knownProviders -> ~ occursIn q t.

(** The candidates of a list that are the first with their key, in the
    order of the list. *)
Fixpoint firstSeen (seen : list jsstr) (rs : list ParsedSub) : list ParsedSub :=
  match rs with
  | [] => []
  | r :: rs' =>
      if existsb (fun k => str_eqb k (subKey r)) seen
      then firstSeen seen rs'
      else r :: firstSeen (seen ++ [subKey r]) rs'
  end.

End Wording.

(** The provenance a record pushed for [m] carries. *)
Definition evidenceOf (m : EmailMsg) : RawData := mkRawData (id m) (snippet m).

(** The text a record was extracted from. *)
Definition textOf (c : ParsedSub) : jsstr := strOr (rawSnippet (rawData c)) [].

(** [w] is the text of the first occurrence of [re] in [s]. *)
Definition firstMatch (re : RegExp) (s w : jsstr) : Prop :=
  exists m, smatch s re = Some m /\ m_text m = w.

(** The date substring of a text: the first ISO-like one, and the first
    long-form one when there is no ISO-like one. *)
Definition dateSubstring (s w : jsstr) : Prop :=
  firstMatch isoRegex s w \/
  (~ matchesSomewhere isoRegex s /\ firstMatch longDateRegex s w).

(** The local zone has, [n] days after the time value [t] at the same
    local time of day, the offset from UTC it has at [t]: no change of
    daylight saving lies between the two that is not undone. *)
Definition offsetKept `{Host} (t n : Z) : Prop :=
  localTZA (localTime t + n * msPerDay)%Z false = localTZA t true.

(** [c] is the first record of [results] with its key. *)
Definition isFirstWithKey (results : list ParsedSub) (c : ParsedSub) : Prop :=
  exists l1 l2, results = l1 ++ c :: l2 /\ forall x, In x l1 -> subKey x <> subKey c.

(** ** The scenarios of the specification *)

Definition renewalText : jsstr :=
  js "Your Netflix subscription of $15.99 renewed on 2024-03-05".

Definition renewalMsgWith (i : jsstr) (pl : option Payload) : EmailMsg :=
  mkEmailMsg i (Some renewalText) pl.
Definition renewalMsg (i : jsstr) : EmailMsg := renewalMsgWith i None.

(** The record Scenario A expects of it; the plan label is the word that
    follows "subscription" in the text. *)
Definition renewalRecord (i : jsstr) : ParsedSub :=
  mkParsedSub (js "netflix") (Some (js "of"))
              (Some (Num (1599 # 100))) (Some (js "USD"))
              (Some (utcDate 2024 3 5)) (Some (utcDate 2024 4 4))
              (mkRawData i (Some renewalText)).

(** The record of the renewal message with the next billing date [next]. *)
Definition renewalRecordWith (i : jsstr) (next : JSDate) : ParsedSub :=
  mkParsedSub (js "netflix") (Some (js "of"))
              (Some (Num (1599 # 100))) (Some (js "USD"))
              (Some (utcDate 2024 3 5)) (Some next)
              (mkRawData i (Some renewalText)).

(** A valid long-form date in front of an ISO-like token that is no date. *)
Definition hiddenDateText : jsstr :=
  js "Netflix plan Basic billed $5 on Jan 5, 2024, reference 2025-66-07".

Definition hiddenDateMsg : EmailMsg := mkEmailMsg (js "m-hidden") (Some hiddenDateText) None.

(** The same message with the date written year-day-month: no calendar
    has a month 31. *)
Definition badDateText : jsstr :=
  js "Your Netflix subscription of $15.99 renewed on 2024-31-12".

Definition badDateMsg (i : jsstr) : EmailMsg := mkEmailMsg i (Some badDateText) None.

(** Scenario B: a brand and a keyword, but no currency-like token. *)
Definition noticeMsg : EmailMsg :=
  mkEmailMsg (js "m-notice") (Some (js "Your Netflix subscription was updated")) None.

(** A charge without any number in the text. *)
Definition vagueMsg : EmailMsg :=
  mkEmailMsg (js "m-vague") (Some (js "Netflix membership billed in $")) None.

(** A message whose sender header names one provider and whose text names
    another. *)
Definition forwardedMsg : EmailMsg :=
  mkEmailMsg (js "m-fwd")
    (Some (js "Fwd: your Netflix plan Basic was charged 9,99 EUR on 2024-01-05"))
    (Some (mkPayload (Some [mkHeader (Some (js "Subject")) (Some (js "Fwd: receipt"));
                            mkHeader (Some (js "FROM")) (Some (js "Spotify <no-reply@spotify.com>"));
                            mkHeader (Some (js "From")) None]))).

Definition forwardedRecord : ParsedSub :=
  mkParsedSub (js "spotify") (Some (js "Basic was charged 9"))
              (Some (Num (999 # 100))) (Some (js "USD"))
              (Some (utcDate 2024 1 5)) (Some (utcDate 2024 2 4))
              (mkRawData (js "m-fwd") (snippet forwardedMsg)).

Definition vagueRecord : ParsedSub :=
  mkParsedSub (js "netflix") (Some (js "billed in")) None None None None
              (mkRawData (js "m-vague") (snippet vagueMsg)).

(** Scenario D: the date in its long form, the charge in euros. *)
Definition longFormText : jsstr :=
  js "Spotify Premium receipt: you were charged " ++ [c_euro]
  ++ js "9,99 on January 5, 2024".

Definition longFormMsg : EmailMsg := mkEmailMsg (js "m-long") (Some longFormText) None.

Definition longFormRecord : ParsedSub :=
  mkParsedSub (js "spotify") (Some (js "receipt"))
              (Some (Num (999 # 100))) (Some (js "EUR"))
              (Some (utcDate 2024 1 5)) (Some (utcDate 2024 2 4))
              (mkRawData (js "m-long") (Some longFormText)).

Definition demoSubs : list jsstr := [js "Netflix"; js "Spotify"].

Definition demoBatch : list EmailMsg :=
  [renewalMsg (js "m-1"); noticeMsg; forwardedMsg; renewalMsg (js "m-2"); vagueMsg].

Definition demoOutput : list ParsedSub :=
  [renewalRecord (js "m-1"); forwardedRecord; vagueRecord].

(** [l] is [l'] with some elements left out, order kept. *)
Inductive Subseq {A : Type} : list A -> list A -> Prop :=
| Subseq_nil : Subseq [] []
| Subseq_skip x l l' : Subseq l l' -> Subseq l (x :: l')
| Subseq_keep x l l' : Subseq l l' -> Subseq (x :: l) (x :: l').

(** ** A reference engine

    An engine to run the examples on: ASCII case mapping, the date-only
    form of the date-time format and, read in a local zone that is UTC,
    the long form [Mon D, YYYY] the engines accept besides. *)

Definition monthNames : list jsstr :=
  map js ["jan"; "feb"; "mar"; "apr"; "may"; "jun";
          "jul"; "aug"; "sep"; "oct"; "nov"; "dec"]%string.

Fixpoint monthIndex (k : jsstr) (names : list jsstr) (i : Z) : option Z :=
  match names with
  | [] => None
  | n :: names' => if str_eqb k n then Some i else monthIndex k names' (i + 1)%Z
  end.

(** The fields of [Mon D, YYYY]; a month name counts by its first three
    letters. *)
Definition longDateFields (s : jsstr) : option (Z * Z * Z) :=
  let name := takeWhile isLetter s in
  let r1 := dropWhile isWhiteSpace (dropWhile isLetter s) in
  let dd := takeWhile isDigit r1 in
  match dropWhile isDigit r1 with
  | c :: r2 =>
      let r3 := dropWhile isWhiteSpace r2 in
      let yy := takeWhile isDigit r3 in
      match monthIndex (map asciiLower (firstn 3 name)) monthNames 1, dd, yy,
            dropWhile isDigit r3 with
      | Some mo, _ :: _, _ :: _, [] =>
          if (c =? 44)%N then Some (digitsValue 0 yy, mo, digitsValue 0 dd) else None
      | _, _, _, _ => None
      end
  | [] => None
  end.

Definition civilDate (f : Z * Z * Z) : JSDate :=
  let '(y, m, d) := f in
  if ((1 <=? m) && (m <=? 12) && (1 <=? d) && (d <=? daysInMonth y m))%Z
  then utcDate y m d else InvalidDate.

Definition refNewDate (s : jsstr) : JSDate :=
  match isoDateOnly s with
  | Some f => civilDate f
  | None =>
      match longDateFields s with
      | Some f => civilDate f
      | None => InvalidDate
      end
  end.

(** * Properties *)

(** ** Strings *)

Lemma str_eqb_eq (a b : jsstr) : str_eqb a b = true <-> a = b.
Proof.
  revert b; induction a as [|x a IH]; intros [|y b]; simpl; split; intro E;
    try reflexivity; try discriminate.
  - apply andb_true_iff in E as [E1 E2].
    apply N.eqb_eq in E1. apply IH in E2. congruence.
  - injection E as -> ->. rewrite N.eqb_refl. now apply IH.
Qed.

Lemma str_eqb_refl (a : jsstr) : str_eqb a a = true.
Proof. now apply str_eqb_eq. Qed.

Lemma startsWith_spec (p s : jsstr) :
  startsWith p s = true <-> exists suf, s = p ++ suf.
Proof.
  revert s; induction p as [|x p IH]; intros s; simpl.
  - split; [intros _; now exists s | reflexivity].
  - destruct s as [|y s].
    + split; [discriminate | intros [suf E]; discriminate].
    + rewrite andb_true_iff, N.eqb_eq, IH. split.
      * intros [-> [suf ->]]. now exists suf.
      * intros [suf E]. injection E as -> ->. split; [reflexivity | now exists suf].
Qed.

Lemma includes_spec (s p : jsstr) : includes s p = true <-> occursIn p s.
Proof.
  unfold occursIn. induction s as [|c s IH]; simpl.
  - rewrite orb_false_r, startsWith_spec. split.
    + intros [suf E]. now exists [], suf.
    + intros [pre [suf E]]. destruct pre; [now exists suf | discriminate].
  - rewrite orb_true_iff, startsWith_spec, IH. split.
    + intros [[suf E] | [pre [suf E]]].
      * now exists [], suf.
      * exists (c :: pre), suf. simpl. now rewrite E.
    + intros [[|x pre] [suf E]].
      * left. now exists suf.
      * right. injection E as -> ->. now exists pre, suf.
Qed.

Lemma includes_false (s p : jsstr) : includes s p = false <-> ~ occursIn p s.
Proof.
  rewrite <- includes_spec. destruct (includes s p); split; intro; congruence.
Qed.

Lemma existsb_includes (l : list jsstr) (s : jsstr) :
  existsb (fun p => includes s p) l = true <-> exists p, In p l /\ occursIn p s.
Proof.
  rewrite existsb_exists. split; intros [p [Hin Hp]]; exists p; split; auto;
    now apply includes_spec.
Qed.

(** ** The matcher against the declarative reading *)

Lemma lastOr_app (pv : option jschar) (w1 w2 : jsstr) :
  lastOr pv (w1 ++ w2) = lastOr (lastOr pv w1) w2.
Proof. revert pv; induction w1 as [|c w1 IH]; intros pv; simpl; auto. Qed.

Lemma consumed_app (w rs : jsstr) : consumed (w ++ rs) rs = w.
Proof.
  unfold consumed. rewrite length_app.
  replace (List.length w + List.length rs - List.length rs) with (List.length w + 0) by lia.
  rewrite firstn_app_2. simpl. apply app_nil_r.
Qed.

Section MatcherFacts.

Variable ic : bool.

Lemma repClass_sound p s : forall lo hi pv cs k res,
  repClass ic p lo hi pv s cs k = Some res ->
  exists w rs,
    s = w ++ rs /\ forallb (cmatch ic p) w = true /\ lo <= List.length w /\
    (forall h, hi = Some h -> List.length w <= h) /\
    k (MState (lastOr pv w) rs cs) = Some res.
Proof.
  induction s as [|c s IH]; intros lo hi pv cs k res E.
  - simpl in E. destruct lo; [|discriminate].
    exists [], []. repeat split; auto. intros; simpl; lia.
  - assert (Stop : match lo with O => k (MState pv (c :: s) cs) | S _ => None end = Some res ->
                   exists w rs,
                     c :: s = w ++ rs /\ forallb (cmatch ic p) w = true /\
                     lo <= List.length w /\
                     (forall h, hi = Some h -> List.length w <= h) /\
                     k (MState (lastOr pv w) rs cs) = Some res).
    { intros E'. destruct lo; [|discriminate].
      exists [], (c :: s). repeat split; auto. intros; simpl; lia. }
    simpl in E.
    destruct (cmatch ic p c) eqn:Hc; simpl in E; [|auto].
    destruct hi as [[|h]|]; simpl in E; auto.
    + destruct (repClass ic p (Nat.pred lo) (Some h) (Some c) s cs k) eqn:R; [|auto].
      injection E as <-. apply IH in R as (w & rs & -> & Hw & Hlo & Hhi & Hk).
      exists (c :: w), rs. simpl. rewrite Hc, Hw. repeat split; auto; try lia.
      intros h' [= <-]. specialize (Hhi h eq_refl). lia.
    + destruct (repClass ic p (Nat.pred lo) None (Some c) s cs k) eqn:R; [|auto].
      injection E as <-. apply IH in R as (w & rs & -> & Hw & Hlo & Hhi & Hk).
      exists (c :: w), rs. simpl. rewrite Hc, Hw. repeat split; auto; try lia.
      intros h' [=].
Qed.

Lemma repClass_complete p w : forall lo hi pv rs cs k,
  forallb (cmatch ic p) w = true -> lo <= List.length w ->
  (forall h, hi = Some h -> List.length w <= h) ->
  k (MState (lastOr pv w) rs cs) <> None ->
  repClass ic p lo hi pv (w ++ rs) cs k <> None.
Proof.
  induction w as [|c w IH]; intros lo hi pv rs cs k Hw Hlo Hhi Hk.
  - simpl in *. assert (lo = 0) by lia. subst lo.
    destruct rs as [|c rs]; simpl; auto.
    destruct (cmatch ic p c && _); auto.
    destruct (repClass ic p _ _ _ _ _ _); auto. discriminate.
  - simpl in Hw. apply andb_true_iff in Hw as [Hc Hw].
    simpl. rewrite Hc. simpl.
    assert (Hn : match hi with Some 0 => true | _ => false end = false).
    { destruct hi as [[|h]|]; auto. specialize (Hhi 0 eq_refl). simpl in Hhi. lia. }
    rewrite Hn. simpl.
    assert (R : repClass ic p (Nat.pred lo) (option_map Nat.pred hi) (Some c) (w ++ rs) cs k <> None).
    { apply IH; auto.
      - simpl in Hlo. lia.
      - intros h E. destruct hi as [h0|]; [|discriminate]. simpl in E.
        injection E as <-. specialize (Hhi h0 eq_refl). simpl in Hhi. lia. }
    destruct (repClass ic p (Nat.pred lo) (option_map Nat.pred hi) (Some c) (w ++ rs) cs k);
      [discriminate | contradiction].
Qed.

Lemma search_unfold r pv s i :
  search ic r pv s i =
  match rmatch ic r (MState pv s []) Some with
  | Some st => Some (MatchResult i (consumed s (rest st)) (caps st))
  | None => match s with
            | [] => None
            | c :: s' => search ic r (Some c) s' (S i)
            end
  end.
Proof. destruct s; reflexivity. Qed.

Section Captures.

(** A property of the captured texts, one per group. *)
Variable P : nat -> jsstr -> Prop.

(** A match the matcher finds is a match of the declarative reading; it
    has set every group the pattern binds, and a group holds a word its
    body matches. *)
Lemma rmatch_sound_caps r :
  groupsSat ic P r ->
  forall st k res,
    rmatch ic r st k = Some res -> capsSat P (caps st) ->
    exists w rs cs,
      rest st = w ++ rs /\ Matches ic r (prev st) w rs /\
      (forall n, binds n r = true \/ lookupCap n (caps st) <> None ->
                 lookupCap n cs <> None) /\
      capsSat P cs /\
      k (MState (lastOr (prev st) w) rs cs) = Some res.
Proof.
  induction r as [|p|a IHa b IHb|a IHa b IHb|a IHa|p lo hi|i a IHa|];
    intros G st k res E S; simpl in E, G.
  - exists [], (rest st), (caps st). destruct st; simpl in *.
    repeat split; auto using Matches. intros n [F|F]; [discriminate | exact F].
  - destruct st as [pv s cs]; simpl in *. destruct s as [|c s]; [discriminate|].
    destruct (cmatch ic p c) eqn:Hc; [|discriminate].
    exists [c], s, cs. repeat split; auto using Matches.
    intros n [F|F]; [discriminate | exact F].
  - destruct G as [Ga Gb].
    apply (IHa Ga) in E as (w1 & rs1 & cs1 & E1 & M1 & C1 & S1 & E); [|exact S].
    apply (IHb Gb) in E as (w2 & rs2 & cs2 & E2 & M2 & C2 & S2 & E); [|exact S1].
    simpl in *.
    exists (w1 ++ w2), rs2, cs2. subst rs1. rewrite E1, <- app_assoc, lastOr_app.
    repeat split; auto using Matches.
    intros n [F|F]; apply C2.
    + apply orb_true_iff in F as [F|F]; auto.
    + auto.
  - destruct G as [Ga Gb]. destruct (rmatch ic a st k) eqn:Ra.
    + injection E as <-.
      apply (IHa Ga) in Ra as (w & rs & cs & E1 & M1 & C1 & S1 & E); [|exact S].
      exists w, rs, cs. repeat split; auto using Matches.
      intros n [F|F]; apply C1; auto. apply andb_true_iff in F as [F _]; auto.
    + apply (IHb Gb) in E as (w & rs & cs & E1 & M1 & C1 & S1 & E); [|exact S].
      exists w, rs, cs. repeat split; auto using Matches.
      intros n [F|F]; apply C1; auto. apply andb_true_iff in F as [_ F]; auto.
  - destruct (rmatch ic a st k) eqn:Ra.
    + injection E as <-.
      apply (IHa G) in Ra as (w & rs & cs & E1 & M1 & C1 & S1 & E); [|exact S].
      exists w, rs, cs. repeat split; auto using Matches.
      intros n [F|F]; [discriminate | apply C1; auto].
    + exists [], (rest st), (caps st). destruct st; simpl in *.
      repeat split; auto using Matches. intros n [F|F]; [discriminate | exact F].
  - apply repClass_sound in E as (w & rs & E1 & Hw & Hlo & Hhi & E).
    exists w, rs, (caps st). repeat split; auto using Matches.
    intros n [F|F]; [discriminate | exact F].
  - destruct G as [Gi Ga].
    apply (IHa Ga) in E as (w & rs & cs & E1 & M1 & C1 & S1 & E); [|exact S].
    exists w, rs, ((i, consumed (rest st) rs) :: cs). repeat split; auto using Matches.
    + intros n [F|F]; simpl.
      * apply orb_true_iff in F as [F|F].
        -- rewrite F. discriminate.
        -- destruct (Nat.eqb i n); [discriminate | apply C1; auto].
      * destruct (Nat.eqb i n); [discriminate | apply C1; auto].
    + constructor; [|exact S1]. simpl. rewrite E1, consumed_app. eapply Gi. exact M1.
  - destruct (atWordBoundary st) eqn:B; [|discriminate].
    exists [], (rest st), (caps st). destruct st; simpl in *.
    repeat split; auto using Matches. intros n [F|F]; [discriminate | exact F].
Qed.

End Captures.

Lemma groupsSat_True r : groupsSat ic (fun _ _ => True) r.
Proof. induction r; simpl; auto. Qed.

Lemma capsSat_True cs : capsSat (fun _ _ => True) cs.
Proof. apply Forall_forall. intros; exact I. Qed.

Lemma rmatch_sound r : forall st k res,
  rmatch ic r st k = Some res ->
  exists w rs cs,
    rest st = w ++ rs /\ Matches ic r (prev st) w rs /\
    (forall n, binds n r = true \/ lookupCap n (caps st) <> None ->
               lookupCap n cs <> None) /\
    k (MState (lastOr (prev st) w) rs cs) = Some res.
Proof.
  intros st k res E.
  eapply rmatch_sound_caps with (P := fun _ _ => True)
    in E as (w & rs & cs & E1 & M & C & _ & K);
    [now exists w, rs, cs | apply groupsSat_True | apply capsSat_True].
Qed.

(** The captures [search] reports hold words their groups match. *)
Lemma search_caps (P : nat -> jsstr -> Prop) r s :
  groupsSat ic P r ->
  forall pv i m, search ic r pv s i = Some m -> capsSat P (m_caps m).
Proof.
  intros G. induction s as [|c s IH]; intros pv i m E; rewrite search_unfold in E.
  - destruct (rmatch ic r _ Some) as [st|] eqn:R; [|discriminate].
    injection E as <-. simpl.
    eapply rmatch_sound_caps in R as (w & rs & cs & _ & _ & _ & S & K);
      [injection K as <-; exact S | exact G | constructor].
  - destruct (rmatch ic r _ Some) as [st|] eqn:R.
    + injection E as <-. simpl.
      eapply rmatch_sound_caps in R as (w & rs & cs & _ & _ & _ & S & K);
        [injection K as <-; exact S | exact G | constructor].
    + now apply IH in E.
Qed.

(** Whatever the declarative reading allows, the matcher does not miss,
    provided the continuation accepts the position reached. *)
Lemma rmatch_complete r pv w rs :
  Matches ic r pv w rs ->
  forall cs k,
    (forall cs', k (MState (lastOr pv w) rs cs') <> None) ->
    rmatch ic r (MState pv (w ++ rs) cs) k <> None.
Proof.
  induction 1 as [pv rs|p c pv rs Hc|a b pv w1 w2 rs M1 IH1 M2 IH2
                  |a b pv w rs M IH|a b pv w rs M IH|a pv w rs M IH|a pv rs
                  |p lo hi pv w rs Hw Hlo Hhi|n a pv w rs M IH|pv rs B];
    intros cs k Hk; simpl.
  - apply Hk.
  - rewrite Hc. apply Hk.
  - rewrite <- app_assoc. apply IH1. intros cs'. apply IH2.
    intros cs''. rewrite <- lastOr_app. apply Hk.
  - specialize (IH cs k Hk). destruct (rmatch ic a _ k); [discriminate | contradiction].
  - destruct (rmatch ic a _ k); [discriminate | now apply IH].
  - specialize (IH cs k Hk). destruct (rmatch ic a _ k); [discriminate | contradiction].
  - destruct (rmatch ic a _ k); [discriminate | apply Hk].
  - apply repClass_complete; auto.
  - apply IH. intros cs'. unfold setCap. simpl. apply Hk.
  - unfold atWordBoundary. simpl. rewrite B. apply Hk.
Qed.

(** [search] finds a match exactly when there is one, finds the leftmost,
    and reports the matched text. *)
Lemma search_sound r s : forall pv i m,
  search ic r pv s i = Some m ->
  exists pre w rs,
    s = pre ++ w ++ rs /\ Matches ic r (lastOr pv pre) w rs /\
    m_text m = w /\ m_index m = i + List.length pre /\
    (forall n, binds n r = true -> lookupCap n (m_caps m) <> None) /\
    (forall pre' s', s = pre' ++ s' -> List.length pre' < List.length pre ->
                     forall w' rs', s' = w' ++ rs' ->
                                    ~ Matches ic r (lastOr pv pre') w' rs').
Proof.
  induction s as [|c s IH]; intros pv i m E; simpl in E.
  - destruct (rmatch ic r (MState pv [] []) Some) as [st|] eqn:R; [|discriminate].
    injection E as <-. apply rmatch_sound in R as (w & rs & cs & E1 & M1 & C1 & E).
    injection E as <-. simpl in *.
    exists [], w, rs. simpl. rewrite E1, consumed_app.
    repeat split; auto. intros; simpl in *; lia.
  - destruct (rmatch ic r (MState pv (c :: s) []) Some) as [st|] eqn:R.
    + injection E as <-. apply rmatch_sound in R as (w & rs & cs & E1 & M1 & C1 & E).
      injection E as <-. simpl in *.
      exists [], w, rs. simpl. rewrite E1, consumed_app.
      repeat split; auto. intros; simpl in *; lia.
    + apply IH in E as (pre & w & rs & -> & M1 & T & I & C & L).
      exists (c :: pre), w, rs. simpl. repeat split; auto; try lia.
      intros pre' s' E' Hlen w' rs' -> M'.
      destruct pre' as [|c' pre'].
      * simpl in *. rewrite E' in R.
        apply (rmatch_complete M' [] Some); [discriminate | exact R].
      * simpl in *. injection E' as <- E'.
        apply (L pre' (w' ++ rs') E' ltac:(lia) w' rs' eq_refl M').
Qed.

Lemma search_complete r pre w rs : forall pv i,
  Matches ic r (lastOr pv pre) w rs ->
  search ic r pv (pre ++ w ++ rs) i <> None.
Proof.
  induction pre as [|c pre IH]; intros pv i M; simpl in *.
  - assert (R : rmatch ic r (MState pv (w ++ rs) []) Some <> None)
      by (apply rmatch_complete; [exact M | discriminate]).
    rewrite search_unfold.
    destruct (rmatch ic r _ Some); [discriminate | contradiction].
  - destruct (rmatch ic r _ Some); [discriminate | now apply IH].
Qed.

End MatcherFacts.

Lemma smatch_matches (s : jsstr) (re : RegExp) :
  smatch s re <> None <-> matchesSomewhere re s.
Proof.
  unfold smatch, matchesSomewhere. split.
  - destruct (search _ _ None s 0) as [m|] eqn:E; [|congruence]. intros _.
    apply search_sound in E as (pre & w & rs & E & M & _). now exists pre, w, rs.
  - intros (pre & w & rs & -> & M). now apply search_complete.
Qed.

(** The match [match] reports is the leftmost one: the pattern matches
    at no earlier start position. *)
Lemma firstMatch_leftmost (re : RegExp) (s w : jsstr) :
  firstMatch re s w ->
  exists pre rs,
    s = pre ++ w ++ rs /\
    Matches (re_ignoreCase re) (re_pattern re) (lastOr None pre) w rs /\
    forall pre' s', s = pre' ++ s' -> List.length pre' < List.length pre ->
      forall w' rs', s' = w' ++ rs' ->
        ~ Matches (re_ignoreCase re) (re_pattern re) (lastOr None pre') w' rs'.
Proof.
  intros (m & E & <-). unfold smatch in E.
  apply search_sound in E as (pre & w & rs & -> & M & <- & _ & _ & L).
  now exists pre, rs.
Qed.

(** Every group the pattern binds is defined in the result of [match]. *)
Lemma smatch_binds (s : jsstr) (re : RegExp) (m : rmatchResult) (n : nat) :
  smatch s re = Some m -> binds n (re_pattern re) = true ->
  exists w, capture n m = Ok w.
Proof.
  unfold smatch, capture, group. intros E B.
  apply search_sound in E as (pre & w & rs & _ & _ & _ & _ & C & _).
  specialize (C n B). destruct (lookupCap n (m_caps m)) as [g|]; [now exists g | contradiction].
Qed.

(** ** Character classes under the [i] flag *)

Ltac cmp1 :=
  match goal with
  | |- context [(?a <=? ?b)%N] => destruct (N.leb_spec a b); try (exfalso; lia)
  | |- context [(?a <? ?b)%N] => destruct (N.ltb_spec a b); try (exfalso; lia)
  | |- context [(?a =? ?b)%N] => destruct (N.eqb_spec a b); try (exfalso; lia)
  | H : context [(?a <=? ?b)%N] |- _ => destruct (N.leb_spec a b); try (exfalso; lia)
  | H : context [(?a <? ?b)%N] |- _ => destruct (N.ltb_spec a b); try (exfalso; lia)
  | H : context [(?a =? ?b)%N] |- _ => destruct (N.eqb_spec a b); try (exfalso; lia)
  end.
Ltac cmps := repeat (cmp1; simpl in * ); simpl in *; try reflexivity; try discriminate; try lia.

Lemma asciiUpper_cases (c : jschar) :
  asciiUpper c = c \/ (isLetter c = true /\ isLetter (asciiUpper c) = true).
Proof.
  unfold asciiUpper, isLetter, isUpperAscii, isLowerAscii.
  destruct ((97 <=? c)%N && (c <=? 122)%N) eqn:E; [right | now left].
  split; cmps.
Qed.

Lemma asciiLower_cases (c : jschar) :
  asciiLower c = c \/ (isLetter c = true /\ isLetter (asciiLower c) = true).
Proof.
  unfold asciiLower, isLetter, isUpperAscii, isLowerAscii.
  destruct ((65 <=? c)%N && (c <=? 90)%N) eqn:E; [right | now left].
  split; cmps.
Qed.

(** A class without letters is not affected by the flag. *)
Lemma cmatch_no_letters (ic : bool) (p : cclass) (c : jschar) :
  (forall x, isLetter x = true -> cmem p x = false) ->
  cmatch ic p c = cmem p c.
Proof.
  intros NL. unfold cmatch. destruct ic; simpl; [|apply orb_false_r].
  destruct (asciiUpper_cases c) as [-> | [L1 L2]], (asciiLower_cases c) as [-> | [L3 L4]];
    try rewrite (NL _ L2); try rewrite (NL _ L4); try rewrite (NL _ L1); try rewrite (NL _ L3);
    destruct (cmem p c); reflexivity.
Qed.

Lemma cmatch_digit (ic : bool) (c : jschar) : cmatch ic CDigit c = isDigit c.
Proof.
  apply cmatch_no_letters. intros x. simpl.
  unfold isLetter, isUpperAscii, isLowerAscii, isDigit. intros L. cmps.
Qed.

Lemma cmatch_digits09 (ic : bool) (c : jschar) : cmatch ic digits09 c = isDigit c.
Proof.
  apply cmatch_no_letters. intros x. simpl.
  unfold isLetter, isUpperAscii, isLowerAscii, isDigit. intros L.
  change (ch "0") with 48%N. change (ch "9") with 57%N. cmps.
Qed.

Lemma cmatch_space (ic : bool) (c : jschar) : cmatch ic CSpace c = isWhiteSpace c.
Proof.
  apply cmatch_no_letters. intros x. simpl.
  unfold isLetter, isUpperAscii, isLowerAscii, isWhiteSpace. intros L. cmps.
Qed.

(** A literal code unit that is not a letter matches itself only. *)
Lemma cmatch_symbol (ic : bool) (a c : jschar) :
  isLetter a = false -> cmatch ic (CUnit a) c = true -> c = a.
Proof.
  intros NL E. rewrite cmatch_no_letters in E.
  - simpl in E. now apply N.eqb_eq in E.
  - intros x L. simpl. destruct (N.eqb_spec x a); [congruence | reflexivity].
Qed.

(** A literal letter matches the two cases of it. *)
Lemma cmatch_unit_fold (ic : bool) (a c : jschar) :
  cmatch ic (CUnit a) c = true -> asciiLower c = asciiLower a.
Proof.
  unfold cmatch. simpl. rewrite !orb_true_iff, andb_true_iff, orb_true_iff, !N.eqb_eq.
  intros [-> | [_ [E | E]]]; auto; subst a.
  - unfold asciiLower, asciiUpper, isLowerAscii, isUpperAscii.
    destruct ((97 <=? c)%N && (c <=? 122)%N) eqn:E1;
      destruct ((65 <=? c)%N && (c <=? 90)%N) eqn:E2; cmps.
  - unfold asciiLower, isUpperAscii.
    destruct ((65 <=? c)%N && (c <=? 90)%N) eqn:E2; cmps.
Qed.

Lemma cmatch_unit_lower (a c : jschar) :
  asciiLower c = a -> cmatch true (CUnit a) c = true.
Proof.
  intros <-. unfold cmatch. simpl. rewrite N.eqb_refl. now rewrite !orb_true_r.
Qed.

(** A literal under the [i] flag matches the words that agree with it up
    to ASCII case. *)
Lemma Matches_lit_fold (ic : bool) (s : jsstr) : forall pv w rs,
  Matches ic (litUnits s) pv w rs -> sameIgnoringCase w s.
Proof.
  unfold sameIgnoringCase.
  induction s as [|a s IH]; intros pv w rs M; simpl in M.
  - inversion M; subst. reflexivity.
  - inversion M as [| |? ? ? w1 w2 ? M1 M2| | | | | | |]; subst.
    inversion M1; subst. simpl.
    erewrite cmatch_unit_fold by eassumption. f_equal. eapply IH. eassumption.
Qed.

Lemma Matches_lit_lower (w : jsstr) : forall pv rs,
  Matches true (litUnits (map asciiLower w)) pv w rs.
Proof.
  induction w as [|c w IH]; intros pv rs; simpl.
  - constructor.
  - change (c :: w) with ([c] ++ w). constructor.
    + constructor. now apply cmatch_unit_lower.
    + apply IH.
Qed.

(** ** The currency test of the filter *)

Ltac inv H := inversion H; subst; clear H.

Lemma Matches_one (ic : bool) (a : jschar) pv w rs :
  isLetter a = false -> Matches ic (one a) pv w rs -> w = [a].
Proof.
  intros NL M. inv M. f_equal. eapply cmatch_symbol; eassumption.
Qed.

Lemma Matches_lit (ic : bool) (s : string) pv w rs :
  Matches ic (lit s) pv w rs -> sameIgnoringCase w (js s).
Proof. apply Matches_lit_fold. Qed.

Lemma Matches_lit_intro (s : string) pv w rs :
  map asciiLower w = js s -> Matches true (lit s) pv w rs.
Proof. unfold lit. intros <-. apply Matches_lit_lower. Qed.

Lemma sameIgnoringCase_symbol (w : jsstr) (a : jschar) :
  isLetter a = false -> sameIgnoringCase w [a] -> w = [a].
Proof.
  unfold sameIgnoringCase. intros NL E.
  destruct w as [|c [|c' w]]; try discriminate. simpl in E. injection E as E.
  f_equal. destruct (asciiLower_cases c) as [E1 | [_ L1]], (asciiLower_cases a) as [E2 | [L2 _]];
    congruence.
Qed.

Lemma occursIn_mid (pre t suf s : jsstr) : s = pre ++ t ++ suf -> occursIn t s.
Proof. intros ->. now exists pre, suf. Qed.

Ltac inv_alt := match goal with M : Matches _ (Alt _ _) _ _ _ |- _ => inv M end.
Ltac inv_seq := match goal with M : Matches _ (Seq _ _) _ _ _ |- _ => inv M end.
Ltac inv_group := match goal with M : Matches _ (Group _ _) _ _ _ |- _ => inv M end.
Ltac inv_opt := match goal with M : Matches _ (Opt _) _ _ _ |- _ => inv M end.
Ltac inv_rep := match goal with M : Matches _ (Rep _ _ _) _ _ _ |- _ => inv M end.
Ltac inv_chr := match goal with M : Matches _ (Chr _) _ _ _ |- _ => inv M end.
Ltac inv_wordb := match goal with M : Matches _ WordB _ _ _ |- _ => inv M end.

Lemma Matches_currencyCode pv w rs :
  Matches true (alts (lit "usd") [lit "ngn"; lit "eur"; lit "gbp"]) pv w rs ->
  exists code, In code currencyCodes /\ sameIgnoringCase w code.
Proof.
  cbn [alts]. intros M. repeat inv_alt;
    match goal with M : Matches _ (lit ?c) _ _ _ |- _ =>
      apply Matches_lit in M; exists (js c); split; [simpl; auto 6 | assumption] end.
Qed.

Lemma Matches_symbol_token (w rs : jsstr) (c : jschar) :
  In c currencySymbols -> w = [c] ->
  forall pre s, s = pre ++ w ++ rs -> exists t, currencyLikeToken t /\ occursIn t s.
Proof.
  intros Hin -> pre s ->. exists [c]. split; [|now exists pre, rs].
  left. now exists c.
Qed.

Lemma currencyRegex_token (s : jsstr) :
  matchesSomewhere currencyRegex s <->
  exists t, currencyLikeToken t /\ occursIn t s.
Proof.
  unfold matchesSomewhere, currencyRegex. cbn [re_pattern re_ignoreCase alts]. split.
  - intros (pre & w & rs & E & M). repeat inv_alt.
    + match goal with M : Matches _ (lit _) _ _ _ |- _ => apply Matches_lit in M;
        apply sameIgnoringCase_symbol in M; [|reflexivity] end.
      eapply Matches_symbol_token with (c := c_dollar); simpl; eauto.
    + match goal with M : Matches _ (one _) _ _ _ |- _ =>
        apply Matches_one in M; [|reflexivity] end.
      eapply Matches_symbol_token with (c := c_naira); simpl; eauto.
    + match goal with M : Matches _ (one _) _ _ _ |- _ =>
        apply Matches_one in M; [|reflexivity] end.
      eapply Matches_symbol_token with (c := c_euro); simpl; eauto.
    + match goal with M : Matches _ (one _) _ _ _ |- _ =>
        apply Matches_one in M; [|reflexivity] end.
      eapply Matches_symbol_token with (c := c_pound); simpl; eauto 6.
    + repeat inv_seq. inv_group. inv_rep.
      match goal with M : Matches _ (Alt _ _) _ ?c _ |- _ =>
        apply Matches_currencyCode in M as (code & Hin & Hsame); rename c into code' end.
      match goal with F : forallb _ ?d = true |- _ => rename d into ds; rename F into Hds end.
      match goal with M : Matches _ (Opt _) _ ?d _ |- _ => rename d into ws; rename M into Hws end.
      destruct (exists_last (l := ds)) as (ds' & d & ->).
      { intros ->. simpl in *. lia. }
      rewrite forallb_app in Hds. apply andb_true_iff in Hds as [_ Hd].
      simpl in Hd. rewrite cmatch_digit, andb_true_r in Hd.
      exists (d :: ws ++ code'). split.
      * right. exists d, ws, code, code'. repeat split; auto.
        inv Hws; [right | now left].
        inv_chr. match goal with F : cmatch _ CSpace _ = true |- _ =>
                   rewrite cmatch_space in F end. eauto.
      * apply occursIn_mid with (pre := pre ++ ds') (suf := rs).
        rewrite <- !app_assoc. simpl. now rewrite <- !app_assoc.
  - intros (t & [(c & Hc & ->) | (d & ws & code & code' & Hd & Hws & Hcode & Hsame & ->)]
              & pre & rs & ->).
    + exists pre, [c], rs. split; [reflexivity|].
      simpl in Hc. destruct Hc as [<- | [<- | [<- | [<- | []]]]].
      * apply M_AltL. now apply Matches_lit_intro.
      * do 2 apply M_AltR. apply M_AltL. constructor. reflexivity.
      * do 3 apply M_AltR. apply M_AltL. constructor. reflexivity.
      * apply M_AltR. apply M_AltL. constructor. reflexivity.
    + exists pre, (d :: ws ++ code'), rs. split; [reflexivity|].
      do 4 apply M_AltR.
      change (d :: ws ++ code') with ([d] ++ ws ++ code').
      constructor; [|constructor].
      * constructor; simpl; try lia.
        -- now rewrite cmatch_digit, Hd.
        -- intros h [= <-]. lia.
      * destruct Hws as [-> | (c & -> & Hc)]; [apply M_OptNone | apply M_OptSome].
        constructor. now rewrite cmatch_space.
      * constructor. unfold sameIgnoringCase in Hsame.
        simpl in Hcode. destruct Hcode as [<- | [<- | [<- | [<- | []]]]].
        -- apply M_AltL. now apply Matches_lit_intro.
        -- apply M_AltR, M_AltL. now apply Matches_lit_intro.
        -- do 2 apply M_AltR. apply M_AltL. now apply Matches_lit_intro.
        -- do 3 apply M_AltR. now apply Matches_lit_intro.
Qed.

Lemma hasCurrencyToken_spec (sn : jsstr) :
  hasCurrencyToken sn = true <-> exists t, currencyLikeToken t /\ occursIn t sn.
Proof.
  rewrite <- currencyRegex_token, <- smatch_matches. unfold hasCurrencyToken.
  destruct (smatch sn currencyRegex); split; intro; congruence.
Qed.

(** ** The captured amount

    The capture group of the money pattern always holds an unsigned
    decimal literal, the shape [parseFloat] is modelled for, so that the
    amount of a record is never [NaN]. *)

Lemma forallb_digits09 (ic : bool) (w : jsstr) :
  forallb (cmatch ic digits09) w = forallb isDigit w.
Proof.
  induction w as [|c w IH]; simpl; [reflexivity|]. now rewrite cmatch_digits09, IH.
Qed.

Lemma moneyRegex_groups :
  groupsSat true (fun n g => n = 1 -> exists ip fp, isAmountText g ip fp)
            (re_pattern moneyRegex).
Proof.
  unfold moneyRegex. cbn [re_pattern]. simpl. repeat split; try exact I.
  intros pv w rs M _. inv_seq. inv_rep. inv_opt.
  - inv_seq. inv_chr. inv_rep.
    match goal with F : forallb _ ?d = true, G : forallb _ ?e = true,
                    L : 1 <= List.length ?d, L' : 1 <= List.length ?e,
                    U : forall h, Some 2 = Some h -> List.length ?e <= h,
                    C : cmatch _ (CUnion _ _) ?c = true |- _ =>
      exists d, e; repeat split end.
    + intros ->. simpl in *; lia.
    + rewrite <- (forallb_digits09 true). assumption.
    + rewrite <- (forallb_digits09 true). assumption.
    + right. exists c. split; [|split; [reflexivity|]].
      * match goal with C : cmatch _ _ c = true |- _ =>
          rewrite cmatch_no_letters in C;
            [simpl in C; apply orb_true_iff in C as [C|C]; apply N.eqb_eq in C; auto|] end.
        intros x L. simpl. unfold isLetter, isUpperAscii, isLowerAscii in L.
        change (ch ".") with 46%N. change (ch ",") with 44%N. cmps.
      * split; [assumption|]. match goal with U : forall h, _ -> _ <= h |- _ =>
          apply (U 2 eq_refl) end.
  - match goal with F : forallb _ ?d = true |- _ => exists d, []; repeat split end.
    + intros ->. simpl in *; lia.
    + rewrite <- (forallb_digits09 true). assumption.
    + left. split; [now rewrite app_nil_r | reflexivity].
Qed.

Lemma digit_not_space (c : jschar) : isDigit c = true -> isWhiteSpace c = false.
Proof. unfold isDigit, isWhiteSpace. intros D. cmps. Qed.

Lemma replaceFirstComma_digits (ip r : jsstr) :
  forallb isDigit ip = true -> replaceFirstComma (ip ++ r) = ip ++ replaceFirstComma r.
Proof.
  induction ip as [|c ip IH]; simpl; [reflexivity|].
  intros D. apply andb_true_iff in D as [Dc D]. rewrite IH by exact D.
  unfold isDigit in Dc. destruct (N.eqb_spec c 44); [subst; discriminate | reflexivity].
Qed.

Lemma takeWhile_digits (ip r : jsstr) :
  forallb isDigit ip = true -> takeWhile isDigit (ip ++ r) = ip ++ takeWhile isDigit r.
Proof.
  induction ip as [|c ip IH]; simpl; [reflexivity|].
  intros D. apply andb_true_iff in D as [-> D]. now rewrite IH.
Qed.

Lemma dropWhile_digits (ip r : jsstr) :
  forallb isDigit ip = true -> dropWhile isDigit (ip ++ r) = dropWhile isDigit r.
Proof.
  induction ip as [|c ip IH]; simpl; [reflexivity|].
  intros D. apply andb_true_iff in D as [-> D]. now rewrite IH.
Qed.

Lemma takeWhile_all_digits (w : jsstr) :
  forallb isDigit w = true -> takeWhile isDigit w = w /\ dropWhile isDigit w = [].
Proof.
  intros D. rewrite <- (app_nil_r w) at 1 3.
  rewrite takeWhile_digits, dropWhile_digits by exact D. simpl. now rewrite app_nil_r.
Qed.

Lemma parseFloat_amountText (g ip fp : jsstr) :
  isAmountText g ip fp -> parseFloat (replaceFirstComma g) = Some (decimalValue ip fp).
Proof.
  intros (Hne & Dip & Dfp & Shape). unfold parseFloat, decimalValue. cbv zeta.
  assert (Hws : forall r, dropWhile isWhiteSpace (ip ++ r) = ip ++ r).
  { intros r. destruct ip as [|c ip]; [contradiction|]. simpl in *.
    apply andb_true_iff in Dip as [Dc _]. now rewrite (digit_not_space _ Dc). }
  destruct (takeWhile_all_digits _ Dfp) as [Tfp _].
  destruct Shape as [[-> ->] | (sep & Hsep & -> & Hlen)].
  - destruct (takeWhile_all_digits _ Dip) as [Tip Rip].
    assert (R : replaceFirstComma ip = ip).
    { rewrite <- (app_nil_r ip) at 1. rewrite replaceFirstComma_digits by exact Dip.
      simpl. apply app_nil_r. }
    rewrite R. specialize (Hws []). rewrite app_nil_r in Hws. rewrite Hws, Tip, Rip.
    destruct ip; [contradiction|]. simpl. now rewrite app_nil_r.
  - rewrite replaceFirstComma_digits by exact Dip.
    assert (E : replaceFirstComma (sep :: fp) = 46%N :: fp).
    { destruct Hsep as [-> | ->]; [|reflexivity].
      change (replaceFirstComma (ch "." :: fp)) with (46%N :: replaceFirstComma fp).
      f_equal. rewrite <- (app_nil_r fp) at 1.
      rewrite replaceFirstComma_digits by exact Dfp. simpl. apply app_nil_r. }
    rewrite E, Hws, takeWhile_digits, dropWhile_digits by exact Dip.
    simpl. rewrite app_nil_r, Tfp. destruct ip; [contradiction | reflexivity].
Qed.

(** The amount [extractAmount] returns, when it returns one, is the
    decimal number written in the text. *)
Lemma extractAmount_number (s : jsstr) (amt : AmountInfo) :
  extractAmount s = Ok amt ->
  a_amount amt = None \/
  exists g ip fp, isAmountText g ip fp /\ a_amount amt = Some (Num (decimalValue ip fp)).
Proof.
  unfold extractAmount. destruct (smatch s moneyRegex) as [m|] eqn:E.
  - unfold capture, group. destruct (lookupCap 1 (m_caps m)) as [g|] eqn:L; [|discriminate].
    simpl. intros [= <-]. right. simpl.
    unfold smatch in E. eapply search_caps in E; [|exact moneyRegex_groups].
    assert (Hg : exists ip fp, isAmountText g ip fp).
    { clear - L E. induction (m_caps m) as [|[i w] cs IH]; [discriminate|].
      inversion E as [|? ? Hw Hcs]; subst. simpl in L.
      destruct (Nat.eqb_spec i 1) as [->|]; [|now apply IH].
      injection L as <-. now apply Hw. }
    destruct Hg as (ip & fp & Hg). exists g, ip, fp. split; [exact Hg|].
    now rewrite parseFloat_amountText with (ip := ip) (fp := fp).
  - intros [= <-]. now left.
Qed.

(** ** The reference engine satisfies the assumptions on the host *)

Lemma daysInMonth_le_31 (y m : Z) : (daysInMonth y m <= 31)%Z.
Proof.
  unfold daysInMonth.
  destruct (m =? 2)%Z; [destruct (isLeapYear y); lia|].
  destruct ((m =? 4) || (m =? 6) || (m =? 9) || (m =? 11))%Z; lia.
Qed.

Lemma refNewDate_legal (s : jsstr) (y m d : Z) :
  isoDateOnly s = Some (y, m, d) ->
  (1 <= m <= 12)%Z -> (1 <= d <= daysInMonth y m)%Z ->
  refNewDate s = utcDate y m d.
Proof.
  intros E Hm Hd. unfold refNewDate, civilDate. rewrite E.
  replace ((1 <=? m) && (m <=? 12) && (1 <=? d) && (d <=? daysInMonth y m))%Z with true;
    [reflexivity|].
  symmetry. rewrite !andb_true_iff, !Z.leb_le. lia.
Qed.

Lemma refNewDate_illegal (s : jsstr) (y m d : Z) :
  isoDateOnly s = Some (y, m, d) ->
  (m < 1 \/ 12 < m \/ d < 1 \/ 31 < d)%Z ->
  refNewDate s = InvalidDate.
Proof.
  intros E Hm. unfold refNewDate, civilDate. rewrite E.
  replace ((1 <=? m) && (m <=? 12) && (1 <=? d) && (d <=? daysInMonth y m))%Z with false;
    [reflexivity|].
  symmetry. rewrite !andb_false_iff, !Z.leb_gt.
  pose proof (daysInMonth_le_31 y m). lia.
Qed.

Definition refHost : Host :=
  Build_Host (map asciiLower) refNewDate (fun _ _ => 0%Z)
             (fun s _ => eq_refl) refNewDate_legal refNewDate_illegal.

(** ** An engine in a zone with daylight saving

    The reference engine moved to America/New_York as it was in 2024:
    five hours behind UTC, four from 10 March 07:00 UTC to 3 November
    06:00 UTC.  A local time that the change of 10 March skips, or that
    the change of 3 November repeats, is read with the offset before the
    change.  The long form of a date is read as local midnight. *)

Definition msPerHour : Z := 3600000%Z.

Definition easternTZA (t : Z) (isUTC : bool) : Z :=
  (if isUTC
   then if (msPerDay * daysFromCivil 2024 3 10 + 7 * msPerHour <=? t)
           && (t <? msPerDay * daysFromCivil 2024 11 3 + 6 * msPerHour)
        then -4 * msPerHour else -5 * msPerHour
   else if (msPerDay * daysFromCivil 2024 3 10 + 3 * msPerHour <=? t)
           && (t <? msPerDay * daysFromCivil 2024 11 3 + 2 * msPerHour)
        then -4 * msPerHour else -5 * msPerHour)%Z.

Definition easternNewDate (s : jsstr) : JSDate :=
  match isoDateOnly s with
  | Some _ => refNewDate s
  | None =>
      match refNewDate s with
      | TimeValue l => timeClip (l - easternTZA l false)
      | InvalidDate => InvalidDate
      end
  end.

Lemma easternNewDate_legal (s : jsstr) (y m d : Z) :
  isoDateOnly s = Some (y, m, d) ->
  (1 <= m <= 12)%Z -> (1 <= d <= daysInMonth y m)%Z ->
  easternNewDate s = utcDate y m d.
Proof.
  intros E Hm Hd. unfold easternNewDate. rewrite E. now apply refNewDate_legal.
Qed.

Lemma easternNewDate_illegal (s : jsstr) (y m d : Z) :
  isoDateOnly s = Some (y, m, d) ->
  (m < 1 \/ 12 < m \/ d < 1 \/ 31 < d)%Z ->
  easternNewDate s = InvalidDate.
Proof.
  intros E Hm. unfold easternNewDate. rewrite E. now apply (refNewDate_illegal s E).
Qed.

Definition easternHost : Host :=
  Build_Host (map asciiLower) easternNewDate easternTZA
             (fun s _ => eq_refl) easternNewDate_legal easternNewDate_illegal.

(** ** Moving a date by days *)

(** MakeDay counts on from the first of the month: a date number moved by
    [n] moves the day number by [n], beyond the end of the month too. *)
Lemma daysFromCivil_shift (y m d n : Z) :
  daysFromCivil y m (d + n) = (daysFromCivil y m d + n)%Z.
Proof. unfold daysFromCivil. lia. Qed.

Lemma makeDate_shift (lt n : Z) :
  makeDate (dayOf lt + n) (timeWithinDay lt) = (lt + n * msPerDay)%Z.
Proof.
  unfold makeDate, dayOf, timeWithinDay.
  pose proof (Z.div_mod lt msPerDay) as D. unfold msPerDay in *. lia.
Qed.

Section LocalDays.

Context `{Host}.

(** [addDays] keeps the local time of day and moves the local date. *)
Lemma addDays_local (t n : Z) :
  n <> 0%Z ->
  addDays (TimeValue t) n = timeClip (utcTime (localTime t + n * msPerDay)).
Proof.
  intros N. unfold addDays. destruct (Z.eqb_spec n 0) as [->|_]; [contradiction|].
  cbv zeta. now rewrite makeDate_shift.
Qed.

(** Where the zone keeps its offset, the days are days of 86400000 ms. *)
Lemma addDays_offsetKept (t n : Z) :
  offsetKept t n -> (Z.abs (t + n * msPerDay) <= maxTime)%Z ->
  addDays (TimeValue t) n = TimeValue (t + n * msPerDay).
Proof.
  intros K B. destruct (Z.eqb_spec n 0) as [->|N].
  - simpl. f_equal. lia.
  - rewrite (addDays_local t N). unfold utcTime. rewrite K. unfold localTime, timeClip.
    replace (t + localTZA t true + n * msPerDay - localTZA t true)%Z
      with (t + n * msPerDay)%Z by lia.
    apply Z.leb_le in B. now rewrite B.
Qed.

Lemma addDays_invalid (n : Z) : addDays InvalidDate n = InvalidDate.
Proof. reflexivity. Qed.

End LocalDays.

(** ** The helpers of the service *)

Lemma find_first {A} (f : A -> bool) (l : list A) (p : A) :
  find f l = Some p <->
  exists l1 l2, l = l1 ++ p :: l2 /\ f p = true /\ forall q, In q l1 -> f q = false.
Proof.
  induction l as [|x l IH]; simpl.
  - split; [discriminate | intros ([|? ?] & l2 & E & _); discriminate].
  - destruct (f x) eqn:Fx.
    + split.
      * intros [= <-]. exists [], l. repeat split; auto. intros q [].
      * intros ([|y l1] & l2 & E & Fp & Hq).
        -- now injection E as ->.
        -- injection E as <- _. rewrite (Hq x) in Fx; [discriminate | now left].
    + rewrite IH. split.
      * intros (l1 & l2 & -> & Fp & Hq). exists (x :: l1), l2. repeat split; auto.
        intros q [<- | Hin]; auto.
      * intros ([|y l1] & l2 & E & Fp & Hq).
        -- injection E as -> _. congruence.
        -- injection E as <- ->. exists l1, l2. repeat split; auto.
           intros q Hin. apply Hq. now right.
Qed.

Lemma find_none {A} (f : A -> bool) (l : list A) :
  find f l = None <-> forall q, In q l -> f q = false.
Proof.
  split.
  - intros E q Hin. now apply (find_none f l E).
  - induction l as [|x l IH]; simpl; intros Hq; [reflexivity|].
    rewrite (Hq x) by now left. apply IH. intros q Hin. apply Hq. now right.
Qed.

Lemma knownProviders_nonempty (p : jsstr) : In p knownProviders -> strOr (Some p) [] = p /\ p <> [].
Proof.
  unfold knownProviders. simpl.
  intros Hin. repeat (destruct Hin as [<- | Hin]; [split; [reflexivity | discriminate]|]).
  destruct Hin.
Qed.

Lemma strOr_provider (f : jsstr -> bool) (d : jsstr) :
  strOr (find f knownProviders) d =
  match find f knownProviders with
  | Some p => p
  | None => d
  end.
Proof.
  destruct (find f knownProviders) as [p|] eqn:E; [|reflexivity].
  apply find_some in E as [Hin _]. apply knownProviders_nonempty in Hin as [_ Hne].
  destruct p; [contradiction | reflexivity].
Qed.

Section ServiceFacts.

Context `{Host}.

Lemma isFromHeader_dec (h : Header) (n : jsstr) :
  h_name h = Some n ->
  (str_eqb (toLowerCase n) (js "from") = true <-> isFromHeader h).
Proof.
  intros E. rewrite str_eqb_eq. unfold isFromHeader. rewrite E. split.
  - intros E'. now exists n.
  - intros (n' & [= <-] & E'). exact E'.
Qed.

Lemma findFrom_spec (hs : list Header) (found : option Header) :
  findFrom hs = Ok found ->
  match found with
  | Some h => exists l1 l2, hs = l1 ++ h :: l2 /\ isFromHeader h /\
                            forall x, In x l1 -> ~ isFromHeader x
  | None => forall x, In x hs -> ~ isFromHeader x
  end.
Proof.
  revert found. induction hs as [|h hs IH]; intros found; simpl.
  - intros [= <-]. intros x [].
  - destruct (h_name h) as [n|] eqn:En; [|discriminate].
    destruct (str_eqb (toLowerCase n) (js "from")) eqn:E.
    + intros [= <-]. exists [], hs. repeat split; auto; try (intros x []).
      now apply isFromHeader_dec with (n := n).
    + intros E'. specialize (IH found E').
      assert (Hh : ~ isFromHeader h).
      { intros F. apply isFromHeader_dec with (n := n) in F; congruence. }
      destruct found as [h'|].
      * destruct IH as (l1 & l2 & -> & F & N). exists (h :: l1), l2. repeat split; auto.
        intros x [<- | Hin]; auto.
      * intros x [<- | Hin]; auto.
Qed.

Lemma findFrom_named (hs : list Header) :
  Forall (fun h => h_name h <> None) hs -> exists found, findFrom hs = Ok found.
Proof.
  induction 1 as [|h hs Hh _ IH]; simpl; [now exists None|].
  destruct (h_name h) as [n|]; [|contradiction].
  destruct (str_eqb (toLowerCase n) (js "from")); [now exists (Some h) | exact IH].
Qed.

(** The first header named [from] is determined by the list. *)
Lemma first_from_unique (l1 l1' l2 l2' : list Header) (h h' : Header) :
  l1 ++ h :: l2 = l1' ++ h' :: l2' ->
  isFromHeader h -> isFromHeader h' ->
  (forall x, In x l1 -> ~ isFromHeader x) ->
  (forall x, In x l1' -> ~ isFromHeader x) ->
  h = h'.
Proof.
  revert l1'. induction l1 as [|a l1 IH]; intros [|a' l1'] E F F' N N'; simpl in E.
  - now injection E.
  - injection E as -> _. exfalso. apply (N' a'); [now left | exact F].
  - injection E as -> _. exfalso. apply (N h'); [now left | exact F'].
  - injection E as -> E. apply (IH l1'); auto.
    + intros x Hin. apply N. now right.
    + intros x Hin. apply N'. now right.
Qed.

Lemma fromValue_senderText (m : EmailMsg) (found : option Header) (t : jsstr) :
  findFrom (headersOf m) = Ok found -> senderText m t -> fromValue found = t.
Proof.
  intros E S. apply findFrom_spec in E. unfold fromValue.
  destruct S as [(l1 & h & l2 & Ehs & F & N & ->) | [N ->]].
  - destruct found as [h'|].
    + destruct E as (l1' & l2' & Ehs' & F' & N').
      rewrite Ehs in Ehs'.
      rewrite <- (first_from_unique _ _ _ _ Ehs' F F' N N').
      destruct (h_value h) as [v|]; simpl; [|reflexivity].
      destruct (toLowerCase v); reflexivity.
    + exfalso. apply (E h); [rewrite Ehs; apply in_elt | exact F].
  - destruct found as [h'|]; [|reflexivity].
    destruct E as (l1' & l2' & Ehs' & F' & N').
    exfalso. apply (N h'); [rewrite Ehs'; apply in_elt | exact F'].
Qed.

(** Every message has a sender text. *)
Lemma senderText_exists (m : EmailMsg) (found : option Header) :
  findFrom (headersOf m) = Ok found -> senderText m (fromValue found).
Proof.
  intros E. apply findFrom_spec in E. unfold fromValue, senderText.
  destruct found as [h|].
  - left. destruct E as (l1 & l2 & Ehs & F & N). exists l1, h, l2. repeat split; auto.
    destruct (h_value h) as [v|]; simpl; [|reflexivity].
    destruct (toLowerCase v); reflexivity.
  - now right.
Qed.

Lemma guessProviderFromHeaders_spec (m : EmailMsg) (r : option jsstr) :
  guessProviderFromHeaders (payload m) = Ok r ->
  exists found,
    findFrom (headersOf m) = Ok found /\
    r = find (fun p => includes (fromValue found) p) knownProviders.
Proof.
  unfold guessProviderFromHeaders, headersOf.
  destruct (payload m) as [pl|].
  - destruct (findFrom _) as [found|e] eqn:E; simpl; [|discriminate].
    intros [= <-]. now exists found.
  - intros [= <-]. exists None. split; [reflexivity|].
    symmetry. apply find_none. intros q Hin. unfold fromValue. simpl.
    apply knownProviders_nonempty in Hin as [_ Hne].
    destruct q; [contradiction | reflexivity].
Qed.

Lemma guessProviderFromHeaders_total (m : EmailMsg) :
  headersNamed m -> exists r, guessProviderFromHeaders (payload m) = Ok r.
Proof.
  unfold headersNamed, headersOf, guessProviderFromHeaders.
  destruct (payload m) as [pl|]; [|now exists None].
  intros N. apply findFrom_named in N as [found ->]. simpl. eauto.
Qed.

(** The optional-chaining calls on capture groups never find them
    [undefined]: both groups lie on every path through their pattern. *)
Lemma extractAmount_total (s : jsstr) : exists amt, extractAmount s = Ok amt.
Proof.
  unfold extractAmount. destruct (smatch s moneyRegex) as [m|] eqn:E; [|eauto].
  destruct (@smatch_binds s moneyRegex m 1 E eq_refl) as [g ->]. simpl. eauto.
Qed.

Lemma extractProduct_total (s : option jsstr) : exists p, extractProduct s = Ok p.
Proof.
  unfold extractProduct. destruct s as [s|]; [|eauto].
  destruct (smatch s productRegex) as [m|] eqn:E; [|eauto].
  destruct (@smatch_binds s productRegex m 2 E eq_refl) as [g ->]. simpl. eauto.
Qed.

Lemma extractAmount_spec (s : jsstr) (amt : AmountInfo) :
  extractAmount s = Ok amt ->
  (~ matchesSomewhere moneyRegex s /\ amt = mkAmountInfo None None) \/
  (matchesSomewhere moneyRegex s /\
   exists num, amt = mkAmountInfo (Some num)
                       (Some (if includes s [c_dollar] then js "USD"
                              else if includes s [c_euro] then js "EUR"
                              else if includes s [c_naira] then js "NGN"
                              else js "USD"))).
Proof.
  unfold extractAmount. rewrite <- smatch_matches.
  destruct (smatch s moneyRegex) as [m|] eqn:E.
  - destruct (capture 1 m); simpl; [|discriminate].
    intros [= <-]. right. split; [discriminate | eauto].
  - intros [= <-]. left. split; [congruence | reflexivity].
Qed.

(** What [processMessage] has done when it pushes a record. *)
Lemma processMessage_Some (bk : list jsstr) (m : EmailMsg) (c : ParsedSub) :
  processMessage bk m = Ok (Some c) ->
  exists pfh amt prod,
    guessProviderFromHeaders (payload m) = Ok pfh /\
    hasBrand bk (loweredText m) = true /\
    hasPayment (loweredText m) = true /\
    hasCurrencyToken (loweredText m) = true /\
    extractAmount (strOr (snippet m) []) = Ok amt /\
    extractProduct (snippet m) = Ok prod /\
    c = mkParsedSub
          (strOr pfh (strOr (find (fun p => includes (loweredText m) p) knownProviders)
                            (js "unknown")))
          prod (a_amount amt) (a_currency amt)
          (d_start (extractDates (strOr (snippet m) [])))
          (match d_next (extractDates (strOr (snippet m) [])) with
           | Some next => Some next
           | None => match d_start (extractDates (strOr (snippet m) [])) with
                     | Some start => Some (addDays start 30)
                     | None => None
                     end
           end)
          (mkRawData (id m) (snippet m)).
Proof.
  unfold processMessage, loweredText, rawText.
  destruct (guessProviderFromHeaders (payload m)) as [pfh|]; simpl; [|discriminate].
  destruct (hasBrand bk _); simpl; [|discriminate].
  destruct (hasPayment _); simpl; [|discriminate].
  destruct (hasCurrencyToken _); simpl; [|discriminate].
  destruct (extractAmount _) as [amt|]; simpl; [|discriminate].
  destruct (extractProduct _) as [prod|]; simpl; [|discriminate].
  intros [= <-]. exists pfh, amt, prod. repeat split; reflexivity.
Qed.

Lemma processMessage_rejected (bk : list jsstr) (m : EmailMsg) :
  headersNamed m ->
  hasBrand bk (loweredText m) && hasPayment (loweredText m)
    && hasCurrencyToken (loweredText m) = false ->
  processMessage bk m = Ok None.
Proof.
  intros N F. unfold processMessage.
change (toLowerCase (strOr (snippet m) [])) with (loweredText m).
  destruct (guessProviderFromHeaders_total N) as [r ->]. simpl.
  destruct (hasBrand bk _); simpl in *; [|reflexivity].
  destruct (hasPayment _); simpl in *; [|reflexivity].
  now rewrite F.
Qed.

Lemma processMessage_total (bk : list jsstr) (m : EmailMsg) :
  headersNamed m -> exists r, processMessage bk m = Ok r.
Proof.
  intros N. unfold processMessage.
  destruct (guessProviderFromHeaders_total N) as [r ->]. simpl.
  destruct (negb _ || negb _); [eauto|].
  destruct (negb _); [eauto|].
  destruct (extractAmount_total (strOr (snippet m) [])) as [amt ->]. simpl.
  destruct (extractProduct_total (snippet m)) as [p ->]. simpl. eauto.
Qed.

Lemma collectResults_In (bk : list jsstr) (msgs : list EmailMsg) :
  forall rs, collectResults bk msgs = Ok rs ->
  forall c, In c rs <-> exists m, In m msgs /\ processMessage bk m = Ok (Some c).
Proof.
  induction msgs as [|m msgs IH]; simpl; intros rs E c.
  - injection E as <-. split; [intros [] | intros (m & [] & _)].
  - destruct (processMessage bk m) as [r|] eqn:P; simpl in E; [|discriminate].
    destruct (collectResults bk msgs) as [rs'|]; simpl in E; [|discriminate].
    injection E as <-. specialize (IH rs' eq_refl c).
    destruct r as [c'|]; simpl; rewrite IH; split.
    + intros [<- | (m' & Hin & P')]; [exists m; auto | exists m'; auto].
    + intros (m' & [<- | Hin] & P'); [left; congruence | right; eauto].
    + intros (m' & Hin & P'); eauto.
    + intros (m' & [<- | Hin] & P'); [congruence | eauto].
Qed.

(** The records are pushed in the order of the messages. *)
Lemma collectResults_order (bk : list jsstr) (msgs : list EmailMsg) :
  forall rs, collectResults bk msgs = Ok rs ->
  Subseq (map rawData rs) (map evidenceOf msgs).
Proof.
  induction msgs as [|m msgs IH]; simpl; intros rs E.
  - injection E as <-. constructor.
  - destruct (processMessage bk m) as [r|] eqn:P; simpl in E; [|discriminate].
    destruct (collectResults bk msgs) as [rs'|]; simpl in E; [|discriminate].
    injection E as <-. specialize (IH rs' eq_refl). destruct r as [c|]; simpl.
    + apply processMessage_Some in P as (pfh & amt & prod & _ & _ & _ & _ & _ & _ & ->).
      simpl. now constructor.
    + now constructor.
Qed.

Lemma collectResults_length (bk : list jsstr) (msgs : list EmailMsg) :
  forall rs, collectResults bk msgs = Ok rs -> List.length rs <= List.length msgs.
Proof.
  induction msgs as [|m msgs IH]; simpl; intros rs E.
  - injection E as <-. simpl. lia.
  - destruct (processMessage bk m) as [r|]; simpl in E; [|discriminate].
    destruct (collectResults bk msgs) as [rs'|]; simpl in E; [|discriminate].
    injection E as <-. specialize (IH rs' eq_refl). destruct r; simpl; lia.
Qed.

Lemma collectResults_total (bk : list jsstr) (msgs : list EmailMsg) :
  Forall headersNamed msgs -> exists rs, collectResults bk msgs = Ok rs.
Proof.
  induction 1 as [|m msgs N _ [rs IH]]; simpl; [eauto|].
  destruct (processMessage_total bk N) as [r ->]. rewrite IH. simpl. eauto.
Qed.

End ServiceFacts.

(** ** The second loop: grouping by key *)

Lemma seen_In (seen : list jsstr) (k : jsstr) :
  existsb (fun k' => str_eqb k' k) seen = true <-> In k seen.
Proof.
  rewrite existsb_exists. split.
  - intros (k' & Hin & E). apply str_eqb_eq in E. now subst.
  - intros Hin. exists k. split; [exact Hin | apply str_eqb_refl].
Qed.

Lemma map_has_keys (g : JSMap) (k : jsstr) :
  map_has g k = existsb (fun k' => str_eqb k' k) (map fst g).
Proof.
  unfold map_has. induction g as [|e g IH]; simpl; [reflexivity | now rewrite IH].
Qed.

(** Setting a key the map does not hold appends the entry. *)
Lemma map_set_fresh (g : JSMap) (k : jsstr) (v : ParsedSub) :
  map_has g k = false -> map_set g k v = g ++ [(k, v)].
Proof.
  unfold map_has. induction g as [|[k' v'] g IH]; simpl; [reflexivity|].
  intros E. apply orb_false_iff in E as [E1 E2]. rewrite E1. now rewrite IH.
Qed.

Lemma groupResults_firstSeen (rs : list ParsedSub) : forall g : JSMap,
  map_values (fold_left dedupStep rs g) = map_values g ++ firstSeen (map fst g) rs.
Proof.
  induction rs as [|r rs IH]; intros g; simpl.
  - now rewrite app_nil_r.
  - rewrite IH. unfold dedupStep. rewrite <- map_has_keys.
    destruct (map_has g (subKey r)) eqn:E; [reflexivity|].
    rewrite map_set_fresh by exact E. unfold map_values.
    rewrite !map_app, <- app_assoc. reflexivity.
Qed.

Lemma firstSeen_Subseq (rs : list ParsedSub) : forall seen,
  Subseq (firstSeen seen rs) rs.
Proof.
  induction rs as [|r rs IH]; intros seen; simpl; [constructor|].
  destruct (existsb _ seen); constructor; apply IH.
Qed.

Lemma firstSeen_first (rs : list ParsedSub) : forall seen c,
  In c (firstSeen seen rs) ->
  ~ In (subKey c) seen /\
  exists l1 l2, rs = l1 ++ c :: l2 /\ forall x, In x l1 -> subKey x <> subKey c.
Proof.
  induction rs as [|r rs IH]; intros seen c; simpl; [intros []|].
  destruct (existsb _ seen) eqn:E.
  - intros Hin. destruct (IH _ _ Hin) as (N & l1 & l2 & -> & F). split; [exact N|].
    exists (r :: l1), l2. split; [reflexivity|].
    intros x [<- | Hx]; [|now apply F].
    intros K. apply N. rewrite <- K. now apply seen_In.
  - intros [<- | Hin].
    + split.
      * intros Hs. apply seen_In in Hs. congruence.
      * exists [], rs. split; [reflexivity | intros x []].
    + destruct (IH _ _ Hin) as (N & l1 & l2 & -> & F). split.
      * intros Hs. apply N. apply in_or_app. now left.
      * exists (r :: l1), l2. split; [reflexivity|].
        intros x [<- | Hx]; [|now apply F].
        intros K. apply N. apply in_or_app. right. rewrite K. now left.
Qed.

Lemma firstSeen_NoDup (rs : list ParsedSub) : forall seen,
  NoDup (map subKey (firstSeen seen rs)).
Proof.
  induction rs as [|r rs IH]; intros seen; simpl; [constructor|].
  destruct (existsb _ seen); [apply IH|].
  simpl. constructor; [|apply IH].
  intros Hin. apply in_map_iff in Hin as (c & K & Hc).
  apply firstSeen_first in Hc as [N _]. apply N. apply in_or_app. right. rewrite K. now left.
Qed.

Lemma firstSeen_covers (rs : list ParsedSub) : forall seen r,
  In r rs ->
  In (subKey r) seen \/ exists c, In c (firstSeen seen rs) /\ subKey c = subKey r.
Proof.
  induction rs as [|x rs IH]; intros seen r; simpl; [intros []|].
  intros [<- | Hin].
  - destruct (existsb _ seen) eqn:E.
    + left. now apply seen_In.
    + right. exists x. split; [now left | reflexivity].
  - destruct (existsb _ seen) eqn:E.
    + apply IH. exact Hin.
    + destruct (IH (seen ++ [subKey x]) r Hin) as [Hs | (c & Hc & K)].
      * apply in_app_or in Hs as [Hs | [K | []]]; [now left|].
        right. exists x. split; [now left | exact K].
      * right. exists c. split; [now right | exact K].
Qed.

Lemma Subseq_In {A} (l l' : list A) (x : A) : Subseq l l' -> In x l -> In x l'.
Proof.
  induction 1 as [|y l l' S IH|y l l' S IH]; simpl; auto.
  intros [<- | Hin]; auto.
Qed.

Lemma Subseq_length {A} (l l' : list A) : Subseq l l' -> List.length l <= List.length l'.
Proof. induction 1; simpl; lia. Qed.

Lemma parse_firstSeen `{Host} (subs : list jsstr) (msgs : list EmailMsg) (out : list ParsedSub) :
  parseSubscriptionsFromEmails subs msgs = Ok out ->
  exists results,
    collectResults (map toLowerCase subs) msgs = Ok results /\ out = firstSeen [] results.
Proof.
  unfold parseSubscriptionsFromEmails, groupResults.
  destruct (collectResults _ msgs) as [results|]; simpl; [|discriminate].
  intros [= <-]. exists results. split; [reflexivity|].
  now rewrite groupResults_firstSeen.
Qed.

(** Every record of the output was pushed for one of the messages. *)
Lemma parse_In `{Host} (subs : list jsstr) (msgs : list EmailMsg) (out : list ParsedSub)
      (c : ParsedSub) :
  parseSubscriptionsFromEmails subs msgs = Ok out -> In c out ->
  exists m, In m msgs /\ processMessage (map toLowerCase subs) m = Ok (Some c).
Proof.
  intros P Hin. apply parse_firstSeen in P as (results & C & ->).
  apply (collectResults_In _ _ C).
  eapply Subseq_In; [apply firstSeen_Subseq | exact Hin].
Qed.

(** ** The dates *)

(** In the ISO-like pattern the capture group spans the whole match: the
    two [\b] around it take no input. *)
Lemma search_group_between_boundaries (ic : bool) (n : nat) (a : regex) (s : jsstr) :
  forall pv i m,
    search ic (Seq WordB (Seq (Group n a) WordB)) pv s i = Some m ->
    group n m = Some (m_text m).
Proof.
  assert (Step : forall pv s st,
             rmatch ic (Seq WordB (Seq (Group n a) WordB)) (MState pv s []) Some = Some st ->
             lookupCap n (caps st) = Some (consumed s (rest st))).
  { intros pv s0 st R. simpl in R.
    destruct (atWordBoundary (MState pv s0 [])); [|discriminate].
    apply rmatch_sound in R as (w & rs & cs & E & _ & _ & R). simpl in *.
    destruct (atWordBoundary _); [|discriminate].
    injection R as <-. simpl. rewrite Nat.eqb_refl. reflexivity. }
  induction s as [|c s IH]; intros pv i m E; rewrite search_unfold in E.
  - destruct (rmatch ic _ _ Some) as [st|] eqn:R; [|discriminate].
    injection E as <-. unfold group. simpl. now apply Step in R.
  - destruct (rmatch ic _ _ Some) as [st|] eqn:R.
    + injection E as <-. unfold group. simpl. now apply Step in R.
    + now apply IH in E.
Qed.

Lemma isoRegex_group (s : jsstr) (m : rmatchResult) :
  smatch s isoRegex = Some m -> group 1 m = Some (m_text m).
Proof. apply search_group_between_boundaries. Qed.

Section DateFacts.

Context `{Host}.

Lemma extractDates_found (s w : jsstr) :
  dateSubstring s w ->
  extractDates s = mkDateInfo (Some (newDate w)) (Some (addDays (newDate w) 30)).
Proof.
  unfold extractDates.
  intros [(m & E & <-) | [N (m & E & <-)]].
  - rewrite E, (isoRegex_group _ E). reflexivity.
  - rewrite <- smatch_matches in N.
    destruct (smatch s isoRegex); [exfalso; apply N; discriminate|].
    rewrite E. reflexivity.
Qed.

Lemma extractDates_none (s : jsstr) :
  ~ matchesSomewhere isoRegex s -> ~ matchesSomewhere longDateRegex s ->
  extractDates s = mkDateInfo None None.
Proof.
  rewrite <- !smatch_matches. unfold extractDates. intros N1 N2.
  destruct (smatch s isoRegex); [exfalso; apply N1; discriminate|].
  destruct (smatch s longDateRegex); [exfalso; apply N2; discriminate|].
  reflexivity.
Qed.

End DateFacts.

(** ** The claims *)

Section Claims.

Context `{Host}.

Lemma lower_netflix_brand (subs : list jsstr) :
  In (js "netflix") subs -> In (js "netflix") (map toLowerCase subs).
Proof.
  intros Hin. apply in_map_iff. exists (js "netflix"). split; [|exact Hin].
  now rewrite toLowerCase_ascii by reflexivity.
Qed.

Lemma guessProviderFromHeaders_no_headers (m : EmailMsg) :
  headersOf m = [] -> guessProviderFromHeaders (payload m) = Ok None.
Proof.
  unfold headersOf, guessProviderFromHeaders.
  destruct (payload m) as [pl|]; [|reflexivity]. intros ->. reflexivity.
Qed.

(** C1, as the code behaves: the message "Your Netflix subscription of
    $15.99 renewed on 2024-03-05", without headers (no payload, or a
    payload with no header in it) and with a brand list that contains
    "netflix", gives exactly one record: provider "netflix", amount 15.99,
    currency "USD", start date 2024-03-05, midnight UTC, and as next
    billing date that instant moved by 30 days on the local calendar of
    the process (its plan label is the word "of" that follows
    "subscription").  The next billing date is 2024-04-04, midnight UTC,
    where the local zone has the same offset from UTC on both days. *)
Theorem scenario_netflix_renewal (subs : list jsstr) (i : jsstr) (pl : option Payload) :
  headersOf (renewalMsgWith i pl) = [] ->
  In (js "netflix") subs ->
  parseSubscriptionsFromEmails subs [renewalMsgWith i pl]
  = Ok [renewalRecordWith i (addDays (utcDate 2024 3 5) 30)] /\
  addDays (utcDate 2024 3 5) 30
  = timeClip (utcTime (localTime (msPerDay * daysFromCivil 2024 3 5) + 30 * msPerDay)) /\
  (offsetKept (msPerDay * daysFromCivil 2024 3 5) 30 ->
   parseSubscriptionsFromEmails subs [renewalMsgWith i pl] = Ok [renewalRecord i]).
Proof.
  intros Hnil Hin. apply lower_netflix_brand in Hin.
  assert (P : parseSubscriptionsFromEmails subs [renewalMsgWith i pl]
              = Ok [renewalRecordWith i (addDays (utcDate 2024 3 5) 30)]).
  { unfold parseSubscriptionsFromEmails. cbn [collectResults].
    unfold processMessage. rewrite (guessProviderFromHeaders_no_headers _ Hnil).
    cbn [snippet renewalMsgWith id].
    change (strOr (Some renewalText) []) with renewalText.
    rewrite toLowerCase_ascii by reflexivity.
    cbn [bind].
    replace (hasBrand _ _) with true.
    2:{ symmetry. apply existsb_exists. exists (js "netflix"). split; [exact Hin | reflexivity]. }
    replace (hasPayment _) with true by reflexivity.
    replace (hasCurrencyToken _) with true by reflexivity.
    cbn [negb orb].
    replace (extractAmount renewalText)
      with (Ok (mkAmountInfo (Some (Num (1599 # 100))) (Some (js "USD")))) by reflexivity.
    replace (extractProduct (Some renewalText)) with (Ok (Some (js "of"))) by reflexivity.
    rewrite (@extractDates_found _ renewalText (js "2024-03-05")).
    2:{ left. eexists. split; reflexivity. }
    rewrite (@newDate_iso_legal _ (js "2024-03-05") 2024 3 5)
      by (first [reflexivity | vm_compute; split; discriminate]).
    reflexivity. }
  split; [exact P|]. split.
  - unfold utcDate. apply addDays_local. discriminate.
  - intros K. rewrite P. unfold utcDate.
    rewrite (@addDays_offsetKept _ _ _ K) by (vm_compute; discriminate).
    reflexivity.
Qed.

Lemma passesFilter_dec (subs : list jsstr) (m : EmailMsg) :
  hasBrand (map toLowerCase subs) (loweredText m) && hasPayment (loweredText m)
    && hasCurrencyToken (loweredText m) = true
  <-> passesFilter subs m.
Proof.
  unfold passesFilter, hasBrand, hasPayment.
  rewrite !andb_true_iff, !existsb_includes, hasCurrencyToken_spec.
  assert (B : (exists p, In p (map toLowerCase subs) /\ occursIn p (loweredText m))
              <-> (exists b, In b subs /\ occursIn (toLowerCase b) (loweredText m))).
  { split.
    - intros (p & Hin & O). apply in_map_iff in Hin as (b & <- & Hin). eauto.
    - intros (b & Hin & O). exists (toLowerCase b). split; [now apply in_map | exact O]. }
  rewrite B. tauto.
Qed.

(** C2: a message gives a record only if its lower-cased text contains a
    brand name, a subscription keyword and a currency-like token; a
    message that fails one of the three gives no record, and no error
    either (its headers being well formed); every record of the output
    comes from a message that passed. *)
Theorem candidate_filter_gate (subs : list jsstr) :
  (forall m c, processMessage (map toLowerCase subs) m = Ok (Some c) ->
               passesFilter subs m) /\
  (forall m, headersNamed m -> ~ passesFilter subs m ->
             processMessage (map toLowerCase subs) m = Ok None) /\
  (forall msgs out c,
      parseSubscriptionsFromEmails subs msgs = Ok out -> In c out ->
      exists m, In m msgs /\ passesFilter subs m /\ rawData c = evidenceOf m).
Proof.
  assert (G : forall m c, processMessage (map toLowerCase subs) m = Ok (Some c) ->
                          passesFilter subs m /\ rawData c = evidenceOf m).
  { intros m c P.
    apply processMessage_Some in P as (pfh & amt & prod & _ & B & K & T & _ & _ & ->).
    split; [|reflexivity]. apply passesFilter_dec. now rewrite B, K, T. }
  split; [|split].
  - intros m c P. now apply G in P.
  - intros m N F. apply processMessage_rejected; [exact N|].
    destruct (_ && _ && _) eqn:E; [|reflexivity].
    exfalso. apply F. now apply passesFilter_dec.
  - intros msgs out c P Hin. destruct (@parse_In _ _ _ _ _ P Hin) as (m & Hm & Pm).
    apply G in Pm as [F R]. eauto.
Qed.

(** C3: the keys [provider :: product-or-unknown] of the output are
    pairwise distinct; the per-message records stand in the order of the
    messages and the output lists, in that order, exactly those that are
    the first with their key; every per-message record has its key in the
    output. *)
Theorem output_keeps_first_per_key (subs : list jsstr) (msgs : list EmailMsg)
        (out : list ParsedSub) :
  parseSubscriptionsFromEmails subs msgs = Ok out ->
  exists results,
    collectResults (map toLowerCase subs) msgs = Ok results /\
    Subseq (map rawData results) (map evidenceOf msgs) /\
    NoDup (map subKey out) /\
    NoDup (map (fun c => (provider c, product c)) out) /\
    Subseq out results /\
    (forall c, In c out -> isFirstWithKey results c) /\
    (forall r, In r results -> exists c, In c out /\ subKey c = subKey r).
Proof.
  intros P. apply parse_firstSeen in P as (results & C & ->).
  exists results. split; [exact C|].
  pose proof (firstSeen_NoDup results []) as ND.
  pose proof (collectResults_order _ _ C) as Ord.
  repeat split; auto.
  - set (key := fun pp : jsstr * option jsstr =>
                  fst pp ++ js "::" ++ match snd pp with
                                       | Some p => p
                                       | None => js "unknown"
                                       end).
    apply (NoDup_map_inv key). rewrite map_map. exact ND.
  - apply firstSeen_Subseq.
  - intros c Hin. apply firstSeen_first in Hin as [_ F]. exact F.
  - intros r Hin. destruct (@firstSeen_covers results [] r Hin) as [[] | F]. exact F.
Qed.

Lemma moneyRegex_needs_digit (s : jsstr) :
  matchesSomewhere moneyRegex s -> exists x, In x s /\ isDigit x = true.
Proof.
  unfold matchesSomewhere, moneyRegex. cbn [re_pattern re_ignoreCase].
  intros (pre & w & rs & -> & M).
  repeat inv_seq. inv_group. inv_seq. inv_rep.
  match goal with F : forallb _ ?d = true |- _ => destruct d as [|x ds]; simpl in *; [lia|];
    apply andb_true_iff in F as [F _]; rewrite cmatch_digits09 in F; exists x end.
  split; [|assumption].
  repeat (rewrite in_app_iff; simpl). tauto.
Qed.

(** C5: in every record of the output the amount and the currency are
    both present or both absent; they are both absent when the money
    pattern finds no number in the text, in particular when the text has
    no digit. *)
Theorem amount_currency_paired (subs : list jsstr) (msgs : list EmailMsg)
        (out : list ParsedSub) (c : ParsedSub) :
  parseSubscriptionsFromEmails subs msgs = Ok out -> In c out ->
  (amount c = None <-> currency c = None) /\
  (~ matchesSomewhere moneyRegex (textOf c) -> amount c = None /\ currency c = None) /\
  ((forall x, In x (textOf c) -> isDigit x = false) ->
   amount c = None /\ currency c = None).
Proof.
  intros P Hin. destruct (@parse_In _ _ _ _ _ P Hin) as (m & _ & Pm).
  apply processMessage_Some in Pm as (pfh & amt & prod & _ & _ & _ & _ & A & _ & ->).
  unfold textOf. simpl.
  assert (NM : ~ matchesSomewhere moneyRegex (strOr (snippet m) []) ->
               a_amount amt = None /\ a_currency amt = None).
  { intros N. apply extractAmount_spec in A as [[_ ->] | [M _]]; [now split | contradiction]. }
  split; [|split].
  - apply extractAmount_spec in A as [[_ ->] | [_ [num ->]]]; simpl; split; congruence.
  - exact NM.
  - intros ND. apply NM. intros M.
    apply moneyRegex_needs_digit in M as (x & Hx & D). rewrite (ND x Hx) in D. discriminate.
Qed.

(** C6: whenever the money pattern finds a number in a text, the
    extractor returns an amount together with the currency "USD" if the
    text contains "$", else "EUR" if it contains the euro sign, else "NGN"
    if it contains the naira sign, else "USD"; every record pushed for a
    message with that text carries this currency. *)
Theorem currency_precedence (s : jsstr) :
  matchesSomewhere moneyRegex s ->
  exists q cur,
    extractAmount s = Ok (mkAmountInfo (Some (Num q)) (Some cur)) /\
    (occursIn [c_dollar] s -> cur = js "USD") /\
    (~ occursIn [c_dollar] s -> occursIn [c_euro] s -> cur = js "EUR") /\
    (~ occursIn [c_dollar] s -> ~ occursIn [c_euro] s -> occursIn [c_naira] s ->
     cur = js "NGN") /\
    (~ occursIn [c_dollar] s -> ~ occursIn [c_euro] s -> ~ occursIn [c_naira] s ->
     cur = js "USD") /\
    (forall bk m c, rawText m = s -> processMessage bk m = Ok (Some c) ->
                    amount c = Some (Num q) /\ currency c = Some cur).
Proof.
  intros M. destruct (extractAmount_total s) as [amt A].
  pose proof A as A0.
  apply extractAmount_spec in A0 as [[N _] | [_ [num E]]]; [contradiction|].
  subst amt.
  destruct (@extractAmount_number s _ A) as [F | (g & ip & fp & _ & F)]; [discriminate|].
  simpl in F. injection F as ->.
  exists (decimalValue ip fp). eexists. split; [exact A|].
  rewrite <- !includes_false, <- !includes_spec.
  assert (R : forall cur bk m c,
             extractAmount s = Ok (mkAmountInfo (Some (Num (decimalValue ip fp))) (Some cur)) ->
             rawText m = s -> processMessage bk m = Ok (Some c) ->
             amount c = Some (Num (decimalValue ip fp)) /\ currency c = Some cur).
  { intros cur bk m c A1 Et Pm.
    apply processMessage_Some in Pm as (pfh & amt & prod & _ & _ & _ & _ & A' & _ & ->).
    unfold rawText in Et. rewrite Et, A1 in A'. injection A' as <-. split; reflexivity. }
  destruct (includes s [c_dollar]), (includes s [c_euro]), (includes s [c_naira]);
    (split; [congruence|]; split; [congruence|]; split; [congruence|];
     split; [congruence|]; intros bk m c; apply R; exact A).
Qed.

(** Where the match that decides parses (the first ISO-like one, or the
    first long-form one of a text without an ISO-like one), that date is
    the start date and the next billing date is 30 days later on the
    local calendar. *)
Lemma dates_from_deciding_match (bk : list jsstr) (m : EmailMsg) (c : ParsedSub)
      (w : jsstr) (t : Z) :
  processMessage bk m = Ok (Some c) ->
  dateSubstring (rawText m) w -> newDate w = TimeValue t ->
  startDate c = Some (TimeValue t) /\
  nextBilling c = Some (addDays (TimeValue t) 30).
Proof.
  intros Pm D V.
  apply processMessage_Some in Pm as (pfh & amt & prod & _ & _ & _ & _ & _ & _ & ->).
  unfold rawText in D. cbn [startDate nextBilling].
  rewrite (@extractDates_found _ _ _ D), V. split; reflexivity.
Qed.

(** C7, as the code behaves: a long-form date that parses is not used
    when the text also holds an ISO-like substring that does not parse.
    [new Date] returns an invalid date for that substring instead of
    raising, so the long-form pattern is never tried, and both dates of
    the record are invalid. *)
Theorem valid_long_form_date_is_hidden (bk : list jsstr) (m : EmailMsg) (c : ParsedSub)
        (w1 w2 : jsstr) (t : Z) :
  processMessage bk m = Ok (Some c) ->
  firstMatch isoRegex (rawText m) w1 -> newDate w1 = InvalidDate ->
  firstMatch longDateRegex (rawText m) w2 -> newDate w2 = TimeValue t ->
  startDate c = Some InvalidDate /\ nextBilling c = Some InvalidDate /\
  startDate c <> Some (TimeValue t).
Proof.
  intros Pm F V _ _.
  apply processMessage_Some in Pm as (pfh & amt & prod & _ & _ & _ & _ & _ & _ & ->).
  unfold rawText in F. cbn [startDate nextBilling].
  rewrite (@extractDates_found _ _ w1 (or_introl F)), V.
  split; [reflexivity|]. split; [reflexivity | discriminate].
Qed.

Lemma firstProviderIn_find (t p : jsstr) :
  firstProviderIn t p <-> find (fun q => includes t q) knownProviders = Some p.
Proof.
  rewrite find_first. unfold firstProviderIn.
  split; intros (l1 & l2 & E & O & N); exists l1, l2; repeat split; auto.
  - now apply includes_spec.
  - intros q Hq. apply includes_false. now apply N.
  - now apply includes_spec.
  - intros q Hq. apply includes_false. now apply N.
Qed.

Lemma noProviderIn_find (t : jsstr) :
  noProviderIn t <-> find (fun q => includes t q) knownProviders = None.
Proof.
  rewrite find_none. unfold noProviderIn.
  split; intros N q Hq; apply includes_false; now apply N.
Qed.

(** C8: the provider of a record is the first member of the provider
    enumeration occurring in the lower-cased value of the first header
    named "from" (in any case); failing that, the first member occurring
    in the lower-cased text; failing that, "unknown". *)
Theorem provider_two_tier (subs : list jsstr) (m : EmailMsg) (c : ParsedSub) (t : jsstr) :
  processMessage (map toLowerCase subs) m = Ok (Some c) -> senderText m t ->
  (forall p, firstProviderIn t p -> provider c = p) /\
  (noProviderIn t -> forall p, firstProviderIn (loweredText m) p -> provider c = p) /\
  (noProviderIn t -> noProviderIn (loweredText m) -> provider c = js "unknown").
Proof.
  intros P S.
  apply processMessage_Some in P as (pfh & amt & prod & G & _ & _ & _ & _ & _ & ->).
  apply guessProviderFromHeaders_spec in G as (found & F & ->).
  rewrite (@fromValue_senderText _ m found t F S). cbn [provider].
  rewrite !strOr_provider. repeat split.
  - intros p Fp. apply firstProviderIn_find in Fp. now rewrite Fp.
  - intros N p Fp. apply noProviderIn_find in N. apply firstProviderIn_find in Fp.
    now rewrite N, Fp.
  - intros N N'. apply noProviderIn_find in N. apply noProviderIn_find in N'.
    now rewrite N, N'.
Qed.


(** C10: the output is never longer than the input. *)
Theorem output_no_longer_than_input (subs : list jsstr) (msgs : list EmailMsg)
        (out : list ParsedSub) :
  parseSubscriptionsFromEmails subs msgs = Ok out ->
  List.length out <= List.length msgs.
Proof.
  intros P. apply parse_firstSeen in P as (results & C & ->).
  apply collectResults_length in C.
  pose proof (@Subseq_length _ _ _ (firstSeen_Subseq results [])). lia.
Qed.

(** Without a date pattern in the text both dates of the record are
    [null]. *)
Lemma dates_null_without_date_pattern (bk : list jsstr) (m : EmailMsg) (c : ParsedSub) :
  processMessage bk m = Ok (Some c) ->
  ~ matchesSomewhere isoRegex (rawText m) ->
  ~ matchesSomewhere longDateRegex (rawText m) ->
  startDate c = None /\ nextBilling c = None.
Proof.
  intros Pm N1 N2.
  apply processMessage_Some in Pm as (pfh & amt & prod & _ & _ & _ & _ & _ & _ & ->).
  unfold rawText in N1, N2. simpl. rewrite (extractDates_none N1 N2). split; reflexivity.
Qed.

(** An ISO-like substring that does not parse is not skipped: [new Date]
    returns an invalid date instead of raising, the [catch] never runs,
    and the record keeps the invalid date. *)
Lemma unparsed_iso_date_is_kept (bk : list jsstr) (m : EmailMsg) (c : ParsedSub) (w : jsstr) :
  processMessage bk m = Ok (Some c) ->
  firstMatch isoRegex (rawText m) w -> newDate w = InvalidDate ->
  startDate c = Some InvalidDate /\ nextBilling c = Some InvalidDate.
Proof.
  intros Pm F V.
  apply processMessage_Some in Pm as (pfh & amt & prod & _ & _ & _ & _ & _ & _ & ->).
  unfold rawText in F. simpl.
  rewrite (@extractDates_found _ _ w (or_introl F)), V. split; reflexivity.
Qed.

(** C4, as the code behaves: the renewal message with the date written
    2024-31-12 still gives its record, but the start date and the next
    billing date are invalid [Date] objects, not [null]. *)
Theorem unparseable_date_is_kept_invalid (subs : list jsstr) (i : jsstr) :
  In (js "netflix") subs ->
  parseSubscriptionsFromEmails subs [badDateMsg i] =
  Ok [mkParsedSub (js "netflix") (Some (js "of"))
                  (Some (Num (1599 # 100))) (Some (js "USD"))
                  (Some InvalidDate) (Some InvalidDate)
                  (mkRawData i (Some badDateText))].
Proof.
  intros Hin. apply lower_netflix_brand in Hin.
  unfold parseSubscriptionsFromEmails. cbn [collectResults].
  unfold processMessage. cbn [snippet payload badDateMsg id].
  change (strOr (Some badDateText) []) with badDateText.
  rewrite toLowerCase_ascii by reflexivity.
  cbn [guessProviderFromHeaders bind].
  replace (hasBrand _ _) with true.
  2:{ symmetry. apply existsb_exists. exists (js "netflix"). split; [exact Hin | reflexivity]. }
  replace (hasPayment _) with true by reflexivity.
  replace (hasCurrencyToken _) with true by reflexivity.
  cbn [negb orb].
  replace (extractAmount badDateText)
    with (Ok (mkAmountInfo (Some (Num (1599 # 100))) (Some (js "USD")))) by reflexivity.
  replace (extractProduct (Some badDateText)) with (Ok (Some (js "of"))) by reflexivity.
  rewrite (@extractDates_found _ badDateText (js "2024-31-12")).
  2:{ left. eexists. split; reflexivity. }
  rewrite (@newDate_iso_illegal _ (js "2024-31-12") 2024 31 12)
    by (first [reflexivity | right; left; reflexivity]).
  reflexivity.
Qed.

End Claims.

(** ** The claims on the example batch, run on the reference engine *)

Lemma demo_run : @parseSubscriptionsFromEmails refHost demoSubs demoBatch = Ok demoOutput.
Proof. vm_compute. reflexivity. Qed.

Lemma scenario_netflix_renewal_witness :
  headersOf (renewalMsgWith (js "m-1") (Some (mkPayload (Some [])))) = [] /\
  In (js "netflix") [js "netflix"] /\
  @offsetKept refHost (msPerDay * daysFromCivil 2024 3 5) 30 /\
  @parseSubscriptionsFromEmails refHost [js "netflix"]
    [renewalMsgWith (js "m-1") (Some (mkPayload (Some [])))] =
  Ok [renewalRecord (js "m-1")].
Proof.
  split; [reflexivity|]. split; [now left|]. split; [reflexivity|].
  exact (proj2 (proj2 (@scenario_netflix_renewal refHost [js "netflix"] (js "m-1")
                         (Some (mkPayload (Some []))) eq_refl (or_introl eq_refl)))
               eq_refl).
Defined.

(** In a zone that changes to daylight saving between the two days the
    next billing date of the scenario is 2024-04-03, 23:00 UTC, which is
    19:00 of 3 April there: not 2024-04-04 on either calendar. *)
Lemma scenario_netflix_renewal_counterexample :
  headersOf (renewalMsg (js "m-1")) = [] /\
  In (js "netflix") [js "netflix"] /\
  @parseSubscriptionsFromEmails easternHost [js "netflix"] [renewalMsg (js "m-1")]
  = Ok [renewalRecordWith (js "m-1") (TimeValue 1712185200000)] /\
  @parseSubscriptionsFromEmails easternHost [js "netflix"] [renewalMsg (js "m-1")]
  <> Ok [renewalRecord (js "m-1")] /\
  (1712185200000 = msPerDay * daysFromCivil 2024 4 3 + 23 * msPerHour)%Z /\
  (@localTime easternHost 1712185200000
   = msPerDay * daysFromCivil 2024 4 3 + 19 * msPerHour)%Z.
Proof.
  split; [reflexivity|]. split; [now left|].
  split; [vm_compute; reflexivity|].
  split; [vm_compute; discriminate|].
  split; reflexivity.
Defined.

Lemma noticeMsg_fails_filter : ~ @passesFilter refHost demoSubs noticeMsg.
Proof.
  intros F. apply (@passesFilter_dec refHost) in F. vm_compute in F. discriminate.
Qed.

Lemma candidate_filter_gate_witness :
  headersNamed noticeMsg /\ ~ @passesFilter refHost demoSubs noticeMsg /\
  @processMessage refHost (map (@toLowerCase refHost) demoSubs) noticeMsg = Ok None.
Proof.
  assert (N : headersNamed noticeMsg) by constructor.
  split; [exact N|]. split; [exact noticeMsg_fails_filter|].
  exact (proj1 (proj2 (@candidate_filter_gate refHost demoSubs))
               noticeMsg N noticeMsg_fails_filter).
Defined.

Lemma output_keeps_first_per_key_witness :
  @parseSubscriptionsFromEmails refHost demoSubs demoBatch = Ok demoOutput /\
  exists results,
    @collectResults refHost (map (@toLowerCase refHost) demoSubs) demoBatch = Ok results /\
    Subseq (map rawData results) (map evidenceOf demoBatch) /\
    NoDup (map subKey demoOutput) /\
    NoDup (map (fun c => (provider c, product c)) demoOutput) /\
    Subseq demoOutput results /\
    (forall c, In c demoOutput -> isFirstWithKey results c) /\
    (forall r, In r results -> exists c, In c demoOutput /\ subKey c = subKey r).
Proof.
  split; [exact demo_run|].
  exact (@output_keeps_first_per_key refHost demoSubs demoBatch demoOutput demo_run).
Defined.

Lemma amount_currency_paired_witness :
  @parseSubscriptionsFromEmails refHost demoSubs demoBatch = Ok demoOutput /\
  In vagueRecord demoOutput /\
  (amount vagueRecord = None <-> currency vagueRecord = None) /\
  (~ matchesSomewhere moneyRegex (textOf vagueRecord) ->
   amount vagueRecord = None /\ currency vagueRecord = None) /\
  ((forall x, In x (textOf vagueRecord) -> isDigit x = false) ->
   amount vagueRecord = None /\ currency vagueRecord = None).
Proof.
  assert (I : In vagueRecord demoOutput) by (simpl; auto).
  split; [exact demo_run|]. split; [exact I|].
  exact (@amount_currency_paired refHost demoSubs demoBatch demoOutput vagueRecord demo_run I).
Defined.

Lemma renewal_has_amount : matchesSomewhere moneyRegex renewalText.
Proof. apply smatch_matches. vm_compute. discriminate. Qed.

Lemma currency_precedence_witness :
  matchesSomewhere moneyRegex renewalText /\
  exists q cur,
    extractAmount renewalText = Ok (mkAmountInfo (Some (Num q)) (Some cur)) /\
    (occursIn [c_dollar] renewalText -> cur = js "USD") /\
    (~ occursIn [c_dollar] renewalText -> occursIn [c_euro] renewalText ->
     cur = js "EUR") /\
    (~ occursIn [c_dollar] renewalText -> ~ occursIn [c_euro] renewalText ->
     occursIn [c_naira] renewalText -> cur = js "NGN") /\
    (~ occursIn [c_dollar] renewalText -> ~ occursIn [c_euro] renewalText ->
     ~ occursIn [c_naira] renewalText -> cur = js "USD") /\
    (forall bk m c, rawText m = renewalText ->
                    @processMessage refHost bk m = Ok (Some c) ->
                    amount c = Some (Num q) /\ currency c = Some cur).
Proof.
  split; [exact renewal_has_amount|].
  exact (@currency_precedence refHost renewalText renewal_has_amount).
Defined.

Lemma renewal_processed :
  @processMessage refHost (map (@toLowerCase refHost) demoSubs) (renewalMsg (js "m-1")) =
  Ok (Some (renewalRecord (js "m-1"))).
Proof. vm_compute. reflexivity. Qed.

Lemma renewal_date_substring :
  dateSubstring (rawText (renewalMsg (js "m-1"))) (js "2024-03-05").
Proof. left. eexists. split; vm_compute; reflexivity. Qed.

Example renewal_dates :
  startDate (renewalRecord (js "m-1")) = Some (utcDate 2024 3 5) /\
  nextBilling (renewalRecord (js "m-1")) = Some (@addDays refHost (utcDate 2024 3 5) 30).
Proof.
  exact (@dates_from_deciding_match refHost _ _ _ _ _
           renewal_processed renewal_date_substring eq_refl).
Qed.

Definition hiddenDateRecord : ParsedSub :=
  mkParsedSub (js "netflix") (Some (js "Basic billed"))
              (Some (Num (5 # 1))) (Some (js "USD"))
              (Some InvalidDate) (Some InvalidDate)
              (mkRawData (js "m-hidden") (Some hiddenDateText)).

Lemma hidden_processed :
  @processMessage refHost (map (@toLowerCase refHost) demoSubs) hiddenDateMsg =
  Ok (Some hiddenDateRecord).
Proof. vm_compute. reflexivity. Qed.

Lemma hidden_iso_like : firstMatch isoRegex (rawText hiddenDateMsg) (js "2025-66-07").
Proof. eexists. split; vm_compute; reflexivity. Qed.

Lemma hidden_long_form : firstMatch longDateRegex (rawText hiddenDateMsg) (js "Jan 5, 2024").
Proof. eexists. split; vm_compute; reflexivity. Qed.

Lemma valid_long_form_date_is_hidden_witness :
  @processMessage refHost (map (@toLowerCase refHost) demoSubs) hiddenDateMsg =
  Ok (Some hiddenDateRecord) /\
  firstMatch isoRegex (rawText hiddenDateMsg) (js "2025-66-07") /\
  @newDate refHost (js "2025-66-07") = InvalidDate /\
  firstMatch longDateRegex (rawText hiddenDateMsg) (js "Jan 5, 2024") /\
  @newDate refHost (js "Jan 5, 2024") = utcDate 2024 1 5 /\
  startDate hiddenDateRecord = Some InvalidDate /\
  nextBilling hiddenDateRecord = Some InvalidDate /\
  startDate hiddenDateRecord <> Some (utcDate 2024 1 5).
Proof.
  split; [exact hidden_processed|]. split; [exact hidden_iso_like|].
  split; [reflexivity|]. split; [exact hidden_long_form|]. split; [reflexivity|].
  exact (@valid_long_form_date_is_hidden refHost _ _ _ _ _ _
           hidden_processed hidden_iso_like eq_refl hidden_long_form eq_refl).
Defined.

Lemma forwarded_processed :
  @processMessage refHost (map (@toLowerCase refHost) demoSubs) forwardedMsg =
  Ok (Some forwardedRecord).
Proof. vm_compute. reflexivity. Qed.

Lemma forwarded_sender :
  @senderText refHost forwardedMsg (js "spotify <no-reply@spotify.com>").
Proof.
  left.
  exists [mkHeader (Some (js "Subject")) (Some (js "Fwd: receipt"))],
         (mkHeader (Some (js "FROM")) (Some (js "Spotify <no-reply@spotify.com>"))),
         [mkHeader (Some (js "From")) None].
  split; [reflexivity|]. split; [exists (js "FROM"); split; reflexivity|].
  split; [|reflexivity].
  intros x [<- | []] (n & E & L). simpl in E. injection E as <-. vm_compute in L. discriminate.
Qed.

Lemma spotify_first_in_sender :
  firstProviderIn (js "spotify <no-reply@spotify.com>") (js "spotify").
Proof. apply firstProviderIn_find. vm_compute. reflexivity. Qed.

Lemma provider_two_tier_witness :
  @processMessage refHost (map (@toLowerCase refHost) demoSubs) forwardedMsg =
  Ok (Some forwardedRecord) /\
  @senderText refHost forwardedMsg (js "spotify <no-reply@spotify.com>") /\
  firstProviderIn (js "spotify <no-reply@spotify.com>") (js "spotify") /\
  provider forwardedRecord = js "spotify".
Proof.
  split; [exact forwarded_processed|]. split; [exact forwarded_sender|].
  split; [exact spotify_first_in_sender|].
  exact (proj1 (@provider_two_tier refHost demoSubs forwardedMsg forwardedRecord _
                                   forwarded_processed forwarded_sender)
               (js "spotify") spotify_first_in_sender).
Defined.



Lemma output_no_longer_than_input_witness :
  @parseSubscriptionsFromEmails refHost demoSubs demoBatch = Ok demoOutput /\
  List.length demoOutput <= List.length demoBatch.
Proof.
  split; [exact demo_run|].
  exact (@output_no_longer_than_input refHost demoSubs demoBatch demoOutput demo_run).
Defined.

Lemma unparseable_date_is_kept_invalid_witness :
  In (js "netflix") [js "netflix"] /\
  @parseSubscriptionsFromEmails refHost [js "netflix"] [badDateMsg (js "m-bad")] =
  Ok [mkParsedSub (js "netflix") (Some (js "of"))
                  (Some (Num (1599 # 100))) (Some (js "USD"))
                  (Some InvalidDate) (Some InvalidDate)
                  (mkRawData (js "m-bad") (Some badDateText))].
Proof.
  split; [now left|].
  apply (@unparseable_date_is_kept_invalid refHost [js "netflix"] (js "m-bad")). now left.
Defined.

(** A header without a name makes the whole call raise, whatever the
    texts are: the headers are read before the filter is applied. *)
Example nameless_header_throws :
  @parseSubscriptionsFromEmails refHost demoSubs
    [mkEmailMsg (js "m-x") (Some (js "hello"))
                (Some (mkPayload (Some [mkHeader None (Some (js "x"))])))]
  = Throw TypeError.
Proof. reflexivity. Qed.

(** Scenario D on the reference engine: a long-form date is treated as an
    ISO-like one is. *)
Example scenario_long_form_date :
  @parseSubscriptionsFromEmails refHost demoSubs [longFormMsg] = Ok [longFormRecord].
Proof. vm_compute. reflexivity. Qed.

(** ** The patterns on sample texts *)

Example utcDate_2024_03_05 :
  utcDate 2024 3 5 = TimeValue 1709596800000 /\ utcDate 2024 4 4 = TimeValue 1712188800000.
Proof. split; reflexivity. Qed.

(** The money pattern starts at the currency marker before the first
    number and captures the number alone. *)
Example moneyRegex_sample :
  smatch (js "x USD 1,5 eur") moneyRegex =
  Some (MatchResult 2 (js "USD 1,5 eur") [(1, js "1,5")]).
Proof. reflexivity. Qed.

(** The ISO-like pattern wants word boundaries on both sides. *)
Example isoRegex_sample :
  smatch (js "a2024-03-05 2024-03-055 2024/3/5") isoRegex =
  Some (MatchResult 24 (js "2024/3/5") [(1, js "2024/3/5")]).
Proof. reflexivity. Qed.

Example longDateRegex_sample :
  smatch (js "due on Sept 5, 2024.") longDateRegex =
  Some (MatchResult 7 (js "Sept 5, 2024") []).
Proof. reflexivity. Qed.

(** The separator run gives a blank back to the capture when nothing
    else follows the keyword. *)
Example productRegex_sample :
  smatch (js "plan  $") productRegex =
  Some (MatchResult 0 (js "plan  ") [(2, js " "); (1, js "plan")]).
Proof. reflexivity. Qed.

Example currencyRegex_sample :
  smatch (js "ab 12345 Usd") currencyRegex =
  Some (MatchResult 3 (js "12345 Usd") [(1, js "Usd")]).
Proof. reflexivity. Qed.

(** * More of the service

    Further properties of [subscriptionService.ts]: what the extractors
    return exactly, when the call raises, and how the output behaves when
    the batch grows. *)

Unset Implicit Arguments.

(** ** Further definitions *)

(** [r.product ?? "unknown"], the product part of the key. *)
Definition productOrUnknown (r : ParsedSub) : jsstr :=
  match product r with
  | Some p => p
  | None => js "unknown"
  end.

(** The text behind the first digit of [s], from that digit on. *)
Definition fromFirstDigit (s : jsstr) : jsstr := dropWhile (fun c => negb (isDigit c)) s.

(** The fraction the money pattern reads behind a run of digits: a dot or
    a comma and the next one or two digits, if there is a digit. *)
Definition fractionOf (r : jsstr) : jsstr :=
  match r with
  | sep :: r' =>
      if ((sep =? ch ".") || (sep =? ch ","))%N then
        match firstn 2 (takeWhile isDigit r') with
        | [] => []
        | ds => sep :: ds
        end
      else []
  | [] => []
  end.

(** The number a text starts with: its leading digits and their fraction. *)
Definition numberAt (t : jsstr) : jsstr :=
  takeWhile isDigit t ++ fractionOf (dropWhile isDigit t).

(** The first number of a text, [None] when the text has no digit. *)
Definition firstNumber (s : jsstr) : option jsstr :=
  match fromFirstDigit s with
  | [] => None
  | t => Some (numberAt t)
  end.

(** [parseFloat(g.replace(",", "."))] as [extractAmount] computes it. *)
Definition amountOfText (g : jsstr) : JSNumber :=
  match parseFloat (replaceFirstComma g) with
  | Some q => Num q
  | None => NaN
  end.

(** A pattern without capturing groups. *)
Fixpoint noGroups (r : regex) : bool :=
  match r with
  | Seq a b | Alt a b => noGroups a && noGroups b
  | Opt a => noGroups a
  | Group _ _ => false
  | _ => true
  end.

Section FurtherWording.

Context `{Host}.

(** A header without a name that the scan for the sender reaches: no
    header named [from] stands before it. *)
Definition namelessBeforeFrom (hs : list Header) : Prop :=
  exists l1 h l2,
    hs = l1 ++ h :: l2 /\ h_name h = None /\ forall x, In x l1 -> ~ isFromHeader x.

End FurtherWording.

(** ** Providers and dates of a record *)

Section RecordFacts.

Context `{Host}.

Lemma pushed_provider (bk : list jsstr) (m : EmailMsg) (c : ParsedSub) :
  processMessage bk m = Ok (Some c) ->
  In (provider c) knownProviders \/ provider c = js "unknown".
Proof.
  intros P.
  apply processMessage_Some in P as (pfh & amt & prod & G & _ & _ & _ & _ & _ & ->).
  apply guessProviderFromHeaders_spec in G as (found & _ & ->).
  cbn [provider]. rewrite !strOr_provider.
  destruct (find (fun p => includes (fromValue found) p) knownProviders) as [p|] eqn:E1.
  - left. now apply find_some in E1.
  - destruct (find (fun p => includes (loweredText m) p) knownProviders) as [p|] eqn:E2.
    + left. now apply find_some in E2.
    + now right.
Qed.

(** X1: the provider of every record of the output is a member of the
    provider enumeration or the word "unknown". *)
Theorem provider_is_enumerated (subs : list jsstr) (msgs : list EmailMsg)
        (out : list ParsedSub) (c : ParsedSub) :
  parseSubscriptionsFromEmails subs msgs = Ok out -> In c out ->
  In (provider c) knownProviders \/ provider c = js "unknown".
Proof.
  intros P Hin. destruct (@parse_In _ _ _ _ _ P Hin) as (m & _ & Pm).
  exact (pushed_provider _ _ _ Pm).
Qed.

Lemma extractDates_paired (s : jsstr) :
  extractDates s = mkDateInfo None None \/
  exists d, extractDates s = mkDateInfo (Some d) (Some (addDays d 30)).
Proof.
  unfold extractDates.
  destruct (smatch s isoRegex) as [iso|].
  - right. eexists. reflexivity.
  - destruct (smatch s longDateRegex) as [ld|].
    + right. eexists. reflexivity.
    + now left.
Qed.

Lemma pushed_dates (bk : list jsstr) (m : EmailMsg) (c : ParsedSub) :
  processMessage bk m = Ok (Some c) ->
  (startDate c = None /\ nextBilling c = None) \/
  (exists d, startDate c = Some d /\ nextBilling c = Some (addDays d 30)).
Proof.
  intros P.
  apply processMessage_Some in P as (pfh & amt & prod & _ & _ & _ & _ & _ & _ & ->).
  cbn [startDate nextBilling].
  destruct (extractDates_paired (strOr (snippet m) [])) as [-> | [d ->]].
  - now left.
  - right. now exists d.
Qed.

(** X2: in every record of the output the two dates are both [null], or
    both present with the next billing date 30 days after the start date
    (invalid when the start date is invalid). *)
Theorem dates_are_paired (subs : list jsstr) (msgs : list EmailMsg)
        (out : list ParsedSub) (c : ParsedSub) :
  parseSubscriptionsFromEmails subs msgs = Ok out -> In c out ->
  (startDate c = None /\ nextBilling c = None) \/
  (exists d, startDate c = Some d /\ nextBilling c = Some (addDays d 30)).
Proof.
  intros P Hin. destruct (@parse_In _ _ _ _ _ P Hin) as (m & _ & Pm).
  exact (pushed_dates _ _ _ Pm).
Qed.

(** ** When the call raises *)

Lemma findFrom_throws (hs : list Header) :
  findFrom hs = Throw TypeError <-> namelessBeforeFrom hs.
Proof.
  unfold namelessBeforeFrom. induction hs as [|h hs IH]; simpl.
  - split; [discriminate | intros ([|? ?] & ? & ? & E & _); discriminate].
  - destruct (h_name h) as [n|] eqn:En.
    + destruct (str_eqb (toLowerCase n) (js "from")) eqn:E.
      * split; [discriminate|].
        intros ([|a l1] & x & l2 & Ehs & Nx & NF); simpl in Ehs; injection Ehs as <- Ehs.
        -- congruence.
        -- exfalso. apply (NF h); [now left|].
           exists n. split; [exact En | now apply str_eqb_eq].
      * rewrite IH. split.
        -- intros (l1 & x & l2 & -> & Nx & NF). exists (h :: l1), x, l2.
           repeat split; auto. intros y [<- | Hy]; [|now apply NF].
           intros (n' & En' & F). rewrite En in En'. injection En' as <-.
           apply str_eqb_eq in F. congruence.
        -- intros ([|a l1] & x & l2 & Ehs & Nx & NF); simpl in Ehs; injection Ehs as <- Ehs.
           ++ congruence.
           ++ exists l1, x, l2. repeat split; auto. intros y Hy. apply NF. now right.
    + split; [|reflexivity]. intros _. exists [], h, hs.
      repeat split; auto; intros y [].
Qed.

Lemma throw_is_TypeError {A} (x : result A) (e : JSError) : x = Throw e -> x = Throw TypeError.
Proof. destruct e. auto. Qed.

Lemma guessProviderFromHeaders_throws (m : EmailMsg) :
  guessProviderFromHeaders (payload m) = Throw TypeError <->
  namelessBeforeFrom (headersOf m).
Proof.
  rewrite <- findFrom_throws. unfold guessProviderFromHeaders, headersOf.
  destruct (payload m) as [pl|]; simpl.
  - destruct (findFrom _) as [found|[]]; simpl; split; congruence.
  - split; discriminate.
Qed.

Lemma processMessage_throws (bk : list jsstr) (m : EmailMsg) :
  processMessage bk m = Throw TypeError <-> namelessBeforeFrom (headersOf m).
Proof.
  rewrite <- guessProviderFromHeaders_throws. unfold processMessage.
  destruct (guessProviderFromHeaders (payload m)) as [pfh|[]]; simpl.
  - split; [|discriminate].
    destruct (negb _ || negb _); [discriminate|].
    destruct (negb _); [discriminate|].
    destruct (extractAmount_total (strOr (snippet m) [])) as [amt ->]. simpl.
    destruct (extractProduct_total (snippet m)) as [p ->]. simpl. discriminate.
  - split; reflexivity.
Qed.

Lemma collectResults_throws (bk : list jsstr) (msgs : list EmailMsg) :
  collectResults bk msgs = Throw TypeError <->
  Exists (fun m => namelessBeforeFrom (headersOf m)) msgs.
Proof.
  induction msgs as [|m msgs IH]; simpl.
  - split; [discriminate | intros E; inversion E].
  - rewrite Exists_cons, <- IH, <- (processMessage_throws bk m).
    destruct (processMessage bk m) as [r|[]]; simpl.
    + destruct (collectResults bk msgs) as [rs|[]]; simpl; split;
        try discriminate; try tauto; intros [F|F]; congruence.
    + split; auto.
Qed.

(** X3: the call raises, and then a [TypeError], exactly when some
    message has a header without a name that is not preceded by a header
    named "from"; a nameless header behind the first "from" header is
    never looked at. *)
Theorem raises_exactly_on_reached_nameless_header (subs : list jsstr) (msgs : list EmailMsg) :
  (parseSubscriptionsFromEmails subs msgs = Throw TypeError <->
   Exists (fun m => namelessBeforeFrom (headersOf m)) msgs) /\
  ((exists out, parseSubscriptionsFromEmails subs msgs = Ok out) <->
   ~ Exists (fun m => namelessBeforeFrom (headersOf m)) msgs).
Proof.
  assert (T : parseSubscriptionsFromEmails subs msgs = Throw TypeError <->
              Exists (fun m => namelessBeforeFrom (headersOf m)) msgs).
  { rewrite <- (collectResults_throws (map toLowerCase subs)).
    unfold parseSubscriptionsFromEmails.
    destruct (collectResults _ msgs) as [rs|[]]; simpl; split; congruence. }
  split; [exact T|]. rewrite <- T.
  destruct (parseSubscriptionsFromEmails subs msgs) as [out|[]]; split.
  - discriminate.
  - eauto.
  - intros [out E]. discriminate.
  - intros F. now contradiction F.
Qed.

End RecordFacts.

(** ** Growing the batch *)

Lemma firstSeen_app (a b : list ParsedSub) : forall seen,
  firstSeen seen (a ++ b) =
  firstSeen seen a ++ firstSeen (seen ++ map subKey (firstSeen seen a)) b.
Proof.
  induction a as [|r a IH]; intros seen; simpl.
  - now rewrite app_nil_r.
  - destruct (existsb _ seen); [apply IH|].
    rewrite IH. simpl. now rewrite <- app_assoc.
Qed.

Lemma firstSeen_all_seen (rs : list ParsedSub) : forall seen,
  (forall r, In r rs -> In (subKey r) seen) -> firstSeen seen rs = [].
Proof.
  induction rs as [|r rs IH]; intros seen S; simpl; [reflexivity|].
  replace (existsb _ seen) with true.
  - apply IH. intros x Hx. apply S. now right.
  - symmetry. apply seen_In. apply S. now left.
Qed.

Section BatchFacts.

Context `{Host}.

Lemma collectResults_app (bk : list jsstr) (m1 m2 : list EmailMsg) :
  collectResults bk (m1 ++ m2) =
  bind (collectResults bk m1)
       (fun r1 => bind (collectResults bk m2) (fun r2 => Ok (r1 ++ r2))).
Proof.
  induction m1 as [|m m1 IH]; simpl.
  - destruct (collectResults bk m2); reflexivity.
  - destruct (processMessage bk m) as [r|e]; simpl; [|reflexivity].
    rewrite IH. destruct (collectResults bk m1) as [r1|e]; simpl; [|reflexivity].
    destruct (collectResults bk m2) as [r2|e]; simpl; [|reflexivity].
    destruct r; reflexivity.
Qed.

(** X4: messages appended to a batch never change, drop or reorder the
    records of the batch before them: the output of the longer batch is
    the output of the shorter one followed by records pushed for the
    appended messages. *)
Theorem appended_messages_extend_output (subs : list jsstr) (msgs more : list EmailMsg)
        (out : list ParsedSub) :
  parseSubscriptionsFromEmails subs (msgs ++ more) = Ok out ->
  exists out1 out2,
    parseSubscriptionsFromEmails subs msgs = Ok out1 /\
    out = out1 ++ out2 /\
    forall c, In c out2 ->
      exists m, In m more /\ processMessage (map toLowerCase subs) m = Ok (Some c).
Proof.
  intros P. apply parse_firstSeen in P as (results & C & ->).
  rewrite collectResults_app in C.
  destruct (collectResults _ msgs) as [r1|] eqn:C1; simpl in C; [|discriminate].
  destruct (collectResults _ more) as [r2|] eqn:C2; simpl in C; [|discriminate].
  injection C as <-. rewrite firstSeen_app.
  exists (firstSeen [] r1), (firstSeen ([] ++ map subKey (firstSeen [] r1)) r2).
  repeat split.
  - unfold parseSubscriptionsFromEmails, groupResults. rewrite C1. simpl.
    now rewrite groupResults_firstSeen.
  - intros c Hc. apply (collectResults_In _ _ C2).
    eapply Subseq_In; [apply firstSeen_Subseq | exact Hc].
Qed.

(** X5: handing every message over twice changes nothing; the call on the
    doubled batch returns what it returns on the batch, or raises as it
    does. *)
Theorem doubled_batch_same_output (subs : list jsstr) (msgs : list EmailMsg) :
  parseSubscriptionsFromEmails subs (msgs ++ msgs) =
  parseSubscriptionsFromEmails subs msgs.
Proof.
  unfold parseSubscriptionsFromEmails, groupResults. rewrite collectResults_app.
  destruct (collectResults _ msgs) as [rs|e]; simpl; [|reflexivity].
  f_equal. rewrite !groupResults_firstSeen. simpl. rewrite firstSeen_app.
  rewrite (firstSeen_all_seen rs ([] ++ map subKey (firstSeen [] rs))); [apply app_nil_r|].
  intros r Hr. simpl.
  destruct (@firstSeen_covers rs [] r Hr) as [[] | (c & Hc & K)].
  rewrite <- K. now apply in_map.
Qed.

Lemma key_parts_injective (a a' b b' : jsstr) :
  ~ In 58%N a -> ~ In 58%N a' ->
  a ++ js "::" ++ b = a' ++ js "::" ++ b' -> a = a' /\ b = b'.
Proof.
  revert a'. induction a as [|x a IH]; intros [|x' a'] Na Na' E; simpl in *.
  - injection E as ->. auto.
  - injection E as <- _. exfalso. apply Na'. now left.
  - injection E as -> _. exfalso. apply Na. now left.
  - injection E as -> E. destruct (IH a') as [-> ->]; auto.
Qed.

Lemma provider_has_no_colon (p : jsstr) :
  In p knownProviders \/ p = js "unknown" -> ~ In 58%N p.
Proof.
  unfold knownProviders. simpl.
  intros [Hin | ->].
  - repeat (destruct Hin as [<- | Hin]; [simpl; intuition discriminate|]). destruct Hin.
  - simpl. intuition discriminate.
Qed.

(** X6: the records pushed for two messages have the same key exactly
    when they have the same provider and the same product label, a record
    without a label counting as one labelled "unknown"; no other two
    records are merged. *)
Theorem same_key_same_provider_and_product (bk : list jsstr) (m1 m2 : EmailMsg)
        (c1 c2 : ParsedSub) :
  processMessage bk m1 = Ok (Some c1) -> processMessage bk m2 = Ok (Some c2) ->
  (subKey c1 = subKey c2 <->
   provider c1 = provider c2 /\ productOrUnknown c1 = productOrUnknown c2).
Proof.
  intros P1 P2. apply pushed_provider in P1, P2.
  apply provider_has_no_colon in P1, P2.
  unfold subKey, productOrUnknown. split.
  - intros E. now apply key_parts_injective.
  - intros [E1 E2]. rewrite E1. do 2 f_equal. exact E2.
Qed.

End BatchFacts.

(** ** The matcher: patterns without groups, greedy runs *)

Section MatcherMore.

Variable ic : bool.

(** A pattern without groups leaves the captures alone. *)
Lemma rmatch_nogroups (r : regex) :
  noGroups r = true ->
  forall st k res,
    rmatch ic r st k = Some res ->
    exists w rs,
      rest st = w ++ rs /\ Matches ic r (prev st) w rs /\
      k (MState (lastOr (prev st) w) rs (caps st)) = Some res.
Proof.
  induction r as [|p|a IHa b IHb|a IHa b IHb|a IHa|p lo hi|i a IHa|];
    intros G st k res E; simpl in E, G.
  - exists [], (rest st). destruct st; simpl in *. repeat split; auto using Matches.
  - destruct st as [pv s cs]; simpl in *. destruct s as [|c s]; [discriminate|].
    destruct (cmatch ic p c) eqn:Hc; [|discriminate].
    exists [c], s. repeat split; auto using Matches.
  - apply andb_true_iff in G as [Ga Gb].
    apply (IHa Ga) in E as (w1 & rs1 & E1 & M1 & E).
    apply (IHb Gb) in E as (w2 & rs2 & E2 & M2 & E). simpl in *.
    exists (w1 ++ w2), rs2. subst rs1. rewrite E1, <- app_assoc, lastOr_app.
    repeat split; auto using Matches.
  - apply andb_true_iff in G as [Ga Gb]. destruct (rmatch ic a st k) eqn:Ra.
    + injection E as <-. apply (IHa Ga) in Ra as (w & rs & E1 & M1 & E).
      exists w, rs. repeat split; auto using Matches.
    + apply (IHb Gb) in E as (w & rs & E1 & M1 & E).
      exists w, rs. repeat split; auto using Matches.
  - destruct (rmatch ic a st k) eqn:Ra.
    + injection E as <-. apply (IHa G) in Ra as (w & rs & E1 & M1 & E).
      exists w, rs. repeat split; auto using Matches.
    + exists [], (rest st). destruct st; simpl in *. repeat split; auto using Matches.
  - apply repClass_sound in E as (w & rs & E1 & Hw & Hlo & Hhi & E).
    exists w, rs. repeat split; auto using Matches.
  - discriminate.
  - destruct (atWordBoundary st) eqn:B; [|discriminate].
    exists [], (rest st). destruct st; simpl in *. repeat split; auto using Matches.
Qed.

(** A continuation that accepts every position and leaves the captures
    alone. *)
Definition accepting (k : mstate -> option mstate) : Prop :=
  forall st, exists st', k st = Some st' /\ caps st' = caps st.

Lemma accepting_Some : accepting Some.
Proof. intros st. now exists st. Qed.

Lemma opt_accepting (a : regex) (k : mstate -> option mstate) :
  noGroups a = true -> accepting k -> accepting (fun st => rmatch ic (Opt a) st k).
Proof.
  intros G Hk st. simpl. destruct (rmatch ic a st k) as [res|] eqn:R.
  - apply (rmatch_nogroups a G) in R as (w & rs & _ & _ & K).
    destruct (Hk (MState (lastOr (prev st) w) rs (caps st))) as (st' & E & C).
    rewrite E in K. injection K as <-. now exists st'.
  - apply Hk.
Qed.

(** The longest run of class members at the head of the input, cut at the
    upper bound. *)
Fixpoint greedyRun (p : cclass) (hi : option nat) (s : jsstr) : jsstr :=
  match s with
  | c :: s' =>
      if cmatch ic p c && negb (match hi with Some O => true | _ => false end)
      then c :: greedyRun p (option_map Nat.pred hi) s'
      else []
  | [] => []
  end.

(** A greedy repetition commits to its longest run as soon as the
    continuation accepts the position behind it. *)
Lemma repClass_greedy (p : cclass) (s : jsstr) : forall lo hi pv cs k,
  lo <= List.length (greedyRun p hi s) ->
  k (MState (lastOr pv (greedyRun p hi s)) (skipn (List.length (greedyRun p hi s)) s) cs)
    <> None ->
  repClass ic p lo hi pv s cs k =
  k (MState (lastOr pv (greedyRun p hi s)) (skipn (List.length (greedyRun p hi s)) s) cs).
Proof.
  induction s as [|c s IH]; intros lo hi pv cs k Hlo Hk; simpl in *.
  - assert (lo = 0) by lia. now subst.
  - destruct (cmatch ic p c && negb match hi with Some 0 => true | _ => false end) eqn:C;
      simpl in *.
    + rewrite IH; [|lia|exact Hk].
      destruct (k _) eqn:K; [reflexivity | contradiction].
    + assert (lo = 0) by lia. now subst.
Qed.

(** It fails when the run is shorter than the lower bound. *)
Lemma repClass_short (p : cclass) (s : jsstr) : forall lo hi pv cs k,
  List.length (greedyRun p hi s) < lo -> repClass ic p lo hi pv s cs k = None.
Proof.
  induction s as [|c s IH]; intros lo hi pv cs k Hlo; simpl in *.
  - destruct lo; [lia | reflexivity].
  - destruct (cmatch ic p c && negb match hi with Some 0 => true | _ => false end) eqn:C;
      simpl in *.
    + rewrite IH by lia. destruct lo; [lia | reflexivity].
    + destruct lo; [lia | reflexivity].
Qed.

Lemma greedyRun_unbounded (p : cclass) (s : jsstr) :
  greedyRun p None s = takeWhile (cmatch ic p) s.
Proof.
  induction s as [|c s IH]; simpl; [reflexivity|].
  rewrite andb_true_r. destruct (cmatch ic p c); [now rewrite IH | reflexivity].
Qed.

Lemma greedyRun_bounded (p : cclass) (s : jsstr) : forall h,
  greedyRun p (Some h) s = firstn h (takeWhile (cmatch ic p) s).
Proof.
  induction s as [|c s IH]; intros h; simpl.
  - now destruct h.
  - destruct (cmatch ic p c); simpl.
    + destruct h; simpl; [reflexivity | now rewrite IH].
    + now destruct h.
Qed.

End MatcherMore.

Lemma takeWhile_ext (f g : jschar -> bool) (s : jsstr) :
  (forall c, f c = g c) -> takeWhile f s = takeWhile g s.
Proof.
  intros E. induction s as [|c s IH]; simpl; [reflexivity|].
  rewrite E. destruct (g c); [now rewrite IH | reflexivity].
Qed.

Lemma takeWhile_dropWhile (f : jschar -> bool) (s : jsstr) :
  takeWhile f s ++ dropWhile f s = s.
Proof.
  induction s as [|c s IH]; simpl; [reflexivity|].
  destruct (f c); simpl; [now rewrite IH | reflexivity].
Qed.

Lemma skipn_takeWhile (f : jschar -> bool) (s : jsstr) :
  skipn (List.length (takeWhile f s)) s = dropWhile f s.
Proof.
  induction s as [|c s IH]; simpl; [reflexivity|].
  destruct (f c); simpl; [exact IH | reflexivity].
Qed.

(** ** The amount is the first number of the text *)

Definition moneyPrefix : regex :=
  alts (lit "USD") [lit "$"; lit "EUR"; one c_euro; lit "NGN"; one c_naira].
Definition moneySuffix : regex :=
  alts (lit "USD") [lit "EUR"; lit "NGN"; one c_naira].
Definition moneySeps : cclass := CUnion (CUnit (ch ".")) (CUnit (ch ",")).
Definition moneyFraction : regex := (Chr moneySeps >> Rep digits09 1 (Some 2))%re.
Definition moneyBody : regex := (Rep digits09 1 None >> Opt moneyFraction)%re.
Definition moneyTail : regex := (Opt (Chr CSpace) >> Opt moneySuffix)%re.

Lemma moneyRegex_shape :
  re_pattern moneyRegex =
  (Opt moneyPrefix >> Opt (Chr CSpace) >> Group 1 moneyBody >> moneyTail)%re.
Proof. reflexivity. Qed.

Lemma greedyRun_skipn (ic : bool) (p : cclass) (s : jsstr) : forall hi,
  greedyRun ic p hi s ++ skipn (List.length (greedyRun ic p hi s)) s = s.
Proof.
  induction s as [|c s IH]; intros hi; simpl; [reflexivity|].
  destruct (cmatch ic p c && _); simpl; [now rewrite IH | reflexivity].
Qed.

Lemma digits_run (s : jsstr) : greedyRun true digits09 None s = takeWhile isDigit s.
Proof. rewrite greedyRun_unbounded. apply takeWhile_ext. apply cmatch_digits09. Qed.

Lemma digits_run2 (s : jsstr) :
  greedyRun true digits09 (Some 2) s = firstn 2 (takeWhile isDigit s).
Proof.
  rewrite greedyRun_bounded. f_equal. apply takeWhile_ext. apply cmatch_digits09.
Qed.

Lemma cmatch_moneySeps (c : jschar) :
  cmatch true moneySeps c = ((c =? ch ".") || (c =? ch ","))%N.
Proof.
  rewrite cmatch_no_letters; [reflexivity|].
  intros x L. simpl. unfold isLetter, isUpperAscii, isLowerAscii in L.
  change (ch ".") with 46%N. change (ch ",") with 44%N. cmps.
Qed.

Lemma moneyTail_accepting (k : mstate -> option mstate) :
  accepting k -> accepting (fun st => rmatch true moneyTail st k).
Proof.
  intros Hk.
  change (accepting (fun st => rmatch true (Opt (Chr CSpace)) st
                                      (fun st' => rmatch true (Opt moneySuffix) st' k))).
  apply (opt_accepting true (Chr CSpace) _ eq_refl).
  apply (opt_accepting true moneySuffix _ eq_refl). exact Hk.
Qed.

(** Closing the capture group behind the word [g]. *)
Lemma close_group (k : mstate -> option mstate) (g rs : jsstr) (pv : option jschar)
      (cs : list (nat * jsstr)) :
  accepting k ->
  exists st', k (setCap 1 (consumed (g ++ rs) rs) (MState pv rs cs)) = Some st' /\
              caps st' = (1, g) :: cs.
Proof.
  intros Hk. rewrite consumed_app.
  destruct (Hk (setCap 1 g (MState pv rs cs))) as (st' & E & C). now exists st'.
Qed.

(** Behind the digits: the fraction is taken when there is one. *)
Lemma money_fraction_at (k : mstate -> option mstate) (w r1 : jsstr) (pv : option jschar)
      (cs : list (nat * jsstr)) :
  accepting k ->
  exists st',
    rmatch true (Opt moneyFraction) (MState pv r1 cs)
           (fun st' => k (setCap 1 (consumed (w ++ r1) (rest st')) st')) = Some st' /\
    caps st' = (1, w ++ fractionOf r1) :: cs.
Proof.
  intros Hk.
  assert (Skip : fractionOf r1 = [] ->
                 exists st', k (setCap 1 (consumed (w ++ r1) r1) (MState pv r1 cs)) = Some st' /\
                             caps st' = (1, w ++ fractionOf r1) :: cs).
  { intros ->. rewrite app_nil_r. now apply close_group. }
  unfold moneyFraction. cbn [rmatch rest prev caps].
  destruct r1 as [|sep r2]; [now apply Skip|].
  rewrite cmatch_moneySeps. unfold fractionOf in *.
  destruct ((sep =? ch ".") || (sep =? ch ","))%N; [|now apply Skip].
  pose proof (greedyRun_skipn true digits09 r2 (Some 2)) as Split.
  rewrite digits_run2 in Split.
  destruct (firstn 2 (takeWhile isDigit r2)) as [|x ds] eqn:W.
  - rewrite repClass_short by (rewrite digits_run2, W; simpl; lia). now apply Skip.
  - set (KG := fun st' => k (setCap 1 (consumed (w ++ sep :: r2) (rest st')) st')).
    assert (G : exists st',
               KG (MState (lastOr (Some sep) (x :: ds)) (skipn (List.length (x :: ds)) r2) cs)
               = Some st' /\ caps st' = (1, w ++ sep :: x :: ds) :: cs).
    { unfold KG. cbn [rest].
      assert (Er : w ++ sep :: r2 =
                   (w ++ sep :: x :: ds) ++ skipn (List.length (x :: ds)) r2).
      { rewrite <- app_assoc, <- app_comm_cons, Split. reflexivity. }
      rewrite Er. now apply close_group. }
    destruct G as (st' & E & C).
    rewrite repClass_greedy; rewrite digits_run2, W.
    + rewrite E. now exists st'.
    + simpl. lia.
    + rewrite E. discriminate.
Qed.

Lemma money_group_digit (k : mstate -> option mstate) (r : jsstr) (d : jschar) (r0 : jsstr)
      (pv : option jschar) (cs : list (nat * jsstr)) :
  accepting k -> r = d :: r0 -> isDigit d = true ->
  exists st', rmatch true (Group 1 moneyBody) (MState pv r cs) k = Some st' /\
              caps st' = (1, numberAt r) :: cs.
Proof.
  intros Hk Er Hd.
  change (rmatch true (Group 1 moneyBody) (MState pv r cs) k)
    with (repClass true digits09 1 None pv r cs
            (fun sa => rmatch true (Opt moneyFraction) sa
                         (fun st' => k (setCap 1 (consumed r (rest st')) st')))).
  pose proof (takeWhile_dropWhile isDigit r) as Split.
  destruct (money_fraction_at k (takeWhile isDigit r) (dropWhile isDigit r)
                              (lastOr pv (takeWhile isDigit r)) cs Hk) as (st' & E & C).
  rewrite Split in E.
  rewrite repClass_greedy; rewrite ?digits_run, ?skipn_takeWhile.
  - rewrite E. now exists st'.
  - subst r. simpl. rewrite Hd. simpl. lia.
  - rewrite E. discriminate.
Qed.

Lemma money_group_nodigit (k : mstate -> option mstate) (r : jsstr)
      (pv : option jschar) (cs : list (nat * jsstr)) :
  takeWhile isDigit r = [] ->
  rmatch true (Group 1 moneyBody) (MState pv r cs) k = None.
Proof.
  intros E. unfold moneyBody. cbn [rmatch rest prev caps].
  apply repClass_short. rewrite digits_run, E. simpl. lia.
Qed.

Definition notDigit (c : jschar) : bool := negb (isDigit c).

Lemma rmatch_Seq (ic : bool) (a b : regex) (st : mstate) (k : mstate -> option mstate) :
  rmatch ic (Seq a b) st k = rmatch ic a st (fun st' => rmatch ic b st' k).
Proof. reflexivity. Qed.

Lemma letter_not_digit (c : jschar) : isLetter c = true -> isDigit c = false.
Proof. unfold isLetter, isUpperAscii, isLowerAscii, isDigit. intros L. cmps. Qed.

Lemma isDigit_asciiLower (c : jschar) : isDigit (asciiLower c) = isDigit c.
Proof.
  destruct (asciiLower_cases c) as [-> | [L1 L2]]; [reflexivity|].
  now rewrite (letter_not_digit _ L1), (letter_not_digit _ L2).
Qed.

Lemma sameIgnoringCase_notDigit (w s : jsstr) :
  sameIgnoringCase w s -> forallb notDigit s = true -> forallb notDigit w = true.
Proof.
  unfold sameIgnoringCase. revert s. induction w as [|c w IH]; intros [|a s] E F;
    simpl in *; try discriminate; [reflexivity|].
  injection E as Ec E. apply andb_true_iff in F as [Fa F].
  rewrite (IH s E F), andb_true_r. unfold notDigit in *.
  now rewrite <- isDigit_asciiLower, Ec, isDigit_asciiLower.
Qed.

Lemma moneyPrefix_notDigit (pv : option jschar) (w rs : jsstr) :
  Matches true (Opt moneyPrefix) pv w rs -> forallb notDigit w = true.
Proof.
  intros M. inv_opt; [|reflexivity].
  unfold moneyPrefix in *. cbn [alts] in *. repeat inv_alt;
    match goal with
    | M : Matches _ (lit _) _ _ _ |- _ =>
        apply Matches_lit in M; now apply (sameIgnoringCase_notDigit _ _ M)
    | M : Matches _ (one _) _ _ _ |- _ =>
        apply Matches_one in M; [subst; reflexivity | reflexivity]
    end.
Qed.

Lemma optSpace_notDigit (pv : option jschar) (w rs : jsstr) :
  Matches true (Opt (Chr CSpace)) pv w rs -> forallb notDigit w = true.
Proof.
  intros M. inv_opt; [|reflexivity]. inv_chr.
  match goal with F : cmatch _ CSpace ?c = true |- _ =>
    rewrite cmatch_space in F; simpl; unfold notDigit;
    destruct (isDigit c) eqn:D; [rewrite (digit_not_space _ D) in F; discriminate | reflexivity]
  end.
Qed.

(** Where the money pattern matches from a position on, it has skipped
    no digit and has captured the number at the first digit. *)
Lemma money_at (pv : option jschar) (r : jsstr) (st' : mstate) :
  rmatch true (re_pattern moneyRegex) (MState pv r []) Some = Some st' ->
  exists u r2,
    r = u ++ r2 /\ forallb notDigit u = true /\ takeWhile isDigit r2 <> [] /\
    caps st' = [(1, numberAt r2)].
Proof.
  rewrite moneyRegex_shape, rmatch_Seq. intros E.
  apply (rmatch_nogroups true (Opt moneyPrefix) eq_refl) in E as (w1 & rs1 & E1 & M1 & E).
  rewrite rmatch_Seq in E.
  apply (rmatch_nogroups true (Opt (Chr CSpace)) eq_refl) in E as (w2 & rs2 & E2 & M2 & E).
  simpl in E1, E2, M1, M2. cbn [caps prev rest] in E. rewrite rmatch_Seq in E.
  exists (w1 ++ w2), rs2. rewrite <- app_assoc, <- E2, <- E1.
  rewrite forallb_app, (moneyPrefix_notDigit _ _ _ M1), (optSpace_notDigit _ _ _ M2).
  destruct (takeWhile isDigit rs2) as [|d ds] eqn:T.
  - rewrite money_group_nodigit in E by exact T. discriminate.
  - destruct rs2 as [|d' r0]; [discriminate|]. simpl in T.
    destruct (isDigit d') eqn:D; [|discriminate].
    destruct (money_group_digit (fun st => rmatch true moneyTail st Some) (d' :: r0) d' r0
                                (lastOr (lastOr pv w1) w2) []
                                (moneyTail_accepting Some accepting_Some) eq_refl D)
      as (st'' & E' & C).
    rewrite E' in E. injection E as <-. repeat split; auto. discriminate.
Qed.

Lemma opt_succeeds (a : regex) (st : mstate) (k : mstate -> option mstate) :
  k st <> None -> rmatch true (Opt a) st k <> None.
Proof. intros K. simpl. destruct (rmatch true a st k); [discriminate | exact K]. Qed.

(** At a digit the money pattern matches. *)
Lemma money_at_digit (pv : option jschar) (d : jschar) (r0 : jsstr) :
  isDigit d = true ->
  rmatch true (re_pattern moneyRegex) (MState pv (d :: r0) []) Some <> None.
Proof.
  intros D. rewrite moneyRegex_shape, rmatch_Seq. apply opt_succeeds.
  rewrite rmatch_Seq. apply opt_succeeds. rewrite rmatch_Seq.
  destruct (money_group_digit (fun st => rmatch true moneyTail st Some) (d :: r0) d r0 pv []
                              (moneyTail_accepting Some accepting_Some) eq_refl D)
    as (st'' & E' & _).
  rewrite E'. discriminate.
Qed.

Lemma first_digit_split (nd u t r2 : jsstr) :
  forallb notDigit nd = true -> forallb notDigit u = true ->
  takeWhile isDigit t <> [] -> takeWhile isDigit r2 <> [] ->
  nd ++ t = u ++ r2 -> nd = u /\ t = r2.
Proof.
  revert u. induction nd as [|c nd IH]; intros [|c' u] Fn Fu Tt Tr E; simpl in *.
  - auto.
  - subst t. simpl in Tt. apply andb_true_iff in Fu as [Fc _]. unfold notDigit in Fc.
    destruct (isDigit c'); [discriminate | contradiction].
  - subst r2. simpl in Tr. apply andb_true_iff in Fn as [Fc _]. unfold notDigit in Fc.
    destruct (isDigit c); [discriminate | contradiction].
  - injection E as -> E. apply andb_true_iff in Fn as [_ Fn]. apply andb_true_iff in Fu as [_ Fu].
    destruct (IH u Fn Fu Tt Tr E) as [-> ->]. auto.
Qed.

Lemma money_search_none (s : jsstr) : forall pv i,
  forallb notDigit s = true -> search true (re_pattern moneyRegex) pv s i = None.
Proof.
  induction s as [|c s IH]; intros pv i F; rewrite search_unfold.
  - destruct (rmatch true _ _ Some) as [st'|] eqn:R; [|reflexivity].
    apply money_at in R as (u & r2 & E & _ & T & _).
    destruct u; destruct r2; try discriminate. now contradiction T.
  - destruct (rmatch true _ _ Some) as [st'|] eqn:R.
    + apply money_at in R as (u & r2 & E & _ & T & _).
      rewrite E, forallb_app in F. apply andb_true_iff in F as [_ F].
      destruct r2 as [|d r0]; [now contradiction T|]. simpl in T, F.
      unfold notDigit in F. destruct (isDigit d); [discriminate | now contradiction T].
    + simpl in F. apply andb_true_iff in F as [_ F]. now apply IH.
Qed.

Lemma money_search_first (nd t : jsstr) : forall pv i,
  forallb notDigit nd = true -> takeWhile isDigit t <> [] ->
  exists m, search true (re_pattern moneyRegex) pv (nd ++ t) i = Some m /\
            m_caps m = [(1, numberAt t)].
Proof.
  induction nd as [|c nd IH]; intros pv i F T; rewrite search_unfold.
  - simpl app. destruct (rmatch true _ _ Some) as [st'|] eqn:R.
    + apply money_at in R as (u & r2 & E & Fu & Tr & C).
      destruct (first_digit_split [] u t r2 eq_refl Fu T Tr E) as [_ <-].
      eexists. split; [reflexivity | exact C].
    + exfalso. destruct t as [|d r0]; [now contradiction T|]. simpl in T.
      destruct (isDigit d) eqn:D; [|now contradiction T].
      now apply (money_at_digit pv d r0 D).
  - destruct (rmatch true _ _ Some) as [st'|] eqn:R.
    + apply money_at in R as (u & r2 & E & Fu & Tr & C).
      destruct (first_digit_split (c :: nd) u t r2 F Fu T Tr E) as [_ <-].
      eexists. split; [reflexivity | exact C].
    + simpl in F. apply andb_true_iff in F as [_ F]. simpl app. now apply IH.
Qed.

Lemma fromFirstDigit_split (s : jsstr) :
  s = takeWhile notDigit s ++ fromFirstDigit s /\
  forallb notDigit (takeWhile notDigit s) = true /\
  (fromFirstDigit s = [] \/ takeWhile isDigit (fromFirstDigit s) <> []).
Proof.
  unfold fromFirstDigit. fold notDigit. split; [now rewrite takeWhile_dropWhile|].
  induction s as [|c s [IH1 IH2]]; simpl; [auto|].
  destruct (notDigit c) eqn:N; simpl.
  - now rewrite N, IH1.
  - split; [reflexivity|]. right. unfold notDigit in N.
    destruct (isDigit c); [discriminate | discriminate].
Qed.

(** What [match] returns for the money pattern. *)
Lemma smatch_money (s : jsstr) :
  match firstNumber s with
  | Some g => exists m, smatch s moneyRegex = Some m /\ group 1 m = Some g
  | None => smatch s moneyRegex = None
  end.
Proof.
  unfold firstNumber, smatch. change (re_ignoreCase moneyRegex) with true.
  destruct (fromFirstDigit_split s) as (E & F & T).
  destruct (fromFirstDigit s) as [|d t] eqn:Ft.
  - rewrite app_nil_r in E. rewrite E. now apply money_search_none.
  - destruct T as [T|T]; [discriminate|].
    destruct (money_search_first _ (d :: t) None 0 F T) as (m & Em & C).
    rewrite <- E in Em. exists m. split; [exact Em|].
    unfold group. rewrite C. reflexivity.
Qed.

Lemma extractAmount_firstNumber (s : jsstr) :
  exists amt, extractAmount s = Ok amt /\
              a_amount amt = option_map amountOfText (firstNumber s).
Proof.
  pose proof (smatch_money s) as M. unfold extractAmount.
  destruct (firstNumber s) as [g|].
  - destruct M as (m & -> & G). unfold capture. rewrite G. simpl.
    eexists. split; reflexivity.
  - rewrite M. eexists. split; reflexivity.
Qed.

(** X7: the amount of a record is read off the first number of the text
    and nothing else: the run of digits at the first digit of the text and,
    if a dot or a comma with a digit follows, that separator and at most
    two digits.  A later number is never used, and a third digit behind
    the separator is dropped, so that [1,299.00] is read as 1.29. *)
Theorem amount_is_first_number `{Host} (s : jsstr) :
  (exists amt, extractAmount s = Ok amt /\
               a_amount amt = option_map amountOfText (firstNumber s)) /\
  (forall bk m c, rawText m = s -> processMessage bk m = Ok (Some c) ->
                  amount c = option_map amountOfText (firstNumber s)).
Proof.
  split; [apply extractAmount_firstNumber|].
  intros bk m c Et Pm.
  apply processMessage_Some in Pm as (pfh & amt & prod & _ & _ & _ & _ & A & _ & ->).
  cbn [amount]. unfold rawText in Et. rewrite Et in A.
  destruct (extractAmount_firstNumber s) as (amt' & A' & F).
  rewrite A in A'. injection A' as <-. exact F.
Qed.

Example thousands_separator_cuts_amount :
  firstNumber (js "Total: $1,299.00 billed") = Some (js "1,29") /\
  amountOfText (js "1,29") = Num (129 # 100).
Proof. split; reflexivity. Qed.

Example earlier_number_is_the_amount :
  firstNumber (js "Invoice 20417: your plan renewed for $9.99") = Some (js "20417").
Proof. reflexivity. Qed.

(** ** The product label *)

Lemma cmatch_productChars (c : jschar) :
  cmatch true productChars c = cmem productChars c.
Proof.
  unfold cmatch.
  destruct (cmem productChars c) eqn:E; [reflexivity|].
  rewrite orb_false_l, andb_true_l.
  assert (NL : isLetter c = false).
  { destruct (isLetter c) eqn:L; [|reflexivity]. rewrite <- E. symmetry.
    unfold isLetter, isUpperAscii, isLowerAscii in L. simpl.
    change (ch "A") with 65%N. change (ch "Z") with 90%N.
    change (ch "a") with 97%N. change (ch "z") with 122%N.
    change (ch "0") with 48%N. change (ch "9") with 57%N.
    change (ch " ") with 32%N. change (ch "-") with 45%N. cmps. }
  destruct (asciiUpper_cases c) as [-> | [L _]]; [|congruence].
  destruct (asciiLower_cases c) as [-> | [L _]]; [|congruence].
  now rewrite E.
Qed.

Lemma rep_productChars (pv : option jschar) (w rs : jsstr) :
  Matches true (Rep productChars 1 None) pv w rs ->
  forallb (cmem productChars) w = true.
Proof.
  intros M. inv_rep.
  match goal with F : forallb _ w = true |- _ => rename F into Fw end.
  clear - Fw. induction w as [|c w IH]; cbn [forallb] in *; [reflexivity|].
  apply andb_true_iff in Fw as [Fc Fw]. rewrite cmatch_productChars in Fc.
  rewrite Fc. now apply IH.
Qed.

Lemma productRegex_groups :
  groupsSat true (fun n g => n = 2 -> forallb (cmem productChars) g = true)
            (re_pattern productRegex).
Proof.
  unfold productRegex. cbn [re_pattern]. simpl. repeat split; try exact I;
    try (intros; discriminate).
  intros pv w rs M _. exact (rep_productChars pv w rs M).
Qed.

Lemma dropWhile_forallb (f g : jschar -> bool) (s : jsstr) :
  forallb f s = true -> forallb f (dropWhile g s) = true.
Proof.
  induction s as [|c s IH]; simpl; [reflexivity|].
  intros F. apply andb_true_iff in F as [Fc F].
  destruct (g c); [now apply IH | simpl; now rewrite Fc, F].
Qed.

Lemma dropWhile_head (g : jschar -> bool) (s : jsstr) (x : jschar) (t : jsstr) :
  dropWhile g s = x :: t -> g x = false.
Proof.
  induction s as [|c s IH]; simpl; [discriminate|].
  destruct (g c) eqn:G; [exact IH | intros [= <- _]; exact G].
Qed.

Lemma dropWhile_keeps_last (g : jschar -> bool) (s : jsstr) (x : jschar) (t : jsstr) :
  dropWhile g s = t ++ [x] -> exists t', s = t' ++ [x].
Proof.
  intros E. pose proof (takeWhile_dropWhile g s) as Split. rewrite E in Split.
  exists (takeWhile g s ++ t). now rewrite <- app_assoc.
Qed.

Lemma forallb_rev (f : jschar -> bool) (s : jsstr) :
  forallb f (rev s) = forallb f s.
Proof.
  induction s as [|c s IH]; simpl; [reflexivity|].
  rewrite forallb_app, IH. simpl. rewrite andb_true_r. apply andb_comm.
Qed.

(** What [trim] leaves of a word. *)
Lemma trim_shape (f : jschar -> bool) (g : jsstr) :
  forallb f g = true ->
  forallb f (trim g) = true /\
  (forall x t, trim g = x :: t -> isWhiteSpace x = false) /\
  (forall x t, trim g = t ++ [x] -> isWhiteSpace x = false).
Proof.
  intros F. unfold trim. repeat split.
  - rewrite forallb_rev. apply dropWhile_forallb. rewrite forallb_rev.
    now apply dropWhile_forallb.
  - intros x t E. apply (f_equal (@rev jschar)) in E. rewrite rev_involutive in E.
    simpl in E. apply dropWhile_keeps_last in E as [t' E].
    apply (f_equal (@rev jschar)) in E. rewrite rev_involutive, rev_app_distr in E.
    simpl in E. now apply dropWhile_head in E.
  - intros x t E. apply (f_equal (@rev jschar)) in E. rewrite rev_involutive in E.
    rewrite rev_app_distr in E. simpl in E. now apply dropWhile_head in E.
Qed.

Lemma firstLine_productChars (p : jsstr) :
  forallb (cmem productChars) p = true -> firstLine p = p.
Proof.
  induction p as [|c p IH]; simpl; [reflexivity|].
  intros F. apply andb_true_iff in F as [Fc F]. rewrite IH by exact F.
  destruct (N.eqb_spec c 10) as [->|]; [discriminate | reflexivity].
Qed.

Lemma extractProduct_shape (s : option jsstr) (p : jsstr) :
  extractProduct s = Ok (Some p) ->
  forallb (cmem productChars) p = true /\
  (forall x t, p = x :: t -> isWhiteSpace x = false) /\
  (forall x t, p = t ++ [x] -> isWhiteSpace x = false).
Proof.
  unfold extractProduct. destruct s as [s|]; [|discriminate].
  destruct (smatch s productRegex) as [m|] eqn:E; [|discriminate].
  unfold capture, group. destruct (lookupCap 2 (m_caps m)) as [g|] eqn:L; [|discriminate].
  simpl. intros [= <-].
  unfold smatch in E. eapply search_caps in E; [|exact productRegex_groups].
  assert (Fg : forallb (cmem productChars) g = true).
  { clear - L E. induction (m_caps m) as [|[i w] cs IH]; [discriminate|].
    inversion E as [|? ? Hw Hcs]; subst. simpl in L.
    destruct (Nat.eqb_spec i 2) as [->|]; [|now apply IH].
    injection L as <-. now apply Hw. }
  destruct (trim_shape _ g Fg) as (Ft & Hh & Hl).
  rewrite (firstLine_productChars _ Ft). auto.
Qed.

(** X8: the product label of a record, when there is one, is made of
    ASCII letters, digits, blanks and hyphens only and has no white space
    at either end; it holds no line break, so that taking its first line
    never shortens it. *)
Theorem product_label_shape `{Host} (subs : list jsstr) (msgs : list EmailMsg)
        (out : list ParsedSub) (c : ParsedSub) (p : jsstr) :
  parseSubscriptionsFromEmails subs msgs = Ok out -> In c out -> product c = Some p ->
  forallb (cmem productChars) p = true /\
  (forall x t, p = x :: t -> isWhiteSpace x = false) /\
  (forall x t, p = t ++ [x] -> isWhiteSpace x = false).
Proof.
  intros P Hin Ep. destruct (@parse_In _ _ _ _ _ P Hin) as (m & _ & Pm).
  apply processMessage_Some in Pm as (pfh & amt & prod & _ & _ & _ & _ & _ & X & ->).
  cbn [product] in Ep. subst prod. now apply extractProduct_shape in X.
Qed.

(** * The mail scanner

    [src/services/gmailServices.ts]: the search of a message body and the
    scan that lists, fetches, parses and stores. *)

(** ** Message parts *)

(** A part of a Gmail message as [getMessageBody] reads it: its MIME
    type, [body?.data] (absent when the part has no body or the body no
    data), its headers and its sub-parts. *)
Local Unset Elimination Schemes.
Inductive MessagePart :=
| mkPart (mimeType : option jsstr) (bodyData : option jsstr)
         (partHeaders : option (list Header)) (parts : option (list MessagePart)).
Local Set Elimination Schemes.

Definition mimeTypeOf (p : MessagePart) : option jsstr :=
  match p with mkPart m _ _ _ => m end.
Definition bodyDataOf (p : MessagePart) : option jsstr :=
  match p with mkPart _ d _ _ => d end.
Definition partHeadersOf (p : MessagePart) : option (list Header) :=
  match p with mkPart _ _ h _ => h end.
Definition partsOf (p : MessagePart) : option (list MessagePart) :=
  match p with mkPart _ _ _ ps => ps end.

(** The payload the parser sees of a part: its headers. *)
Definition payloadOf (p : MessagePart) : Payload := mkPayload (partHeadersOf p).

(** A string that is present and not empty, the only truthy one. *)
Definition truthyStr (x : option jsstr) : option jsstr :=
  match x with
  | Some (c :: s) => Some (c :: s)
  | _ => None
  end.

Definition isTextMime (m : option jsstr) : bool :=
  match m with
  | Some t => str_eqb t (js "text/plain") || str_eqb t (js "text/html")
  | None => false
  end.

Section Body.

(** [Buffer.from(data, "base64").toString("utf8")]. *)
Variable decode : jsstr -> jsstr.

Fixpoint getMessageBody (payload : MessagePart) : jsstr :=
  match truthyStr (bodyDataOf payload) with
  | Some d => decode d
  | None =>
      match partsOf payload with
      | Some ps =>
          (fix over (ps : list MessagePart) : jsstr :=
             match ps with
             | [] => []
             | part :: ps' =>
                 match (if isTextMime (mimeTypeOf part)
                        then truthyStr (bodyDataOf part) else None) with
                 | Some d => decode d
                 | None =>
                     match getMessageBody part with
                     | [] => over ps'
                     | nested => nested
                     end
                 end
             end) ps
      | None => []
      end
  end.

(** The loop over the sub-parts. *)
Definition bodyOver (ps : list MessagePart) : jsstr :=
  (fix over (ps : list MessagePart) : jsstr :=
     match ps with
     | [] => []
     | part :: ps' =>
         match (if isTextMime (mimeTypeOf part)
                then truthyStr (bodyDataOf part) else None) with
         | Some d => decode d
         | None =>
             match getMessageBody part with
             | [] => over ps'
             | nested => nested
             end
         end
     end) ps.

(** [getMessageBody(payload)] for a payload that may be missing. *)
Definition getMessageBodyOf (payload : option MessagePart) : jsstr :=
  match payload with
  | Some p => getMessageBody p
  | None => []
  end.

End Body.

(** The first body data of a part in document order: its own, else that
    of its first sub-part that has one. *)
Fixpoint firstData (p : MessagePart) : option jsstr :=
  match truthyStr (bodyDataOf p) with
  | Some d => Some d
  | None =>
      match partsOf p with
      | Some ps =>
          (fix first (ps : list MessagePart) : option jsstr :=
             match ps with
             | [] => None
             | part :: ps' =>
                 match firstData part with
                 | Some d => Some d
                 | None => first ps'
                 end
             end) ps
      | None => None
      end
  end.

Definition firstDataOver (ps : list MessagePart) : option jsstr :=
  (fix first (ps : list MessagePart) : option jsstr :=
     match ps with
     | [] => None
     | part :: ps' =>
         match firstData part with
         | Some d => Some d
         | None => first ps'
         end
     end) ps.

(** All body data of a part and its sub-parts. *)
Fixpoint allData (p : MessagePart) : list jsstr :=
  match truthyStr (bodyDataOf p) with
  | Some d => [d]
  | None => []
  end ++
  match partsOf p with
  | Some ps => flat_map allData ps
  | None => []
  end.

(** Induction over parts and their sub-parts. *)
Section PartInduction.

Variable P : MessagePart -> Prop.
Hypothesis step :
  forall m d h ps,
    match ps with Some l => Forall P l | None => True end -> P (mkPart m d h ps).

Fixpoint MessagePart_induction (p : MessagePart) : P p :=
  match p with
  | mkPart m d h ps =>
      step m d h ps
        (match ps return match ps with Some l => Forall P l | None => True end with
         | Some l =>
             (fix all (l : list MessagePart) : Forall P l :=
                match l with
                | [] => Forall_nil P
                | x :: l' => Forall_cons x (MessagePart_induction x) (all l')
                end) l
         | None => I
         end)
  end.

End PartInduction.

Section BodyFacts.

Variable decode : jsstr -> jsstr.

Lemma getMessageBody_eq (m d : option jsstr) (h : option (list Header))
      (ps : option (list MessagePart)) :
  getMessageBody decode (mkPart m d h ps) =
  match truthyStr d with
  | Some x => decode x
  | None => match ps with
            | Some l => bodyOver decode l
            | None => []
            end
  end.
Proof. reflexivity. Qed.

Lemma bodyOver_cons (part : MessagePart) (ps : list MessagePart) :
  bodyOver decode (part :: ps) =
  match (if isTextMime (mimeTypeOf part) then truthyStr (bodyDataOf part) else None) with
  | Some d => decode d
  | None => match getMessageBody decode part with
            | [] => bodyOver decode ps
            | nested => nested
            end
  end.
Proof. reflexivity. Qed.

Lemma firstData_eq (m d : option jsstr) (h : option (list Header))
      (ps : option (list MessagePart)) :
  firstData (mkPart m d h ps) =
  match truthyStr d with
  | Some x => Some x
  | None => match ps with
            | Some l => firstDataOver l
            | None => None
            end
  end.
Proof. reflexivity. Qed.

Lemma firstDataOver_cons (part : MessagePart) (ps : list MessagePart) :
  firstDataOver (part :: ps) =
  match firstData part with
  | Some d => Some d
  | None => firstDataOver ps
  end.
Proof. reflexivity. Qed.

Lemma truthyStr_nonempty (x : option jsstr) (d : jsstr) :
  truthyStr x = Some d -> x = Some d /\ d <> [].
Proof.
  destruct x as [[|c s]|]; simpl; try discriminate. intros [= <-]. split; [reflexivity | discriminate].
Qed.

Lemma firstData_nonempty (p : MessagePart) (d : jsstr) :
  firstData p = Some d -> d <> [].
Proof.
  revert d. induction p as [m x h ps IH] using MessagePart_induction. intros d.
  rewrite firstData_eq. destruct (truthyStr x) as [y|] eqn:T.
  - intros [= <-]. now apply truthyStr_nonempty in T.
  - destruct ps as [l|]; [|discriminate].
    induction l as [|part l IHl]; [discriminate|].
    inversion IH as [|? ? Hp Hl]; subst. rewrite firstDataOver_cons.
    destruct (firstData part) as [y|] eqn:F.
    + intros [= <-]. now apply Hp.
    + now apply IHl.
Qed.

(** A part that has its own data answers with it, text or not. *)
Lemma getMessageBody_own (p : MessagePart) (d : jsstr) :
  truthyStr (bodyDataOf p) = Some d -> getMessageBody decode p = decode d.
Proof. destruct p as [m x h ps]. rewrite getMessageBody_eq. simpl. now intros ->. Qed.

(** X9: the MIME types play no part in the result.  When the first body
    data of the tree, in document order, decodes to a text that is not
    empty, the body is that text, whether its part is a text part or not;
    a tree without body data has the empty body. *)
Theorem body_is_first_data (p : MessagePart) :
  (forall d, firstData p = Some d -> decode d <> []) ->
  getMessageBody decode p =
  match firstData p with
  | Some d => decode d
  | None => []
  end.
Proof.
  induction p as [m x h ps IH] using MessagePart_induction.
  rewrite getMessageBody_eq, firstData_eq.
  destruct (truthyStr x) as [y|]; [reflexivity|].
  destruct ps as [l|]; [|reflexivity].
  induction l as [|part l IHl]; [reflexivity|].
  inversion IH as [|? ? Hp Hl]; subst. rewrite bodyOver_cons, firstDataOver_cons.
  intros NE.
  destruct (if isTextMime (mimeTypeOf part) then truthyStr (bodyDataOf part) else None)
    as [d|] eqn:T.
  - assert (Td : truthyStr (bodyDataOf part) = Some d)
      by (destruct (isTextMime _); [exact T | discriminate]).
    destruct part as [m' x' h' ps']. rewrite firstData_eq. simpl in Td. now rewrite Td.
  - destruct (firstData part) as [d|] eqn:F.
    + rewrite Hp by (intros d' [= <-]; now apply NE).
      pose proof (NE d eq_refl) as N.
      destruct (decode d); [contradiction | reflexivity].
    + rewrite Hp by discriminate. now apply IHl.
Qed.

(** X10: the body is never made up: it is empty, or the decoding of the
    data, not empty, of one part of the tree. *)
Theorem body_from_data (p : MessagePart) :
  getMessageBody decode p = [] \/
  exists d, In d (allData p) /\ d <> [] /\ getMessageBody decode p = decode d.
Proof.
  induction p as [m x h ps IH] using MessagePart_induction.
  rewrite getMessageBody_eq. simpl allData.
  destruct (truthyStr x) as [y|] eqn:T.
  - right. exists y. simpl. repeat split; auto. now apply truthyStr_nonempty in T.
  - destruct ps as [l|]; [|now left]. simpl.
    induction l as [|part l IHl]; [now left|].
    inversion IH as [|? ? Hp Hl]; subst. rewrite bodyOver_cons. simpl.
    assert (Next : bodyOver decode l = [] \/
                   exists d, In d (allData part ++ flat_map allData l) /\ d <> [] /\
                             bodyOver decode l = decode d).
    { destruct (IHl Hl) as [E | (d & Hd & N & E)]; [now left|].
      right. exists d. repeat split; auto. apply in_or_app. now right. }
    destruct (if isTextMime (mimeTypeOf part) then truthyStr (bodyDataOf part) else None)
      as [d|] eqn:Tp.
    + assert (Td : truthyStr (bodyDataOf part) = Some d)
        by (destruct (isTextMime _); [exact Tp | discriminate]).
      right. exists d. repeat split.
      * apply in_or_app. left. destruct part as [m' x' h' ps']. simpl in *.
        rewrite Td. now left.
      * now apply truthyStr_nonempty in Td.
    + destruct Hp as [E | (d & Hd & N & E)].
      * rewrite E. exact Next.
      * destruct (getMessageBody decode part) as [|c s] eqn:G; [exact Next|].
        right. exists d. repeat split; auto. apply in_or_app. now left.
Qed.

End BodyFacts.

(** ** The scan *)

(** The ids of the listed messages without repetitions, in the order of
    their first occurrence ([Array.from(new Set(...))]), cut at 400. *)
Definition addId (seen : list jsstr) (x : jsstr) : list jsstr :=
  if existsb (fun y => str_eqb y x) seen then seen else seen ++ [x].

Definition dedupIds (ids : list jsstr) : list jsstr := fold_left addId ids [].

Definition uniqueIds (ids : list jsstr) : list jsstr := firstn 400 (dedupIds ids).

(** The decimal digits of a number, as a template literal prints it. *)
Fixpoint uintUnits (u : Decimal.uint) : jsstr :=
  match u with
  | Decimal.Nil => []
  | Decimal.D0 u' => ch "0" :: uintUnits u'
  | Decimal.D1 u' => ch "1" :: uintUnits u'
  | Decimal.D2 u' => ch "2" :: uintUnits u'
  | Decimal.D3 u' => ch "3" :: uintUnits u'
  | Decimal.D4 u' => ch "4" :: uintUnits u'
  | Decimal.D5 u' => ch "5" :: uintUnits u'
  | Decimal.D6 u' => ch "6" :: uintUnits u'
  | Decimal.D7 u' => ch "7" :: uintUnits u'
  | Decimal.D8 u' => ch "8" :: uintUnits u'
  | Decimal.D9 u' => ch "9" :: uintUnits u'
  end.

Definition numberToString (z : Z) : jsstr :=
  match z with
  | Z0 => js "0"
  | Zpos p => uintUnits (Pos.to_uint p)
  | Zneg p => ch "-" :: uintUnits (Pos.to_uint p)
  end.

Definition c_quote : jschar := 34%N.
Definition c_newline : jschar := 10%N.

(** The search queries: one per brand name, or the general one when
    there is no brand name. *)
Definition keywordQueries (subs : list jsstr) (afterTimestamp : Z) : list jsstr :=
  match subs with
  | [] => [js "after:" ++ numberToString afterTimestamp
           ++ js " subject:(subscription OR invoice OR payment)"]
  | _ =>
      map (fun name =>
             js "after:" ++ numberToString afterTimestamp
             ++ js " (subject:" ++ name ++ js " OR from:" ++ name
             ++ js " OR " ++ [c_quote] ++ name ++ [c_quote] ++ js ")")
          subs
  end.

(** What the Gmail client returns for a message. *)
Record GmailMessage := mkGmailMessage {
  g_snippet : option jsstr;
  g_payload : option MessagePart
}.

Record GoogleToken := mkGoogleToken {
  accessToken : jsstr;
  refreshToken : jsstr
}.

(** [p.nextBilling ?? (p.startDate ? addDays(p.startDate, 30) : null)] *)
Definition billingToStore `{Host} (p : ParsedSub) : option JSDate :=
  match nextBilling p with
  | Some d => Some d
  | None =>
      match startDate p with
      | Some s => Some (addDays s 30)
      | None => None
      end
  end.

(** [x ?? y] *)
Definition orElse {A} (x y : option A) : option A :=
  match x with
  | Some a => Some a
  | None => y
  end.

Section Scan.

Context `{Host}.

(** The state of the outer world (the database, the mailbox, the clock),
    the errors its services reject with, and the keys of stored rows. *)
Variables (W Err RowId : Type).

(** The columns of a stored subscription the scan reads. *)
Record StoredSub := mkStoredSub {
  row_id : RowId;
  row_amount : option JSNumber;
  row_currency : option jsstr;
  row_startDate : option JSDate
}.

(** The [data] of [prisma.subscription.update]. *)
Record UpdateData := mkUpdateData {
  u_amount : option JSNumber;
  u_currency : option jsstr;
  u_startDate : option JSDate;
  u_nextBilling : option JSDate;
  u_rawData : RawData
}.

(** The [data] of [prisma.subscription.create]. *)
Record CreateData := mkCreateData {
  n_userId : jsstr;
  n_provider : jsstr;
  n_product : option jsstr;
  n_amount : option JSNumber;
  n_currency : option jsstr;
  n_startDate : option JSDate;
  n_nextBilling : option JSDate;
  n_rawData : RawData
}.

(** The answer of a service: a value or a rejection. *)
Inductive reply (A : Type) :=
| Reply (a : A)
| Reject (e : Err).
Arguments Reply {A} a.
Arguments Reject {A} e.

(** A call of a service: it may change the world. *)
Definition Service (A : Type) := W -> W * reply A.

Variable decode : jsstr -> jsstr.
Variable subs : list jsstr.

(** [prisma.googleToken.findUnique], [decrypt], the clock read as
    [Math.floor(oneYearAgo.getTime() / 1000)], the two Gmail calls made
    with the decrypted credentials, and the three calls on the
    subscription table. *)
Variable findToken : jsstr -> Service (option GoogleToken).
Variable decrypt : jsstr -> reply jsstr.
Variable oneYearAgoSeconds : W -> Z.
Variable listMessages : jsstr -> jsstr -> jsstr -> Service (option (list jsstr)).
Variable getMessage : jsstr -> jsstr -> jsstr -> Service GmailMessage.
Variable findFirst : jsstr -> jsstr -> option jsstr -> Service (option StoredSub).
Variable updateSub : RowId -> UpdateData -> Service StoredSub.
Variable createSub : CreateData -> Service StoredSub.

(** How the scan can fail. *)
Inductive Failure :=
| NoGoogleToken              (* Error("No google token for user") *)
| Raised (e : JSError)       (* an exception of the parser *)
| Rejected (e : Err).        (* a rejection of a service that is not caught *)

Inductive outcome (A : Type) :=
| Done (a : A)
| Failed (f : Failure).
Arguments Done {A} a.
Arguments Failed {A} f.

(** The first loop: a listing that is rejected is logged and skipped. *)
Fixpoint collectIds (access refresh : jsstr) (queries : list jsstr)
         (collected : list jsstr) (w : W) : W * list jsstr :=
  match queries with
  | [] => (w, collected)
  | q :: queries' =>
      match listMessages access refresh q w with
      | (w', Reply list) =>
          let msgs := match list with Some l => l | None => [] end in
          collectIds access refresh queries' (collected ++ msgs) w'
      | (w', Reject _) => collectIds access refresh queries' collected w'
      end
  end.

(** The message handed to the parser for a fetched one. *)
Definition detailedMsg (id : jsstr) (resp : GmailMessage) : EmailMsg :=
  let decodedBody := getMessageBodyOf decode (g_payload resp) in
  let combinedSnippet :=
    (match g_snippet resp with Some s => s | None => [] end) ++ [c_newline]
    ++ decodedBody in
  mkEmailMsg id (Some combinedSnippet) (option_map payloadOf (g_payload resp)).

(** The second loop: a message that cannot be fetched is logged and
    skipped. *)
Fixpoint fetchDetailed (access refresh : jsstr) (ids : list jsstr)
         (detailed : list EmailMsg) (w : W) : W * list EmailMsg :=
  match ids with
  | [] => (w, detailed)
  | id :: ids' =>
      match getMessage access refresh id w with
      | (w', Reply resp) =>
          fetchDetailed access refresh ids' (detailed ++ [detailedMsg id resp]) w'
      | (w', Reject _) => fetchDetailed access refresh ids' detailed w'
      end
  end.

Definition updateDataOf (p : ParsedSub) (existing : StoredSub) : UpdateData :=
  mkUpdateData (orElse (amount p) (row_amount existing))
               (orElse (currency p) (row_currency existing))
               (orElse (startDate p) (row_startDate existing))
               (billingToStore p)
               (rawData p).

Definition createDataOf (userId : jsstr) (p : ParsedSub) : CreateData :=
  mkCreateData userId (provider p) (product p) (amount p) (currency p)
               (startDate p) (billingToStore p) (rawData p).

(** The third loop: a rejection of the database ends the scan. *)
Fixpoint saveAll (userId : jsstr) (parsed : list ParsedSub) (saved : list StoredSub)
         (w : W) : W * outcome (list StoredSub) :=
  match parsed with
  | [] => (w, Done saved)
  | p :: parsed' =>
      match findFirst userId (provider p) (product p) w with
      | (w1, Reject e) => (w1, Failed (Rejected e))
      | (w1, Reply (Some existing)) =>
          match updateSub (row_id existing) (updateDataOf p existing) w1 with
          | (w2, Reject e) => (w2, Failed (Rejected e))
          | (w2, Reply updated) => saveAll userId parsed' (saved ++ [updated]) w2
          end
      | (w1, Reply None) =>
          match createSub (createDataOf userId p) w1 with
          | (w2, Reject e) => (w2, Failed (Rejected e))
          | (w2, Reply created) => saveAll userId parsed' (saved ++ [created]) w2
          end
      end
  end.

Definition scanUserGmailForSubscriptions (userId : jsstr) (w : W)
  : W * outcome (list StoredSub) :=
  match findToken userId w with
  | (w1, Reject e) => (w1, Failed (Rejected e))
  | (w1, Reply None) => (w1, Failed NoGoogleToken)
  | (w1, Reply (Some token)) =>
      match decrypt (accessToken token) with
      | Reject e => (w1, Failed (Rejected e))
      | Reply access =>
          match decrypt (refreshToken token) with
          | Reject e => (w1, Failed (Rejected e))
          | Reply refresh =>
              let afterTimestamp := oneYearAgoSeconds w1 in
              let queries := keywordQueries subs afterTimestamp in
              let (w2, collected) := collectIds access refresh queries [] w1 in
              let ids := uniqueIds collected in
              let (w3, detailed) := fetchDetailed access refresh ids [] w2 in
              match parseSubscriptionsFromEmails subs detailed with
              | Throw e => (w3, Failed (Raised e))
              | Ok parsed => saveAll userId parsed [] w3
              end
          end
      end
  end.


(** *** The three loops *)

Lemma collectIds_unfold (access refresh q : jsstr) (queries collected : list jsstr) (w : W) :
  collectIds access refresh (q :: queries) collected w =
  match listMessages access refresh q w with
  | (w', Reply (Some l)) => collectIds access refresh queries (collected ++ l) w'
  | (w', Reply None) => collectIds access refresh queries (collected ++ []) w'
  | (w', Reject _) => collectIds access refresh queries collected w'
  end.
Proof.
  simpl. destruct (listMessages access refresh q w) as [w' [[l|]|e]]; reflexivity.
Qed.

Lemma fetchDetailed_length (access refresh : jsstr) (ids : list jsstr) :
  forall detailed w,
    List.length (snd (fetchDetailed access refresh ids detailed w))
    <= List.length detailed + List.length ids.
Proof.
  induction ids as [|id ids IH]; intros detailed w; simpl; [lia|].
  destruct (getMessage access refresh id w) as [w' [resp|e]].
  - specialize (IH (detailed ++ [detailedMsg id resp]) w').
    rewrite length_app in IH. simpl in IH. lia.
  - specialize (IH detailed w'). lia.
Qed.

(** The messages handed to the parser carry ids of the list, in its order. *)
Lemma fetchDetailed_ids (access refresh : jsstr) (ids : list jsstr) :
  forall detailed w,
    exists kept,
      Subseq kept ids /\
      map id (snd (fetchDetailed access refresh ids detailed w)) = map id detailed ++ kept.
Proof.
  induction ids as [|i ids IH]; intros detailed w; simpl.
  - exists []. split; [constructor | now rewrite app_nil_r].
  - destruct (getMessage access refresh i w) as [w' [resp|e]].
    + destruct (IH (detailed ++ [detailedMsg i resp]) w') as (kept & S & E).
      exists (i :: kept). split; [now constructor|].
      rewrite E, map_app, <- app_assoc. reflexivity.
    + destruct (IH detailed w') as (kept & S & E).
      exists kept. split; [now constructor | exact E].
Qed.

Lemma saveAll_length (userId : jsstr) (parsed : list ParsedSub) :
  forall saved w w' out,
    saveAll userId parsed saved w = (w', Done out) ->
    List.length out = List.length saved + List.length parsed.
Proof.
  induction parsed as [|p parsed IH]; intros saved w w' out E; simpl in E.
  - injection E as _ <-. simpl. lia.
  - destruct (findFirst userId (provider p) (product p) w) as [w1 [[existing|]|e]];
      [| |discriminate].
    + destruct (updateSub _ _ w1) as [w2 [updated|e]]; [|discriminate].
      apply IH in E. rewrite length_app in E. simpl in *. lia.
    + destruct (createSub _ w1) as [w2 [created|e]]; [|discriminate].
      apply IH in E. rewrite length_app in E. simpl in *. lia.
Qed.

Lemma saveAll_succeeds (userId : jsstr) (parsed : list ParsedSub) :
  (forall u p q w, exists w' r, findFirst u p q w = (w', Reply r)) ->
  (forall i d w, exists w' r, updateSub i d w = (w', Reply r)) ->
  (forall d w, exists w' r, createSub d w = (w', Reply r)) ->
  forall saved w, exists w' out, saveAll userId parsed saved w = (w', Done out).
Proof.
  intros Hf Hu Hc. induction parsed as [|p parsed IH]; intros saved w; simpl; [eauto|].
  destruct (Hf userId (provider p) (product p) w) as (w1 & r & ->).
  destruct r as [existing|].
  - destruct (Hu (row_id existing) (updateDataOf p existing) w1) as (w2 & r & ->). apply IH.
  - destruct (Hc (createDataOf userId p) w1) as (w2 & r & ->). apply IH.
Qed.

Lemma fetchDetailed_named (access refresh : jsstr) (ids : list jsstr) :
  (forall a r i w w' resp,
      getMessage a r i w = (w', Reply resp) -> headersNamed (detailedMsg i resp)) ->
  forall detailed w,
    Forall headersNamed detailed ->
    Forall headersNamed (snd (fetchDetailed access refresh ids detailed w)).
Proof.
  intros Hn. induction ids as [|i ids IH]; intros detailed w F; simpl; [exact F|].
  destruct (getMessage access refresh i w) as [w' [resp|e]] eqn:G.
  - apply IH. apply Forall_app. split; [exact F|]. constructor; [|constructor].
    eapply Hn. exact G.
  - now apply IH.
Qed.

Lemma parsed_no_more_than_messages (msgs : list EmailMsg) (parsed : list ParsedSub) :
  parseSubscriptionsFromEmails subs msgs = Ok parsed ->
  List.length parsed <= List.length msgs.
Proof.
  intros P. apply parse_firstSeen in P as (results & C & ->).
  apply collectResults_length in C.
  pose proof (@Subseq_length _ _ _ (firstSeen_Subseq results [])). lia.
Qed.

(** X11: a scan that completes has stored at most 400 subscriptions: one
    row per record the parser returns, the parser at most one record per
    fetched message, and at most 400 messages are fetched. *)
Theorem scan_stores_at_most_400 (userId : jsstr) (w w' : W) (saved : list StoredSub) :
  scanUserGmailForSubscriptions userId w = (w', Done saved) ->
  List.length saved <= 400.
Proof.
  unfold scanUserGmailForSubscriptions.
  destruct (findToken userId w) as [w1 [[token|]|e]]; try discriminate.
  destruct (decrypt (accessToken token)) as [access|e]; [|discriminate].
  destruct (decrypt (refreshToken token)) as [refresh|e]; [|discriminate].
  destruct (collectIds access refresh _ [] w1) as [w2 collected].
  pose proof (fetchDetailed_length access refresh (uniqueIds collected) [] w2) as L.
  destruct (fetchDetailed access refresh (uniqueIds collected) [] w2) as [w3 detailed].
  simpl in L.
  destruct (parseSubscriptionsFromEmails subs detailed) as [parsed|e] eqn:P; [|discriminate].
  intros S. apply saveAll_length in S. apply parsed_no_more_than_messages in P.
  pose proof (firstn_le_length 400 (dedupIds collected)) as U.
  unfold uniqueIds in L. simpl in S. lia.
Qed.

(** X12: no failure of the mailbox ends a scan.  With a stored token that
    decrypts, a database that answers, and named headers in whatever the
    mailbox returns, the scan completes, whichever listings and fetches
    are rejected. *)
Theorem scan_survives_mailbox_failures (userId : jsstr) (w w1 : W) (token : GoogleToken)
        (access refresh : jsstr) :
  findToken userId w = (w1, Reply (Some token)) ->
  decrypt (accessToken token) = Reply access ->
  decrypt (refreshToken token) = Reply refresh ->
  (forall a r i w w' resp,
      getMessage a r i w = (w', Reply resp) -> headersNamed (detailedMsg i resp)) ->
  (forall u p q w, exists w' r, findFirst u p q w = (w', Reply r)) ->
  (forall i d w, exists w' r, updateSub i d w = (w', Reply r)) ->
  (forall d w, exists w' r, createSub d w = (w', Reply r)) ->
  exists w' saved, scanUserGmailForSubscriptions userId w = (w', Done saved).
Proof.
  intros Ht Ha Hr Hn Hf Hu Hc. unfold scanUserGmailForSubscriptions.
  rewrite Ht, Ha, Hr.
  destruct (collectIds access refresh _ [] w1) as [w2 collected].
  pose proof (fetchDetailed_named access refresh (uniqueIds collected) Hn [] w2
                                  (Forall_nil _)) as N.
  destruct (fetchDetailed access refresh (uniqueIds collected) [] w2) as [w3 detailed].
  simpl in N. unfold parseSubscriptionsFromEmails.
  destruct (@collectResults_total _ (map toLowerCase subs) detailed N) as [rs ->]. simpl.
  now apply saveAll_succeeds.
Qed.

End Scan.

(** *** The ids that are fetched *)

Fixpoint freshIds (seen ids : list jsstr) : list jsstr :=
  match ids with
  | [] => []
  | x :: ids' =>
      if existsb (fun y => str_eqb y x) seen then freshIds seen ids'
      else x :: freshIds (seen ++ [x]) ids'
  end.

Lemma dedup_fresh (ids : list jsstr) : forall seen,
  fold_left addId ids seen = seen ++ freshIds seen ids.
Proof.
  induction ids as [|x ids IH]; intros seen; simpl.
  - now rewrite app_nil_r.
  - rewrite IH. unfold addId. destruct (existsb _ seen); [reflexivity|].
    now rewrite <- app_assoc.
Qed.

Lemma freshIds_spec (ids : list jsstr) : forall seen,
  NoDup (freshIds seen ids) /\
  Subseq (freshIds seen ids) ids /\
  (forall x, In x (freshIds seen ids) -> ~ In x seen) /\
  (forall x, In x ids -> In x seen \/ In x (freshIds seen ids)).
Proof.
  induction ids as [|x ids IH]; intros seen; simpl.
  - repeat split; auto using NoDup_nil; try constructor; intros x [].
  - destruct (existsb _ seen) eqn:E.
    + destruct (IH seen) as (N & S & F & C). repeat split; auto.
      * now constructor.
      * intros y [<- | Hy]; [left; now apply seen_In | now apply C].
    + destruct (IH (seen ++ [x])) as (N & S & F & C).
      assert (Nx : ~ In x seen) by (intros I; apply seen_In in I; congruence).
      repeat split.
      * constructor; [|exact N]. intros I. apply (F x I). apply in_or_app. right. now left.
      * now constructor.
      * intros y [<- | Hy]; [exact Nx|]. intros I. apply (F y Hy). apply in_or_app. now left.
      * intros y [<- | Hy]; [right; now left|].
        destruct (C y Hy) as [I | I]; [|right; now right].
        apply in_app_or in I as [I | [<- | []]]; [now left | right; now left].
Qed.

Lemma Subseq_firstn {A} (n : nat) (l : list A) : Subseq (firstn n l) l.
Proof.
  revert n. induction l as [|x l IH]; intros [|n]; simpl.
  - constructor.
  - constructor.
  - apply Subseq_skip. apply (IH 0).
  - apply Subseq_keep. apply IH.
Qed.

Lemma NoDup_firstn {A} (n : nat) (l : list A) : NoDup l -> NoDup (firstn n l).
Proof.
  revert n. induction l as [|x l IH]; intros [|n] N; simpl; try constructor.
  - inversion N; subst. intros I. apply (@Subseq_In _ _ _ _ (Subseq_firstn n l)) in I.
    contradiction.
  - inversion N; subst. now apply IH.
Qed.

Lemma Subseq_trans {A} (a b c : list A) : Subseq a b -> Subseq b c -> Subseq a c.
Proof.
  intros Sab Sbc. revert a Sab. induction Sbc as [|x b c S IH|x b c S IH]; intros a Sab.
  - exact Sab.
  - constructor. now apply IH.
  - inversion Sab; subst; constructor; now apply IH.
Qed.

(** X13: the ids fetched are pairwise distinct, at most 400, and stand in
    the order in which they were first listed; a listed id is left out
    only when 400 others came before it. *)
Theorem fetched_ids_distinct_and_capped (ids : list jsstr) :
  NoDup (uniqueIds ids) /\
  List.length (uniqueIds ids) <= 400 /\
  Subseq (uniqueIds ids) ids /\
  (forall x, In x ids -> In x (uniqueIds ids) \/ List.length (uniqueIds ids) = 400).
Proof.
  unfold uniqueIds, dedupIds. rewrite dedup_fresh, app_nil_l.
  destruct (freshIds_spec ids []) as (N & S & _ & C).
  repeat split.
  - now apply NoDup_firstn.
  - apply firstn_le_length.
  - eapply Subseq_trans; [apply Subseq_firstn | exact S].
  - intros x Hx. destruct (C x Hx) as [[] | I].
    destruct (Nat.le_gt_cases (List.length (freshIds [] ids)) 400) as [Le | Gt].
    + left. now rewrite firstn_all2.
    + right. apply firstn_length_le. lia.
Qed.

(** X14: on the records the parser returns the scan's own computation of
    the next billing date changes nothing: it stores the date the parser
    gave, its fall-back to the start date plus 30 days is never taken. *)
Theorem stored_billing_is_parsed_billing `{Host} (subs : list jsstr) (msgs : list EmailMsg)
        (out : list ParsedSub) (p : ParsedSub) :
  parseSubscriptionsFromEmails subs msgs = Ok out -> In p out ->
  billingToStore p = nextBilling p.
Proof.
  intros P Hin. destruct (@parse_In _ _ _ _ _ P Hin) as (m & _ & Pm).
  unfold billingToStore.
  destruct (pushed_dates _ _ _ Pm) as [[-> ->] | (d & -> & ->)]; reflexivity.
Qed.

Arguments Reply {Err A} a.
Arguments Reject {Err A} e.
Arguments Done {Err A} a.
Arguments Failed {Err A} f.
Arguments mkStoredSub {RowId} row_id row_amount row_currency row_startDate.
Arguments row_id {RowId} s.

(** * The further properties on examples *)

(** ** A decoder to run the examples on

    Base64 in either alphabet, read up to the padding, the bytes taken as
    ASCII text.  A byte above 127 is shown as U+FFFD: the examples hold
    none, and sequences of several bytes are not assembled here. *)

Definition base64Value (c : jschar) : option N :=
  if (65 <=? c)%N && (c <=? 90)%N then Some (c - 65)%N
  else if (97 <=? c)%N && (c <=? 122)%N then Some (c - 71)%N
  else if (48 <=? c)%N && (c <=? 57)%N then Some (c + 4)%N
  else if (c =? 43)%N || (c =? 45)%N then Some 62%N
  else if (c =? 47)%N || (c =? 95)%N then Some 63%N
  else None.

Fixpoint sextets (s : jsstr) : list N :=
  match s with
  | [] => []
  | c :: s' =>
      match base64Value c with
      | Some v => v :: sextets s'
      | None => []
      end
  end.

Fixpoint octets (l : list N) : list N :=
  match l with
  | a :: b :: c :: d :: r =>
      (a * 4 + b / 16)%N :: ((b mod 16) * 16 + c / 4)%N :: ((c mod 4) * 64 + d)%N :: octets r
  | [a; b; c] => [(a * 4 + b / 16)%N; ((b mod 16) * 16 + c / 4)%N]
  | [a; b] => [(a * 4 + b / 16)%N]
  | _ => []
  end.

Definition refDecode (d : jsstr) : jsstr :=
  map (fun b => if (b <? 128)%N then b else 65533%N) (octets (sextets d)).

(** A message with an attachment in front of its text. *)
Definition attachmentFirst : MessagePart :=
  mkPart (Some (js "multipart/mixed")) None None
    (Some [mkPart (Some (js "application/pdf")) (Some (js "JVBERg==")) None None;
           mkPart (Some (js "text/plain")) (Some (js "SGVsbG8=")) None None]).

(** ** A world in memory *)

Inductive MemErr := Unavailable.

(** A row of the subscription table with the columns it is looked up by. *)
Record MemRow := mkMemRow {
  m_user : jsstr;
  m_provider : jsstr;
  m_product : option jsstr;
  m_row : StoredSub nat
}.

Definition MemWorld := list MemRow.

Definition optStr_eqb (a b : option jsstr) : bool :=
  match a, b with
  | Some x, Some y => str_eqb x y
  | None, None => true
  | _, _ => false
  end.

Definition memFindFirst (u p : jsstr) (q : option jsstr)
  : Service MemWorld MemErr (option (StoredSub nat)) :=
  fun w =>
    (w, Reply (option_map m_row
                 (find (fun r => str_eqb (m_user r) u && str_eqb (m_provider r) p
                                 && optStr_eqb (m_product r) q) w))).

Definition memUpdate (i : nat) (d : UpdateData) : Service MemWorld MemErr (StoredSub nat) :=
  fun w =>
    let row := mkStoredSub i (u_amount d) (u_currency d) (u_startDate d) in
    (map (fun r => if Nat.eqb (row_id (m_row r)) i
                   then mkMemRow (m_user r) (m_provider r) (m_product r) row
                   else r) w,
     Reply row).

Definition memCreate (d : CreateData) : Service MemWorld MemErr (StoredSub nat) :=
  fun w =>
    let row := mkStoredSub (List.length w) (n_amount d) (n_currency d) (n_startDate d) in
    (w ++ [mkMemRow (n_userId d) (n_provider d) (n_product d) row], Reply row).

Definition memFindToken (u : jsstr) : Service MemWorld MemErr (option GoogleToken) :=
  fun w => (w, Reply (Some (mkGoogleToken (js "access") (js "refresh")))).

Definition memDecrypt (s : jsstr) : reply MemErr jsstr := Reply s.

Definition memClock (w : MemWorld) : Z := 1700000000%Z.

(** The mailbox answers the listing for one brand and rejects the other;
    of the two messages it lists it hands out one. *)
Definition memList (a r q : jsstr) : Service MemWorld MemErr (option (list jsstr)) :=
  fun w =>
    if includes q (js "Netflix")
    then (w, Reply (Some [js "m-1"; js "m-2"; js "m-1"]))
    else (w, Reject Unavailable).

Definition memReceipt : GmailMessage :=
  mkGmailMessage (Some (js "Netflix receipt"))
    (Some (mkPart (Some (js "multipart/alternative")) None
             (Some [mkHeader (Some (js "From")) (Some (js "Netflix <info@netflix.com>"))])
             (Some [mkPart (Some (js "text/plain"))
                      (Some (js "WW91ciBOZXRmbGl4IHBsYW4gUHJlbWl1bSByZW5ld2VkIGZvciAkMTUuOTkgb24gMjAyNC0wMy0wNQ=="))
                      None None;
                    mkPart (Some (js "text/html"))
                      (Some (js "PHA+WW91ciBOZXRmbGl4IHBsYW48L3A+")) None None]))).

Definition memGet (a r i : jsstr) : Service MemWorld MemErr GmailMessage :=
  fun w =>
    if str_eqb i (js "m-1") then (w, Reply memReceipt) else (w, Reject Unavailable).

Definition memScan (userId : jsstr) (w : MemWorld)
  : MemWorld * outcome MemErr (list (StoredSub nat)) :=
  @scanUserGmailForSubscriptions refHost MemWorld MemErr nat refDecode demoSubs
    memFindToken memDecrypt memClock memList memGet memFindFirst memUpdate memCreate
    userId w.

Definition memRow0 : StoredSub nat :=
  mkStoredSub 0 (Some (Num (1599 # 100))) (Some (js "USD")) (Some (utcDate 2024 3 5)).

(** The table after a first scan. *)
Definition memAfter : MemWorld :=
  [mkMemRow (js "user-1") (js "netflix") (Some (js "Premium renewed for")) memRow0].

Lemma mem_scan_run : memScan (js "user-1") [] = (memAfter, Done [memRow0]).
Proof. vm_compute. reflexivity. Qed.

Lemma mem_fetched_named (a r i : jsstr) (w w' : MemWorld) (resp : GmailMessage) :
  memGet a r i w = (w', Reply resp) -> headersNamed (detailedMsg refDecode i resp).
Proof.
  unfold memGet. destruct (str_eqb i (js "m-1")); [|discriminate]. intros [= _ <-].
  unfold headersNamed.
  change (headersOf (detailedMsg refDecode i memReceipt))
    with [mkHeader (Some (js "From")) (Some (js "Netflix <info@netflix.com>"))].
  repeat constructor. discriminate.
Qed.

Lemma mem_findFirst_replies (u p : jsstr) (q : option jsstr) (w : MemWorld) :
  exists w' r, memFindFirst u p q w = (w', Reply r).
Proof. eexists. eexists. reflexivity. Qed.

Lemma mem_update_replies (i : nat) (d : UpdateData) (w : MemWorld) :
  exists w' r, memUpdate i d w = (w', Reply r).
Proof. eexists. eexists. reflexivity. Qed.

Lemma mem_create_replies (d : CreateData) (w : MemWorld) :
  exists w' r, memCreate d w = (w', Reply r).
Proof. eexists. eexists. reflexivity. Qed.

Lemma attachmentFirst_decodes (d : jsstr) :
  firstData attachmentFirst = Some d -> refDecode d <> [].
Proof. intros E. vm_compute in E. injection E as <-. vm_compute. discriminate. Qed.

(** ** The properties of the service *)

Lemma provider_is_enumerated_witness :
  In forwardedRecord demoOutput /\
  (In (provider forwardedRecord) knownProviders \/ provider forwardedRecord = js "unknown").
Proof.
  split; [right; left; reflexivity|].
  exact (@provider_is_enumerated refHost demoSubs demoBatch demoOutput forwardedRecord
                                 demo_run (or_intror (or_introl eq_refl))).
Defined.

Lemma dates_are_paired_witness :
  In (renewalRecord (js "m-1")) demoOutput /\
  ((startDate (renewalRecord (js "m-1")) = None /\
    nextBilling (renewalRecord (js "m-1")) = None) \/
   (exists d, startDate (renewalRecord (js "m-1")) = Some d /\
              nextBilling (renewalRecord (js "m-1")) = Some (@addDays refHost d 30))).
Proof.
  split; [left; reflexivity|].
  exact (@dates_are_paired refHost demoSubs demoBatch demoOutput (renewalRecord (js "m-1"))
                           demo_run (or_introl eq_refl)).
Defined.

Lemma appended_messages_extend_output_witness :
  [renewalMsg (js "m-1"); noticeMsg] ++ [forwardedMsg; renewalMsg (js "m-2"); vagueMsg]
  = demoBatch /\
  exists out1 out2,
    @parseSubscriptionsFromEmails refHost demoSubs [renewalMsg (js "m-1"); noticeMsg] = Ok out1 /\
    demoOutput = out1 ++ out2 /\
    forall c, In c out2 ->
      exists m, In m [forwardedMsg; renewalMsg (js "m-2"); vagueMsg] /\
                @processMessage refHost (map (@toLowerCase refHost) demoSubs) m = Ok (Some c).
Proof.
  split; [reflexivity|].
  exact (@appended_messages_extend_output refHost demoSubs
           [renewalMsg (js "m-1"); noticeMsg]
           [forwardedMsg; renewalMsg (js "m-2"); vagueMsg] demoOutput demo_run).
Defined.

Lemma same_key_same_provider_and_product_witness :
  @processMessage refHost (map (@toLowerCase refHost) demoSubs) (renewalMsg (js "m-1")) =
  Ok (Some (renewalRecord (js "m-1"))) /\
  @processMessage refHost (map (@toLowerCase refHost) demoSubs) forwardedMsg =
  Ok (Some forwardedRecord) /\
  (subKey (renewalRecord (js "m-1")) = subKey forwardedRecord <->
   provider (renewalRecord (js "m-1")) = provider forwardedRecord /\
   productOrUnknown (renewalRecord (js "m-1")) = productOrUnknown forwardedRecord).
Proof.
  split; [exact renewal_processed|]. split; [exact forwarded_processed|].
  exact (@same_key_same_provider_and_product refHost _ _ _ _ _
           renewal_processed forwarded_processed).
Defined.

Lemma product_label_shape_witness :
  In forwardedRecord demoOutput /\
  product forwardedRecord = Some (js "Basic was charged 9") /\
  forallb (cmem productChars) (js "Basic was charged 9") = true /\
  (forall x t, js "Basic was charged 9" = x :: t -> isWhiteSpace x = false) /\
  (forall x t, js "Basic was charged 9" = t ++ [x] -> isWhiteSpace x = false).
Proof.
  split; [right; left; reflexivity|]. split; [reflexivity|].
  exact (@product_label_shape refHost demoSubs demoBatch demoOutput forwardedRecord
           (js "Basic was charged 9") demo_run (or_intror (or_introl eq_refl)) eq_refl).
Defined.

(** ** The properties of the scanner *)

Lemma body_is_first_data_witness :
  firstData attachmentFirst = Some (js "JVBERg==") /\
  refDecode (js "JVBERg==") = js "%PDF" /\
  getMessageBody refDecode attachmentFirst = js "%PDF".
Proof.
  split; [reflexivity|]. split; [reflexivity|].
  exact (body_is_first_data refDecode attachmentFirst attachmentFirst_decodes).
Defined.

Lemma scan_stores_at_most_400_witness :
  memScan (js "user-1") [] = (memAfter, Done [memRow0]) /\ List.length [memRow0] <= 400.
Proof.
  split; [exact mem_scan_run|].
  exact (@scan_stores_at_most_400 refHost MemWorld MemErr nat refDecode demoSubs
           memFindToken memDecrypt memClock memList memGet memFindFirst memUpdate memCreate
           (js "user-1") [] memAfter [memRow0] mem_scan_run).
Defined.

Lemma scan_survives_mailbox_failures_witness :
  (forall a r w, memGet a r (js "m-2") w = (w, Reject Unavailable)) /\
  (forall a r i w w' resp,
      memGet a r i w = (w', Reply resp) -> headersNamed (detailedMsg refDecode i resp)) /\
  exists w' saved, memScan (js "user-1") memAfter = (w', Done saved).
Proof.
  split; [reflexivity|]. split; [exact mem_fetched_named|].
  exact (@scan_survives_mailbox_failures refHost MemWorld MemErr nat refDecode demoSubs
           memFindToken memDecrypt memClock memList memGet memFindFirst memUpdate memCreate
           (js "user-1") memAfter memAfter (mkGoogleToken (js "access") (js "refresh"))
           (js "access") (js "refresh") eq_refl eq_refl eq_refl
           mem_fetched_named mem_findFirst_replies mem_update_replies mem_create_replies).
Defined.

Lemma stored_billing_is_parsed_billing_witness :
  In (renewalRecord (js "m-1")) demoOutput /\
  @billingToStore refHost (renewalRecord (js "m-1")) = Some (utcDate 2024 4 4).
Proof.
  split; [left; reflexivity|].
  exact (@stored_billing_is_parsed_billing refHost demoSubs demoBatch demoOutput
           (renewalRecord (js "m-1")) demo_run (or_introl eq_refl)).
Defined.
